(** * 1Shot API client SDK: the validation-and-request pipeline

    A shallow embedding of the two resource clients of the Node SDK
    ([Wallets] and [ContractEvents]), of the schemas they validate with
    ([validation/wallet.ts], [validation/contractEvent.ts]) and of the
    part of the schema library and of the platform ([URLSearchParams],
    object spread, [JSON.stringify]) that those clients exercise.

    The transport ([IOneShotClient.request]) is injected: it is a section
    variable, and every call made through it is recorded in a log. *)

From Stdlib Require Import String Ascii List ZArith Bool Lia DecimalString.
Import ListNotations.
Local Open Scope list_scope.
Local Open Scope string_scope.

Notation "x |> f" := (f x) (at level 45, left associativity, only parsing).

(** ** JavaScript values *)

(** A JavaScript number, which is a double.  A safe integer (one of
    magnitude below 2^53, see [safeInteger]) is [NumInt] of its value.  A
    whole number of greater magnitude, and a finite number that is not
    whole, are carried by the text [Number.prototype.toString] prints for
    them (18446744073709552000 and 1e+21, 0.5), since nothing here
    computes with them. *)
Inductive JsNumber : Type :=
| NumInt (z : Z)
| NumFrac (text : string)
| NumInf (negative : bool)
| NumNaN
| NumBig (text : string).

(** [Number.isSafeInteger] on whole numbers. *)
Definition safeInteger (z : Z) : bool := (Z.abs z <? 2 ^ 53)%Z.

(** The values the clients are given and give back: those of JSON, and
    [undefined].  An object is a plain object and an array a plain array,
    with the methods they inherit; no value is a function. *)
Unset Elimination Schemes.
Inductive JsValue : Type :=
| JUndefined
| JNull
| JBool (b : bool)
| JNum (n : JsNumber)
| JStr (s : string)
| JArr (items : list JsValue)
| JObj (fields : list (string * JsValue)).
Set Elimination Schemes.

(** An object is the list of its own enumerable properties, in the order
    [Object.entries] lists them; a key occurs at most once ([wf_obj]). *)
Definition Obj : Type := list (string * JsValue).

Definition JsValue_ind'
  (P : JsValue -> Prop)
  (Hu : P JUndefined) (Hn : P JNull)
  (Hb : forall b, P (JBool b)) (Hnum : forall n, P (JNum n))
  (Hs : forall s, P (JStr s))
  (Ha : forall l, Forall P l -> P (JArr l))
  (Ho : forall o, Forall (fun kv => P (snd kv)) o -> P (JObj o)) :
  forall v, P v :=
  fix F (v : JsValue) : P v :=
    match v with
    | JUndefined => Hu
    | JNull => Hn
    | JBool b => Hb b
    | JNum n => Hnum n
    | JStr s => Hs s
    | JArr l =>
        Ha l ((fix G (l : list JsValue) : Forall P l :=
                 match l with
                 | [] => Forall_nil _
                 | x :: r => Forall_cons x (F x) (G r)
                 end) l)
    | JObj o =>
        Ho o ((fix G (o : Obj) : Forall (fun kv => P (snd kv)) o :=
                 match o with
                 | [] => Forall_nil _
                 | kv :: r => Forall_cons kv (F (snd kv)) (G r)
                 end) o)
    end.

(** [key in obj] *)
Fixpoint has_key (k : string) (o : Obj) : bool :=
  match o with
  | [] => false
  | (k', _) :: r => if String.eqb k k' then true else has_key k r
  end.

Fixpoint lookup (k : string) (o : Obj) : option JsValue :=
  match o with
  | [] => None
  | (k', v) :: r => if String.eqb k k' then Some v else lookup k r
  end.

(** [obj[k]]: a missing property reads as [undefined]. *)
Definition get (o : Obj) (k : string) : JsValue :=
  match lookup k o with
  | Some v => v
  | None => JUndefined
  end.

(** [obj[k] = v]: an existing key keeps its place, a new key goes last. *)
Fixpoint set (k : string) (v : JsValue) (o : Obj) : Obj :=
  match o with
  | [] => [(k, v)]
  | (k', v') :: r =>
      if String.eqb k k' then (k', v) :: r else (k', v') :: set k v r
  end.

(** [{ ...target, ...source }] for an object [source]. *)
Definition spread (target source : Obj) : Obj :=
  fold_left (fun acc kv => set (fst kv) (snd kv) acc) source target.

(** [{ ...target, ...params }] where [params] may be [undefined]. *)
Definition spread_opt (target : Obj) (params : option Obj) : Obj :=
  match params with
  | Some p => spread target p
  | None => target
  end.

Definition keys (o : Obj) : list string := map fst o.

Definition wf_obj (o : Obj) : Prop := NoDup (keys o).

(** [v != undefined] (loose), the same as
    [v !== undefined && v !== null]. *)
Definition nullish (v : JsValue) : bool :=
  match v with
  | JUndefined | JNull => true
  | _ => false
  end.

Fixpoint join (sep : string) (l : list string) : string :=
  match l with
  | [] => ""
  | [x] => x
  | x :: r => x ++ sep ++ join sep r
  end.

(** [Number.prototype.toString].  A safe integer prints in decimal; the
    numbers carried by their text print as that text. *)
Definition Number_toString (n : JsNumber) : string :=
  match n with
  | NumInt z => NilZero.string_of_int (Z.to_int z)
  | NumFrac text => text
  | NumInf false => "Infinity"
  | NumInf true => "-Infinity"
  | NumNaN => "NaN"
  | NumBig text => text
  end.

(** [String(v)] on the values the clients apply it to: strings, numbers
    and booleans that came out of a schema.  It is also what
    [v.toString()] gives on them. *)
Fixpoint ToString (v : JsValue) : string :=
  match v with
  | JUndefined => "undefined"
  | JNull => "null"
  | JBool true => "true"
  | JBool false => "false"
  | JNum n => Number_toString n
  | JStr s => s
  | JArr l =>
      join "," (map (fun x => if nullish x then "" else ToString x) l)
  | JObj _ => "[object Object]"
  end.

(** The method call [value.toString()] on an arbitrary value.  [None] is
    the [TypeError] of a call that cannot be made: on [undefined] and
    [null], and on an object with an own property [toString], which
    shadows the inherited method and, in this value space, is never a
    function.  An array joins the texts of its elements, where an object
    with an own [toString] fails in the same way. *)
Fixpoint toStringMethod (v : JsValue) : option string :=
  match v with
  | JUndefined | JNull => None
  | JBool true => Some "true"
  | JBool false => Some "false"
  | JNum n => Some (Number_toString n)
  | JStr s => Some s
  | JArr l =>
      option_map (join ",")
        ((fix texts (l : list JsValue) : option (list string) :=
            match l with
            | [] => Some []
            | x :: r =>
                match (if nullish x then Some "" else toStringMethod x),
                      texts r with
                | Some t, Some ts => Some (t :: ts)
                | _, _ => None
                end
            end) l)
  | JObj o => if has_key "toString" o then None else Some "[object Object]"
  end.

(** The value [JSON.parse(JSON.stringify(v))] gives: properties whose
    value is [undefined] are dropped, [undefined] inside an array and
    numbers that are not finite become [null]. *)
Fixpoint toJSON (v : JsValue) : JsValue :=
  match v with
  | JNum (NumInf _) | JNum NumNaN => JNull
  | JArr l =>
      JArr (map (fun x => match x with
                          | JUndefined => JNull
                          | _ => toJSON x
                          end) l)
  | JObj o =>
      JObj ((fix props (o : Obj) : Obj :=
               match o with
               | [] => []
               | (k, JUndefined) :: r => props r
               | (k, x) :: r => (k, toJSON x) :: props r
               end) o)
  | _ => v
  end.

(** The properties of the JSON text of an object. *)
Definition jsonProps (v : JsValue) : Obj :=
  match toJSON v with
  | JObj o => o
  | _ => []
  end.

(** ** URLSearchParams *)

Module URLSearchParams.

Definition t : Type := list (string * string).

Definition empty : t := [].

Definition append (q : t) (name value : string) : t :=
  (q ++ [(name, value)])%list.

Definition hex_digit (n : nat) : ascii :=
  match n with
  | 0 => "0" | 1 => "1" | 2 => "2" | 3 => "3" | 4 => "4" | 5 => "5"
  | 6 => "6" | 7 => "7" | 8 => "8" | 9 => "9" | 10 => "A" | 11 => "B"
  | 12 => "C" | 13 => "D" | 14 => "E" | _ => "F"
  end%char.

(** Bytes the application/x-www-form-urlencoded serializer leaves as
    they are: ASCII letters and digits, and the characters * - . _ *)
Definition unreserved (c : ascii) : bool :=
  let n := nat_of_ascii c in
  (((48 <=? n) && (n <=? 57)) || ((65 <=? n) && (n <=? 90))
   || ((97 <=? n) && (n <=? 122))
   || (n =? 42) || (n =? 45) || (n =? 46) || (n =? 95))%nat.

(** Strings are taken as their UTF-8 bytes. *)
Fixpoint encode (s : string) : string :=
  match s with
  | EmptyString => EmptyString
  | String c r =>
      if unreserved c then String c (encode r)
      else if Nat.eqb (nat_of_ascii c) 32 then String "+"%char (encode r)
      else
        let n := nat_of_ascii c in
        String "%"%char
          (String (hex_digit (n / 16)) (String (hex_digit (n mod 16)) (encode r)))
  end.

Definition toString (q : t) : string :=
  join "&" (map (fun nv => encode (fst nv) ++ "=" ++ encode (snd nv)) q).

End URLSearchParams.

(** A string is truthy when it is not empty. *)
Definition truthy_string (s : string) : bool :=
  match s with
  | EmptyString => false
  | _ => true
  end.

(** ** The schema library

    The fragment of zod 3 the SDK uses.  An object schema reads the
    declared keys only and drops the others (the default, "strip"); a
    failed parse reports one issue per violated constraint.  [describe]
    only attaches documentation and is left out. *)

Inductive StringCheck : Type :=
| CheckUuid.

Inductive NumberCheck : Type :=
| CheckInt
| CheckPositive
| CheckNonnegative
| CheckRefine (pred : JsNumber -> bool) (message : string).

Unset Elimination Schemes.
Inductive Schema : Type :=
| ZodString (checks : list StringCheck)
| ZodNumber (checks : list NumberCheck)
| ZodBoolean
| ZodEnum (values : list string)
| ZodArray (element : Schema)
| ZodRecord (valueType : Schema)
| ZodObject (shape : list (string * Schema))
| ZodOptional (inner : Schema)
| ZodNullable (inner : Schema).
Set Elimination Schemes.

Definition Schema_ind'
  (P : Schema -> Prop)
  (Hs : forall cs, P (ZodString cs)) (Hn : forall cs, P (ZodNumber cs))
  (Hb : P ZodBoolean) (He : forall vs, P (ZodEnum vs))
  (Ha : forall s, P s -> P (ZodArray s))
  (Hr : forall s, P s -> P (ZodRecord s))
  (Ho : forall sh, Forall (fun ks => P (snd ks)) sh -> P (ZodObject sh))
  (Hopt : forall s, P s -> P (ZodOptional s))
  (Hnul : forall s, P s -> P (ZodNullable s)) :
  forall s, P s :=
  fix F (s : Schema) : P s :=
    match s with
    | ZodString cs => Hs cs
    | ZodNumber cs => Hn cs
    | ZodBoolean => Hb
    | ZodEnum vs => He vs
    | ZodArray e => Ha e (F e)
    | ZodRecord e => Hr e (F e)
    | ZodObject sh =>
        Ho sh ((fix G (sh : list (string * Schema)) :
                  Forall (fun ks => P (snd ks)) sh :=
                  match sh with
                  | [] => Forall_nil _
                  | ks :: r => Forall_cons ks (F (snd ks)) (G r)
                  end) sh)
    | ZodOptional e => Hopt e (F e)
    | ZodNullable e => Hnul e (F e)
    end.

Inductive PathElem : Type :=
| Key (k : string)
| Index (i : nat).

Inductive IssueCode : Type :=
| invalid_type
| invalid_string
| too_small
| invalid_enum_value
| custom.

Record ZodIssue : Type := mkIssue {
  code : IssueCode;
  issuePath : list PathElem;
  message : string
}.

Inductive ParseResult (A : Type) : Type :=
| OK (value : A)
| INVALID (issues : list ZodIssue).
Arguments OK {A} value.
Arguments INVALID {A} issues.

Definition ParseReturn : Type := ParseResult JsValue.

Definition is_hex (c : ascii) : bool :=
  let n := nat_of_ascii c in
  (((48 <=? n) && (n <=? 57)) || ((65 <=? n) && (n <=? 70))
   || ((97 <=? n) && (n <=? 102)))%nat.

(** Reads exactly [n] hexadecimal digits. *)
Fixpoint hex_run (n : nat) (s : string) : option string :=
  match n with
  | O => Some s
  | S m =>
      match s with
      | String c r => if is_hex c then hex_run m r else None
      | EmptyString => None
      end
  end.

Definition dash_then (n : nat) (s : option string) : option string :=
  match s with
  | Some (String "-"%char r) => hex_run n r
  | _ => None
  end.

(** The library's pattern for [.uuid()]: five groups of 8, 4, 4, 4 and
    12 hexadecimal digits, of either case, separated by dashes. *)
Definition uuidRegex (s : string) : bool :=
  match hex_run 8 s |> dash_then 4 |> dash_then 4 |> dash_then 4
        |> dash_then 12 with
  | Some EmptyString => true
  | _ => false
  end.

Definition starts_with_minus (s : string) : bool :=
  match s with
  | String "-"%char _ => true
  | _ => false
  end.

(** [n > 0] and [n >= 0] on numbers. *)
Definition Number_gt0 (n : JsNumber) : bool :=
  match n with
  | NumInt z => (0 <? z)%Z
  | NumFrac text | NumBig text => negb (starts_with_minus text)
  | NumInf negative => negb negative
  | NumNaN => false
  end.

Definition Number_ge0 (n : JsNumber) : bool :=
  match n with
  | NumInt z => (0 <=? z)%Z
  | NumFrac text | NumBig text => negb (starts_with_minus text)
  | NumInf negative => negb negative
  | NumNaN => false
  end.

Definition Number_isInteger (n : JsNumber) : bool :=
  match n with
  | NumInt _ | NumBig _ => true
  | _ => false
  end.

(** The library's name for the run-time type of a value. *)
Definition getParsedType (v : JsValue) : string :=
  match v with
  | JUndefined => "undefined"
  | JNull => "null"
  | JBool _ => "boolean"
  | JNum NumNaN => "nan"
  | JNum _ => "number"
  | JStr _ => "string"
  | JArr _ => "array"
  | JObj _ => "object"
  end.

Definition typeIssue (expected : string) (p : list PathElem) (v : JsValue)
  : ZodIssue :=
  mkIssue invalid_type p
    (match v with
     | JUndefined => "Required"
     | _ => "Expected " ++ expected ++ ", received " ++ getParsedType v
     end).

Definition stringCheck (p : list PathElem) (x : string) (c : StringCheck)
  : list ZodIssue :=
  match c with
  | CheckUuid =>
      if uuidRegex x then [] else [mkIssue invalid_string p "Invalid uuid"]
  end.

Definition numberCheck (p : list PathElem) (n : JsNumber) (c : NumberCheck)
  : list ZodIssue :=
  match c with
  | CheckInt =>
      if Number_isInteger n then []
      else [mkIssue invalid_type p "Expected integer, received float"]
  | CheckPositive =>
      if Number_gt0 n then []
      else [mkIssue too_small p "Number must be greater than 0"]
  | CheckNonnegative =>
      if Number_ge0 n then []
      else [mkIssue too_small p "Number must be greater than or equal to 0"]
  | CheckRefine pred msg =>
      if pred n then [] else [mkIssue custom p msg]
  end.

(** A value stands when none of the checks raised an issue. *)
Definition checked (v : JsValue) (issues : list ZodIssue) : ParseReturn :=
  match issues with
  | [] => OK v
  | _ :: _ => INVALID issues
  end.

Definition quoted (vs : list string) : string :=
  join " | " (map (fun v => "'" ++ v ++ "'") vs).

(** Assembles the parsed properties of an object; a property is written
    when its parsed value is defined or its key was in the input. *)
Fixpoint mergeObjectSync (pairs : list (string * ParseReturn * bool))
  : ParseResult Obj :=
  match pairs with
  | [] => OK []
  | (k, r, alwaysSet) :: rest =>
      match r, mergeObjectSync rest with
      | OK v, OK o =>
          if negb (String.eqb k "__proto__")
             && (negb (match v with JUndefined => true | _ => false end)
                 || alwaysSet)
          then OK ((k, v) :: o)
          else OK o
      | OK _, INVALID js => INVALID js
      | INVALID es, OK _ => INVALID es
      | INVALID es, INVALID js => INVALID (es ++ js)%list
      end
  end.

Fixpoint mergeArray (results : list ParseReturn) : ParseResult (list JsValue) :=
  match results with
  | [] => OK []
  | r :: rest =>
      match r, mergeArray rest with
      | OK v, OK l => OK (v :: l)
      | OK _, INVALID js => INVALID js
      | INVALID es, OK _ => INVALID es
      | INVALID es, INVALID js => INVALID (es ++ js)%list
      end
  end.

Fixpoint mapi {A B : Type} (f : nat -> A -> B) (i : nat) (l : list A) : list B :=
  match l with
  | [] => []
  | x :: r => f i x :: mapi f (S i) r
  end.

Fixpoint _parse (s : Schema) (p : list PathElem) (data : JsValue) {struct s}
  : ParseReturn :=
  match s with
  | ZodString checks =>
      match data with
      | JStr x => checked data (flat_map (stringCheck p x) checks)
      | _ => INVALID [typeIssue "string" p data]
      end
  | ZodNumber checks =>
      match data with
      | JNum NumNaN => INVALID [typeIssue "number" p data]
      | JNum n => checked data (flat_map (numberCheck p n) checks)
      | _ => INVALID [typeIssue "number" p data]
      end
  | ZodBoolean =>
      match data with
      | JBool _ => OK data
      | _ => INVALID [typeIssue "boolean" p data]
      end
  | ZodEnum values =>
      match data with
      | JStr x =>
          if existsb (String.eqb x) values then OK data
          else INVALID [mkIssue invalid_enum_value p
                          ("Invalid enum value. Expected " ++ quoted values
                           ++ ", received '" ++ x ++ "'")]
      | _ => INVALID [typeIssue (quoted values) p data]
      end
  | ZodArray element =>
      match data with
      | JArr l =>
          match mergeArray
                  (mapi (fun i x => _parse element (p ++ [Index i])%list x) 0 l)
          with
          | OK l' => OK (JArr l')
          | INVALID es => INVALID es
          end
      | _ => INVALID [typeIssue "array" p data]
      end
  | ZodRecord valueType =>
      match data with
      | JObj o =>
          match mergeObjectSync
                  (map (fun kv =>
                          (fst kv,
                           _parse valueType (p ++ [Key (fst kv)])%list (snd kv),
                           true)) o)
          with
          | OK o' => OK (JObj o')
          | INVALID es => INVALID es
          end
      | _ => INVALID [typeIssue "object" p data]
      end
  | ZodObject shape =>
      match data with
      | JObj o =>
          match mergeObjectSync
                  (map (fun ks =>
                          (fst ks,
                           _parse (snd ks) (p ++ [Key (fst ks)])%list
                             (get o (fst ks)),
                           has_key (fst ks) o)) shape)
          with
          | OK o' => OK (JObj o')
          | INVALID es => INVALID es
          end
      | _ => INVALID [typeIssue "object" p data]
      end
  | ZodOptional inner =>
      match data with
      | JUndefined => OK JUndefined
      | _ => _parse inner p data
      end
  | ZodNullable inner =>
      match data with
      | JNull => OK JNull
      | _ => _parse inner p data
      end
  end.

(** [schema.parse(data)]: the parsed value, or the issues a [ZodError]
    carries. *)
Definition parse (s : Schema) (data : JsValue) : ParseReturn := _parse s [] data.

(** The schema constructors and methods, named as the library names them. *)
Module z.

Definition object (shape : list (string * Schema)) : Schema := ZodObject shape.
Definition number : Schema := ZodNumber [].
Definition boolean : Schema := ZodBoolean.
Definition enum (values : list String.string) : Schema := ZodEnum values.
Definition array (element : Schema) : Schema := ZodArray element.
Definition record (valueType : Schema) : Schema := ZodRecord valueType.
Definition string : Schema := ZodString [].

End z.

Definition uuid (s : Schema) : Schema :=
  match s with
  | ZodString cs => ZodString (cs ++ [CheckUuid])
  | _ => s
  end.

Definition addNumberCheck (c : NumberCheck) (s : Schema) : Schema :=
  match s with
  | ZodNumber cs => ZodNumber (cs ++ [c])
  | _ => s
  end.

Definition int : Schema -> Schema := addNumberCheck CheckInt.
Definition positive : Schema -> Schema := addNumberCheck CheckPositive.
Definition nonnegative : Schema -> Schema := addNumberCheck CheckNonnegative.
Definition refine (pred : JsNumber -> bool) (msg : string) : Schema -> Schema :=
  addNumberCheck (CheckRefine pred msg).
Definition optional (s : Schema) : Schema := ZodOptional s.
Definition nullable (s : Schema) : Schema := ZodNullable s.

(** [schema.omit({ k: true, ... })] *)
Definition omit (ks : list string) (s : Schema) : Schema :=
  match s with
  | ZodObject shape =>
      ZodObject
        (filter (fun kf => negb (existsb (String.eqb (fst kf)) ks)) shape)
  | _ => s
  end.

(** ** validation/wallet.ts *)

Definition accountBalanceDetailsSchema : Schema :=
  z.object
    [ ("type", z.number |> int
               |> refine (fun val => match val with
                                     | NumInt 0 => true
                                     | _ => false
                                     end) "Type must be 0 (EVM)");
      ("ticker", z.string);
      ("chainId", z.number |> int |> positive);
      ("tokenAddress", z.string);
      ("accountAddress", z.string);
      ("balance", z.string);
      ("decimals", z.number |> int |> nonnegative) ].

Definition walletSchema : Schema :=
  z.object
    [ ("id", z.string |> uuid);
      ("accountAddress", z.string);
      ("businessId", z.string |> uuid |> nullable);
      ("userId", z.string |> uuid |> nullable);
      ("chainId", z.number |> int |> positive);
      ("name", z.string);
      ("description", z.string);
      ("isAdmin", z.boolean);
      ("accountBalanceDetails", accountBalanceDetailsSchema |> nullable);
      ("erc7702ContractAddress", z.string |> nullable);
      ("updated", z.number);
      ("created", z.number) ].

Definition walletListSchema : Schema :=
  z.object
    [ ("response", z.array walletSchema);
      ("page", z.number |> int |> positive);
      ("pageSize", z.number |> int |> positive);
      ("totalResults", z.number |> int |> nonnegative) ].

Definition walletUpdateSchema : Schema :=
  z.object
    [ ("name", z.string |> optional |> nullable);
      ("description", z.string |> optional |> nullable) ].

Definition walletCreateSchema : Schema :=
  z.object
    [ ("chainId", z.number |> int |> positive);
      ("name", z.string);
      ("description", z.string |> optional |> nullable) ].

Definition listWalletsSchema : Schema :=
  z.object
    [ ("businessId", z.string |> uuid);
      ("chainId", z.number |> int |> positive |> optional |> nullable);
      ("pageSize", z.number |> int |> positive |> optional |> nullable);
      ("page", z.number |> int |> positive |> optional |> nullable);
      ("name", z.string |> optional |> nullable) ].

Definition createWalletSchema : Schema :=
  z.object
    [ ("businessId", z.string |> uuid);
      ("chainId", z.number |> int |> positive);
      ("name", z.string);
      ("description", z.string |> optional |> nullable) ].

Definition getWalletSchema : Schema :=
  z.object
    [ ("walletId", z.string |> uuid);
      ("includeBalances", z.boolean |> optional |> nullable) ].

Definition updateWalletSchema : Schema :=
  z.object
    [ ("walletId", z.string |> uuid);
      ("name", z.string |> optional |> nullable);
      ("description", z.string |> optional |> nullable) ].

Definition deleteWalletSchema : Schema :=
  z.object [ ("walletId", z.string |> uuid) ].

Definition transferWalletSchema : Schema :=
  z.object
    [ ("walletId", z.string |> uuid);
      ("destinationAccountAddress", z.string);
      ("transferAmount", z.string |> optional |> nullable);
      ("memo", z.string |> optional) ].

Definition delegationSchema : Schema :=
  z.object
    [ ("id", z.string |> uuid);
      ("businessId", z.string |> uuid);
      ("escrowWalletId", z.string |> uuid);
      ("delegatorAddress", z.string);
      ("startTime", z.number |> nullable);
      ("endTime", z.number |> nullable);
      ("contractAddresses", z.array z.string |> optional |> nullable);
      ("methods", z.array z.string |> optional |> nullable);
      ("delegationData", z.string);
      ("updated", z.number);
      ("created", z.number) ].

Definition delegationListSchema : Schema :=
  z.object
    [ ("response", z.array delegationSchema);
      ("page", z.number |> int |> positive);
      ("pageSize", z.number |> int |> positive);
      ("totalResults", z.number |> int |> nonnegative) ].

Definition listDelegationsSchema : Schema :=
  z.object
    [ ("walletId", z.string |> uuid);
      ("pageSize", z.number |> int |> positive |> optional |> nullable);
      ("page", z.number |> int |> positive |> optional |> nullable) ].

Definition createDelegationSchema : Schema :=
  z.object
    [ ("walletId", z.string |> uuid);
      ("startTime", z.number |> optional |> nullable);
      ("endTime", z.number |> optional |> nullable);
      ("contractAddresses", z.array z.string |> optional |> nullable);
      ("methods", z.array z.string |> optional |> nullable);
      ("delegationData", z.string) ].

Definition deleteDelegationSchema : Schema :=
  z.object [ ("delegationId", z.string |> uuid) ].

Definition getSignatureSchema : Schema :=
  z.object
    [ ("walletId", z.string |> uuid);
      ("type", z.enum ["erc3009"; "permit2"]);
      ("contractAddress", z.string);
      ("destinationAddress", z.string);
      ("amount", z.string |> optional |> nullable);
      ("validUntil", z.number |> optional |> nullable);
      ("validAfter", z.number |> optional |> nullable);
      ("fromAddress", z.string |> optional |> nullable) ].

Definition signatureResponseSchema : Schema :=
  z.object [ ("signature", z.string); ("data", z.string) ].

(** ** validation/contractEvent.ts *)

Definition topicSchema : Schema :=
  z.object [ ("name", z.string); ("indexed", z.boolean) ].

Definition contractEventLogSchema : Schema :=
  z.object
    [ ("eventName", z.string);
      ("blockNumber", z.number |> int);
      ("transactionHash", z.string);
      ("logIndex", z.number |> int);
      ("removed", z.boolean);
      ("topics", z.record z.string) ].

Definition contractEventSchema : Schema :=
  z.object
    [ ("id", z.string |> uuid);
      ("businessId", z.string |> uuid);
      ("chainId", z.number |> int);
      ("contractAddress", z.string);
      ("name", z.string);
      ("description", z.string);
      ("eventName", z.string);
      ("topicHash", z.string);
      ("topics", z.array topicSchema);
      ("updated", z.number |> int);
      ("created", z.number |> int) ].

Definition contractEventListSchema : Schema :=
  z.object
    [ ("response", z.array contractEventSchema);
      ("page", z.number |> int |> positive);
      ("pageSize", z.number |> int |> positive);
      ("totalResults", z.number |> int |> nonnegative) ].

Definition createContractEventSchema : Schema :=
  z.object
    [ ("businessId", z.string |> uuid);
      ("chainId", z.number |> int);
      ("contractAddress", z.string);
      ("name", z.string);
      ("description", z.string);
      ("eventName", z.string) ].

Definition listContractEventsSchema : Schema :=
  z.object
    [ ("businessId", z.string |> uuid);
      ("pageSize", z.number |> int |> positive |> optional |> nullable);
      ("page", z.number |> int |> positive |> optional |> nullable);
      ("chainId", z.number |> int |> optional |> nullable);
      ("name", z.string |> optional |> nullable);
      ("status", z.enum ["active"; "deleted"; "all"] |> optional |> nullable);
      ("contractAddress", z.string |> optional |> nullable);
      ("eventName", z.string |> optional |> nullable) ].

Definition getContractEventSchema : Schema :=
  z.object [ ("contractEventId", z.string |> uuid) ].

Definition updateContractEventSchema : Schema :=
  z.object
    [ ("name", z.string |> optional);
      ("description", z.string |> optional) ].

Definition deleteContractEventSchema : Schema :=
  z.object [ ("contractEventId", z.string |> uuid) ].

Definition searchContractEventLogsSchema : Schema :=
  z.object
    [ ("startBlock", z.number |> int |> optional |> nullable);
      ("endBlock", z.number |> int |> optional |> nullable);
      ("topics", z.record z.string |> optional |> nullable) ].

Definition contractEventSearchResultSchema : Schema :=
  z.object
    [ ("logs", z.array contractEventLogSchema);
      ("error", z.string |> optional |> nullable);
      ("maxResults", z.number |> int |> optional |> nullable);
      ("startBlock", z.number |> int |> optional |> nullable);
      ("endBlock", z.number |> int |> optional |> nullable) ].

(** ** The transport and the client monad *)

Inductive Method : Type := GET | POST | PUT | DELETE.

(** One call of [client.request(method, path, body)]; a call without a
    body has [body = JUndefined]. *)
Record Request : Type := mkRequest {
  method : Method;
  path : string;
  body : JsValue
}.

(** What the promise [client.request] returns settles to. *)
Inductive Response : Type :=
| Resolved (value : JsValue)
| Rejected (reason : JsValue).

(** How a method of a resource client ends: it returns, throws the
    [ZodError] of a failed [parse], rethrows what the transport threw, or
    throws the [TypeError] of a method call that cannot be made. *)
Inductive Outcome (A : Type) : Type :=
| Return (a : A)
| ThrowZodError (issues : list ZodIssue)
| ThrowTransport (reason : JsValue)
| ThrowTypeError.
Arguments Return {A} a.
Arguments ThrowZodError {A} issues.
Arguments ThrowTransport {A} reason.
Arguments ThrowTypeError {A}.

(** A computation threads the log of the requests made so far. *)
Definition Client (A : Type) : Type := list Request -> Outcome A * list Request.

Definition ret {A : Type} (a : A) : Client A := fun log => (Return a, log).

Definition bind {A B : Type} (m : Client A) (k : A -> Client B) : Client B :=
  fun log =>
    match m log with
    | (Return a, log') => k a log'
    | (ThrowZodError e, log') => (ThrowZodError e, log')
    | (ThrowTransport e, log') => (ThrowTransport e, log')
    | (ThrowTypeError, log') => (ThrowTypeError, log')
    end.

Notation "x <- m ;; k" := (bind m (fun x => k))
  (at level 61, m at next level, right associativity).

(** [schema.parse(data)] inside a method: a failure throws. *)
Definition parse_or_throw (s : Schema) (data : JsValue) : Client JsValue :=
  fun log =>
    match parse s data with
    | OK v => (Return v, log)
    | INVALID issues => (ThrowZodError issues, log)
    end.

(** Reading a property of a value that came out of [parse]. *)
Definition prop (v : JsValue) (k : string) : JsValue :=
  match v with
  | JObj o => get o k
  | _ => JUndefined
  end.

(** The injected transport, [IOneShotClient]: its [request] method. *)
Definition IOneShotClient : Type := Request -> Response.

(** [await this.client.request(method, path, body)]: the call is logged,
    and a rejection is rethrown as it is. *)
Definition request (client : IOneShotClient) (m : Method) (p : string)
  (b : JsValue) : Client JsValue :=
  fun log =>
    let r := mkRequest m p b in
    match client r with
    | Resolved v => (Return v, (log ++ [r])%list)
    | Rejected e => (ThrowTransport e, (log ++ [r])%list)
    end.

(** The loop
    [Object.entries(params).forEach(([key, value]) => {
       if (value != undefined) queryParams.append(key, value.toString()) })],
    which ends at the first [value.toString()] that throws. *)
Fixpoint appendEntries (params : Obj) (queryParams : URLSearchParams.t)
  : Client URLSearchParams.t :=
  match params with
  | [] => ret queryParams
  | (key, value) :: rest =>
      if negb (nullish value)
      then match toStringMethod value with
           | Some text =>
               appendEntries rest (URLSearchParams.append queryParams key text)
           | None => fun log => (ThrowTypeError, log)
           end
      else appendEntries rest queryParams
  end.

(** [if (v !== undefined && v !== null) queryParams.append(name, text)] *)
Definition appendIfPresent (name : string) (v : JsValue)
  (queryParams : URLSearchParams.t) : URLSearchParams.t :=
  if negb (nullish v)
  then URLSearchParams.append queryParams name (ToString v)
  else queryParams.

(** ** The Wallets client *)

Module Wallets.
Section WithClient.
Variable client : IOneShotClient.

Definition list (businessId : string) (params : option Obj) : Client JsValue :=
  validatedParams <-
    parse_or_throw listWalletsSchema
      (JObj (spread_opt [("businessId", JStr businessId)] params)) ;;
  queryParams <-
    match params with
    | Some p => appendEntries p URLSearchParams.empty
    | None => ret URLSearchParams.empty
    end ;;
  let queryString := URLSearchParams.toString queryParams in
  let path :=
    if truthy_string queryString
    then "/business/" ++ ToString (prop validatedParams "businessId")
         ++ "/wallets?" ++ queryString
    else "/business/" ++ ToString (prop validatedParams "businessId")
         ++ "/wallets" in
  response <- request client GET path JUndefined ;;
  parse_or_throw walletListSchema response.

Definition create (businessId : string) (params : Obj) : Client JsValue :=
  validatedParams <-
    parse_or_throw createWalletSchema
      (JObj (spread [("businessId", JStr businessId)] params)) ;;
  response <-
    request client POST
      ("/business/" ++ ToString (prop validatedParams "businessId") ++ "/wallets")
      (JObj [ ("chainId", prop validatedParams "chainId");
              ("name", prop validatedParams "name");
              ("description", prop validatedParams "description") ]) ;;
  parse_or_throw walletSchema response.

Definition get (walletId : string) (includeBalances : JsValue)
  : Client JsValue :=
  validatedParams <-
    parse_or_throw getWalletSchema
      (JObj [ ("walletId", JStr walletId);
              ("includeBalances", includeBalances) ]) ;;
  let queryParams :=
    appendIfPresent "includeBalances" (prop validatedParams "includeBalances")
      URLSearchParams.empty in
  let queryString := URLSearchParams.toString queryParams in
  let path :=
    if truthy_string queryString
    then "/wallets/" ++ ToString (prop validatedParams "walletId")
         ++ "?" ++ queryString
    else "/wallets/" ++ ToString (prop validatedParams "walletId") in
  response <- request client GET path JUndefined ;;
  parse_or_throw walletSchema response.

Definition update (walletId : string) (params : Obj) : Client JsValue :=
  validatedParams <-
    parse_or_throw updateWalletSchema
      (JObj (spread [("walletId", JStr walletId)] params)) ;;
  response <-
    request client PUT
      ("/wallets/" ++ ToString (prop validatedParams "walletId"))
      (JObj [ ("name", prop validatedParams "name");
              ("description", prop validatedParams "description") ]) ;;
  parse_or_throw walletSchema response.

Definition delete (walletId : string) : Client JsValue :=
  validatedParams <-
    parse_or_throw deleteWalletSchema (JObj [("walletId", JStr walletId)]) ;;
  request client DELETE
    ("/wallets/" ++ ToString (prop validatedParams "walletId")) JUndefined.

Definition transfer (walletId : string) (params : Obj) : Client JsValue :=
  validatedParams <-
    parse_or_throw transferWalletSchema
      (JObj (spread [("walletId", JStr walletId)] params)) ;;
  response <-
    request client POST
      ("/wallets/" ++ ToString (prop validatedParams "walletId") ++ "/transfer")
      (JObj [ ("destinationAccountAddress",
               prop validatedParams "destinationAccountAddress");
              ("transferAmount", prop validatedParams "transferAmount");
              ("memo", prop validatedParams "memo") ]) ;;
  ret response.

Definition listDelegations (walletId : string) (params : option Obj)
  : Client JsValue :=
  validatedParams <-
    parse_or_throw listDelegationsSchema
      (JObj (spread_opt [("walletId", JStr walletId)] params)) ;;
  queryParams <-
    match params with
    | Some p => appendEntries p URLSearchParams.empty
    | None => ret URLSearchParams.empty
    end ;;
  let queryString := URLSearchParams.toString queryParams in
  let path :=
    if truthy_string queryString
    then "/wallets/" ++ ToString (prop validatedParams "walletId")
         ++ "/delegations?" ++ queryString
    else "/wallets/" ++ ToString (prop validatedParams "walletId")
         ++ "/delegations" in
  response <- request client GET path JUndefined ;;
  parse_or_throw delegationListSchema response.

Definition createDelegation (walletId : string) (params : Obj)
  : Client JsValue :=
  validatedParams <-
    parse_or_throw createDelegationSchema
      (JObj (spread [("walletId", JStr walletId)] params)) ;;
  response <-
    request client POST
      ("/wallets/" ++ ToString (prop validatedParams "walletId")
       ++ "/delegations")
      (JObj [ ("startTime", prop validatedParams "startTime");
              ("endTime", prop validatedParams "endTime");
              ("contractAddresses", prop validatedParams "contractAddresses");
              ("methods", prop validatedParams "methods");
              ("delegationData", prop validatedParams "delegationData") ]) ;;
  parse_or_throw delegationSchema response.

Definition deleteDelegation (delegationId : string) : Client JsValue :=
  validatedParams <-
    parse_or_throw deleteDelegationSchema
      (JObj [("delegationId", JStr delegationId)]) ;;
  request client DELETE
    ("/delegation/" ++ ToString (prop validatedParams "delegationId"))
    JUndefined.

Definition getSignature (walletId : string) (type : string) (params : Obj)
  : Client JsValue :=
  validatedParams <-
    parse_or_throw getSignatureSchema
      (JObj (spread [("walletId", JStr walletId); ("type", JStr type)] params)) ;;
  let queryParams :=
    URLSearchParams.append URLSearchParams.empty "contractAddress"
      (ToString (prop validatedParams "contractAddress")) in
  let queryParams :=
    URLSearchParams.append queryParams "destinationAddress"
      (ToString (prop validatedParams "destinationAddress")) in
  let queryParams :=
    appendIfPresent "amount" (prop validatedParams "amount") queryParams in
  let queryParams :=
    appendIfPresent "validUntil" (prop validatedParams "validUntil")
      queryParams in
  let queryParams :=
    appendIfPresent "validAfter" (prop validatedParams "validAfter")
      queryParams in
  let queryParams :=
    appendIfPresent "fromAddress" (prop validatedParams "fromAddress")
      queryParams in
  let queryString := URLSearchParams.toString queryParams in
  let path :=
    "/wallets/" ++ ToString (prop validatedParams "walletId") ++ "/signature/"
    ++ ToString (prop validatedParams "type") ++ "?" ++ queryString in
  response <- request client GET path JUndefined ;;
  parse_or_throw signatureResponseSchema response.

End WithClient.
End Wallets.

(** ** The ContractEvents client *)

Module ContractEvents.
Section WithClient.
Variable client : IOneShotClient.

Definition create (businessId : string) (params : Obj) : Client JsValue :=
  validatedParams <-
    parse_or_throw createContractEventSchema
      (JObj (spread [("businessId", JStr businessId)] params)) ;;
  response <-
    request client POST
      ("/business/" ++ ToString (prop validatedParams "businessId") ++ "/events")
      validatedParams ;;
  parse_or_throw contractEventSchema response.

Definition list (businessId : string) (params : option Obj) : Client JsValue :=
  validatedParams <-
    parse_or_throw listContractEventsSchema
      (JObj (spread_opt [("businessId", JStr businessId)] params)) ;;
  let queryParams := URLSearchParams.empty in
  let queryParams :=
    appendIfPresent "pageSize" (prop validatedParams "pageSize") queryParams in
  let queryParams :=
    appendIfPresent "page" (prop validatedParams "page") queryParams in
  let queryParams :=
    appendIfPresent "chainId" (prop validatedParams "chainId") queryParams in
  let queryParams :=
    appendIfPresent "name" (prop validatedParams "name") queryParams in
  let queryParams :=
    appendIfPresent "status" (prop validatedParams "status") queryParams in
  let queryParams :=
    appendIfPresent "contractAddress" (prop validatedParams "contractAddress")
      queryParams in
  let queryParams :=
    appendIfPresent "eventName" (prop validatedParams "eventName")
      queryParams in
  let queryString := URLSearchParams.toString queryParams in
  let path :=
    if truthy_string queryString
    then "/business/" ++ ToString (prop validatedParams "businessId")
         ++ "/events?" ++ queryString
    else "/business/" ++ ToString (prop validatedParams "businessId")
         ++ "/events" in
  response <- request client GET path JUndefined ;;
  parse_or_throw contractEventListSchema response.

Definition get (contractEventId : string) : Client JsValue :=
  validatedParams <-
    parse_or_throw getContractEventSchema
      (JObj [("contractEventId", JStr contractEventId)]) ;;
  response <-
    request client GET
      ("/events/" ++ ToString (prop validatedParams "contractEventId"))
      JUndefined ;;
  parse_or_throw contractEventSchema response.

Definition update (contractEventId : string) (params : Obj) : Client JsValue :=
  validatedParams <- parse_or_throw updateContractEventSchema (JObj params) ;;
  response <-
    request client PUT ("/events/" ++ contractEventId) validatedParams ;;
  parse_or_throw contractEventSchema response.

Definition delete (contractEventId : string) : Client JsValue :=
  validatedParams <-
    parse_or_throw deleteContractEventSchema
      (JObj [("contractEventId", JStr contractEventId)]) ;;
  response <-
    request client DELETE
      ("/events/" ++ ToString (prop validatedParams "contractEventId"))
      JUndefined ;;
  ret response.

(** [params || {}]: an object is truthy, [undefined] is not. *)
Definition searchLogs (contractEventId : string) (params : option Obj)
  : Client JsValue :=
  validatedParams <-
    parse_or_throw searchContractEventLogsSchema
      (JObj (match params with
             | Some p => p
             | None => []
             end)) ;;
  response <-
    request client POST ("/events/" ++ contractEventId ++ "/search")
      validatedParams ;;
  parse_or_throw contractEventSearchResultSchema response.

End WithClient.
End ContractEvents.

(** ** The operations of the two clients, as one type *)

Inductive Operation : Type :=
| Wallets_list (businessId : string) (params : option Obj)
| Wallets_create (businessId : string) (params : Obj)
| Wallets_get (walletId : string) (includeBalances : JsValue)
| Wallets_update (walletId : string) (params : Obj)
| Wallets_delete (walletId : string)
| Wallets_transfer (walletId : string) (params : Obj)
| Wallets_listDelegations (walletId : string) (params : option Obj)
| Wallets_createDelegation (walletId : string) (params : Obj)
| Wallets_deleteDelegation (delegationId : string)
| Wallets_getSignature (walletId : string) (type : string) (params : Obj)
| ContractEvents_create (businessId : string) (params : Obj)
| ContractEvents_list (businessId : string) (params : option Obj)
| ContractEvents_get (contractEventId : string)
| ContractEvents_update (contractEventId : string) (params : Obj)
| ContractEvents_delete (contractEventId : string)
| ContractEvents_searchLogs (contractEventId : string) (params : option Obj).

Definition run (client : IOneShotClient) (op : Operation) : Client JsValue :=
  match op with
  | Wallets_list b p => Wallets.list client b p
  | Wallets_create b p => Wallets.create client b p
  | Wallets_get w i => Wallets.get client w i
  | Wallets_update w p => Wallets.update client w p
  | Wallets_delete w => Wallets.delete client w
  | Wallets_transfer w p => Wallets.transfer client w p
  | Wallets_listDelegations w p => Wallets.listDelegations client w p
  | Wallets_createDelegation w p => Wallets.createDelegation client w p
  | Wallets_deleteDelegation d => Wallets.deleteDelegation client d
  | Wallets_getSignature w t p => Wallets.getSignature client w t p
  | ContractEvents_create b p => ContractEvents.create client b p
  | ContractEvents_list b p => ContractEvents.list client b p
  | ContractEvents_get c => ContractEvents.get client c
  | ContractEvents_update c p => ContractEvents.update client c p
  | ContractEvents_delete c => ContractEvents.delete client c
  | ContractEvents_searchLogs c p => ContractEvents.searchLogs client c p
  end.

(** A method called on a fresh log: how it ends, and the requests made. *)
Definition outcome {A : Type} (c : Client A) : Outcome A := fst (c []).
Definition calls {A : Type} (c : Client A) : list Request := snd (c []).

(** The entity identifier an operation takes as its first argument. *)
Definition entityId (op : Operation) : string :=
  match op with
  | Wallets_list b _ | Wallets_create b _
  | ContractEvents_create b _ | ContractEvents_list b _ => b
  | Wallets_get w _ | Wallets_update w _ | Wallets_delete w
  | Wallets_transfer w _ | Wallets_listDelegations w _
  | Wallets_createDelegation w _ | Wallets_getSignature w _ _ => w
  | Wallets_deleteDelegation d => d
  | ContractEvents_get c | ContractEvents_update c _
  | ContractEvents_delete c | ContractEvents_searchLogs c _ => c
  end.

(** The name of that identifier. *)
Definition idKey (op : Operation) : string :=
  match op with
  | Wallets_list _ _ | Wallets_create _ _
  | ContractEvents_create _ _ | ContractEvents_list _ _ => "businessId"
  | Wallets_get _ _ | Wallets_update _ _ | Wallets_delete _
  | Wallets_transfer _ _ | Wallets_listDelegations _ _
  | Wallets_createDelegation _ _ | Wallets_getSignature _ _ _ => "walletId"
  | Wallets_deleteDelegation _ => "delegationId"
  | ContractEvents_get _ | ContractEvents_update _ _
  | ContractEvents_delete _ | ContractEvents_searchLogs _ _ => "contractEventId"
  end.

(** The options object the caller passes next to the identifier, empty
    when the operation takes none or it is left out. *)
Definition options (op : Operation) : Obj :=
  match op with
  | Wallets_list _ (Some p) | Wallets_listDelegations _ (Some p)
  | ContractEvents_list _ (Some p) | ContractEvents_searchLogs _ (Some p)
  | Wallets_create _ p | Wallets_update _ p | Wallets_transfer _ p
  | Wallets_createDelegation _ p | Wallets_getSignature _ _ p
  | ContractEvents_create _ p | ContractEvents_update _ p => p
  | _ => []
  end.

(** The schema whose [parse] the method applies to the response; [None]
    where the method returns the response as the transport gave it. *)
Definition outputSchema (op : Operation) : option Schema :=
  match op with
  | Wallets_list _ _ => Some walletListSchema
  | Wallets_create _ _ | Wallets_get _ _ | Wallets_update _ _ =>
      Some walletSchema
  | Wallets_listDelegations _ _ => Some delegationListSchema
  | Wallets_createDelegation _ _ => Some delegationSchema
  | Wallets_getSignature _ _ _ => Some signatureResponseSchema
  | ContractEvents_create _ _ | ContractEvents_get _
  | ContractEvents_update _ _ => Some contractEventSchema
  | ContractEvents_list _ _ => Some contractEventListSchema
  | ContractEvents_searchLogs _ _ => Some contractEventSearchResultSchema
  | Wallets_delete _ | Wallets_deleteDelegation _ | Wallets_transfer _ _
  | ContractEvents_delete _ => None
  end.

(** Whether the method's input schema declares the identifier: all but
    [ContractEvents.update] and [ContractEvents.searchLogs], which parse
    the options alone and put the identifier into the path as given. *)
Definition validatesId (op : Operation) : bool :=
  match op with
  | ContractEvents_update _ _ | ContractEvents_searchLogs _ _ => false
  | _ => true
  end.

(** * Vocabulary of the properties *)

(** How a method ends once the transport has resolved to [raw]: through
    the output schema when the method has one, with [raw] itself when it
    has none. *)
Definition settle (outS : option Schema) (raw : JsValue) : Outcome JsValue :=
  match outS with
  | None => Return raw
  | Some s =>
      match parse s raw with
      | OK v => Return v
      | INVALID es => ThrowZodError es
      end
  end.

(** The issue the library raises for a malformed UUID at property [k]. *)
Definition invalidUuidAt (k : string) : ZodIssue :=
  mkIssue invalid_string [Key k] "Invalid uuid".

(** What it is for a call to be refused on its arguments: a [ZodError]
    that names the identifier, and an empty request log. *)
Definition rejectedLocally (client : IOneShotClient) (op : Operation) : Prop :=
  exists more,
    outcome (run client op) = ThrowZodError (invalidUuidAt (idKey op) :: more)
    /\ calls (run client op) = [].

(** The response of [op] goes through the schema [s]: whatever the
    method returns came out of [s.parse] applied to the response, and a
    response that [s] refuses makes the method throw the [ZodError]. *)
Definition validatedAgainst (client : IOneShotClient) (op : Operation)
  (s : Schema) : Prop :=
  (forall v, outcome (run client op) = Return v ->
             exists r raw, calls (run client op) = [r]
                           /\ client r = Resolved raw
                           /\ parse s raw = OK v)
  /\ (forall r raw es, calls (run client op) = [r] ->
                       client r = Resolved raw ->
                       parse s raw = INVALID es ->
                       outcome (run client op) = ThrowZodError es).

(** The response of [op] is returned as the transport gave it. *)
Definition passedThrough (client : IOneShotClient) (op : Operation) : Prop :=
  forall r raw, calls (run client op) = [r] ->
                client r = Resolved raw ->
                outcome (run client op) = Return raw.

(** Schemas without an object or record inside: strings, numbers,
    booleans, enums, and arrays, optionals and nullables of these. *)
Fixpoint plain (s : Schema) : bool :=
  match s with
  | ZodString _ | ZodNumber _ | ZodBoolean | ZodEnum _ => true
  | ZodArray e | ZodOptional e | ZodNullable e => plain e
  | ZodRecord _ | ZodObject _ => false
  end.

(** The schema a shape declares for a key. *)
Fixpoint fieldSchema (k : string) (shape : list (string * Schema))
  : option Schema :=
  match shape with
  | [] => None
  | (k', s) :: r => if String.eqb k k' then Some s else fieldSchema k r
  end.

(** No string occurs twice. *)
Fixpoint nodupb (l : list string) : bool :=
  match l with
  | [] => true
  | x :: r => negb (existsb (String.eqb x) r) && nodupb r
  end.

(** The optional parameters of [getSignature], in the order the method
    looks at them. *)
Definition signatureOptionals : list string :=
  ["amount"; "validUntil"; "validAfter"; "fromAddress"].

(** The query parameters [getSignature] is to send for [params]: the two
    addresses, then each optional parameter that has a value. *)
Definition signatureQuery (params : Obj) : URLSearchParams.t :=
  ([ ("contractAddress", ToString (get params "contractAddress"));
     ("destinationAddress", ToString (get params "destinationAddress")) ]
   ++ flat_map
        (fun k => if nullish (get params k) then []
                  else [(k, ToString (get params k))])
        signatureOptionals)%list.

(** Sample data for the examples. *)
Definition sampleUuid : string := "123e4567-e89b-12d3-a456-426614174000".

Definition nullClient : IOneShotClient := fun _ => Resolved JNull.

(** What a chain of guarded appends over the keys [ks] is to append. *)
Definition fieldsQuery (ks : list string) (params : Obj) : URLSearchParams.t :=
  flat_map
    (fun k => if nullish (get params k) then []
              else [(k, ToString (get params k))]) ks.

(** The filters of [ContractEvents.list], in the order the method looks
    at them. *)
Definition contractEventFilters : list string :=
  ["pageSize"; "page"; "chainId"; "name"; "status"; "contractAddress";
   "eventName"].

(** "?" and the query string, or nothing when there is no parameter. *)
Definition querySuffix (q : URLSearchParams.t) : string :=
  match q with
  | [] => ""
  | _ :: _ => "?" ++ URLSearchParams.toString q
  end.

(** The paginated list operations. *)
Definition isListOperation (op : Operation) : bool :=
  match op with
  | Wallets_list _ _ | Wallets_listDelegations _ _ | ContractEvents_list _ _ =>
      true
  | _ => false
  end.

(** The two list operations that build the query from the entries of the
    caller's object rather than from the validated fields. *)
Definition queriesRawEntries (op : Operation) : bool :=
  match op with
  | Wallets_list _ _ | Wallets_listDelegations _ _ => true
  | _ => false
  end.

(** Two optional values are both missing, or both there and related. *)
Inductive opt_rel {A : Type} (R : A -> A -> Prop) : option A -> option A -> Prop :=
| opt_none : opt_rel R None None
| opt_some (a b : A) : R a b -> opt_rel R (Some a) (Some b).

(** Deep equality of values: objects are equal when they have the same
    properties with equal values, in whatever order. *)
Unset Elimination Schemes.
Inductive js_equal : JsValue -> JsValue -> Prop :=
| eq_undefined : js_equal JUndefined JUndefined
| eq_null : js_equal JNull JNull
| eq_bool (b : bool) : js_equal (JBool b) (JBool b)
| eq_num (n : JsNumber) : js_equal (JNum n) (JNum n)
| eq_str (s : string) : js_equal (JStr s) (JStr s)
| eq_arr (l l' : list JsValue) :
    Forall2 js_equal l l' -> js_equal (JArr l) (JArr l')
| eq_obj (o o' : Obj) :
    NoDup (keys o) -> NoDup (keys o') ->
    (forall k, opt_rel js_equal (lookup k o) (lookup k o')) ->
    js_equal (JObj o) (JObj o').
Set Elimination Schemes.

(** The constraint a check puts on a string, on a number. *)
Definition stringHolds (x : string) (c : StringCheck) : bool :=
  match c with
  | CheckUuid => uuidRegex x
  end.

Definition numberHolds (n : JsNumber) (c : NumberCheck) : bool :=
  match c with
  | CheckInt => Number_isInteger n
  | CheckPositive => Number_gt0 n
  | CheckNonnegative => Number_ge0 n
  | CheckRefine pred _ => pred n
  end.

(** [Number.isNaN] *)
Definition isNaN (n : JsNumber) : bool :=
  match n with
  | NumNaN => true
  | _ => false
  end.

(** The declarative reading of a schema: [x] has the declared type and
    meets the declared constraints; an object has every declared field
    conforming (an optional one may be missing) and no other property. *)
Fixpoint conformsExactly (s : Schema) (x : JsValue) {struct s} : bool :=
  match s with
  | ZodString cs =>
      match x with
      | JStr t => forallb (stringHolds t) cs
      | _ => false
      end
  | ZodNumber cs =>
      match x with
      | JNum n => negb (isNaN n) && forallb (numberHolds n) cs
      | _ => false
      end
  | ZodBoolean =>
      match x with
      | JBool _ => true
      | _ => false
      end
  | ZodEnum vs =>
      match x with
      | JStr t => existsb (String.eqb t) vs
      | _ => false
      end
  | ZodArray e =>
      match x with
      | JArr l => forallb (conformsExactly e) l
      | _ => false
      end
  | ZodRecord e =>
      match x with
      | JObj o =>
          nodupb (keys o) && negb (existsb (String.eqb "__proto__") (keys o))
          && forallb (fun kv => conformsExactly e (snd kv)) o
      | _ => false
      end
  | ZodObject shape =>
      match x with
      | JObj o =>
          nodupb (keys o)
          && forallb (fun k => existsb (String.eqb k) (map fst shape)) (keys o)
          && forallb (fun ks => conformsExactly (snd ks) (get o (fst ks))) shape
      | _ => false
      end
  | ZodOptional e =>
      match x with
      | JUndefined => true
      | _ => conformsExactly e x
      end
  | ZodNullable e =>
      match x with
      | JNull => true
      | _ => conformsExactly e x
      end
  end.

(** Shapes as an object literal gives them: no key twice. *)
Fixpoint wfSchema (s : Schema) : bool :=
  match s with
  | ZodString _ | ZodNumber _ | ZodBoolean | ZodEnum _ => true
  | ZodArray e | ZodRecord e | ZodOptional e | ZodNullable e => wfSchema e
  | ZodObject shape =>
      nodupb (map fst shape)
      && negb (existsb (String.eqb "__proto__") (map fst shape))
      && forallb (fun ks => wfSchema (snd ks)) shape
  end.

(** A wallet as a server may send it, with its properties in another
    order than the schema declares them. *)
Definition sampleWallet : JsValue :=
  JObj [ ("name", JStr "Treasury");
         ("id", JStr sampleUuid);
         ("accountAddress", JStr "0x5FbDB2315678afecb367f032d93F642f64180aa3");
         ("businessId", JStr "00000000-0000-4000-8000-000000000001");
         ("userId", JNull);
         ("chainId", JNum (NumInt 11155111));
         ("description", JStr "");
         ("isAdmin", JBool false);
         ("accountBalanceDetails",
          JObj [ ("type", JNum (NumInt 0)); ("ticker", JStr "ETH");
                 ("chainId", JNum (NumInt 11155111)); ("tokenAddress", JStr "");
                 ("accountAddress",
                  JStr "0x5FbDB2315678afecb367f032d93F642f64180aa3");
                 ("balance", JStr "1000000000000000000");
                 ("decimals", JNum (NumInt 18)) ]);
         ("erc7702ContractAddress", JNull);
         ("updated", JNum (NumInt 1717171717));
         ("created", JNum (NumInt 1717171700)) ].

(** The caller's parameters that an operation copies into the body of
    its request. *)
Definition bodyFields (op : Operation) : list string :=
  match op with
  | Wallets_create _ _ => ["chainId"; "name"; "description"]
  | Wallets_update _ _ => ["name"; "description"]
  | Wallets_transfer _ _ =>
      ["destinationAccountAddress"; "transferAmount"; "memo"]
  | Wallets_createDelegation _ _ =>
      ["startTime"; "endTime"; "contractAddresses"; "methods"; "delegationData"]
  | ContractEvents_create _ _ =>
      ["chainId"; "contractAddress"; "name"; "description"; "eventName"]
  | ContractEvents_update _ _ => ["name"; "description"]
  | _ => []
  end.

(** Every object inside the value has no key twice, as a value read from
    JSON or written as an object literal has. *)
Fixpoint wfValue (v : JsValue) : bool :=
  match v with
  | JArr l => forallb wfValue l
  | JObj o => nodupb (keys o) && forallb (fun kv => wfValue (snd kv)) o
  | _ => true
  end.

(** The schemas the two validation modules export. *)
Definition declaredSchemas : list Schema :=
  [ accountBalanceDetailsSchema; walletSchema; walletListSchema;
    walletUpdateSchema; walletCreateSchema; listWalletsSchema;
    createWalletSchema; getWalletSchema; updateWalletSchema;
    deleteWalletSchema; transferWalletSchema; delegationSchema;
    delegationListSchema; listDelegationsSchema; createDelegationSchema;
    deleteDelegationSchema; getSignatureSchema; signatureResponseSchema;
    topicSchema; contractEventLogSchema; contractEventSchema;
    contractEventListSchema; createContractEventSchema;
    listContractEventsSchema; getContractEventSchema;
    updateContractEventSchema; deleteContractEventSchema;
    searchContractEventLogsSchema; contractEventSearchResultSchema ].

(** The schema a method parses its arguments with. *)
Definition inputSchema (op : Operation) : Schema :=
  match op with
  | Wallets_list _ _ => listWalletsSchema
  | Wallets_create _ _ => createWalletSchema
  | Wallets_get _ _ => getWalletSchema
  | Wallets_update _ _ => updateWalletSchema
  | Wallets_delete _ => deleteWalletSchema
  | Wallets_transfer _ _ => transferWalletSchema
  | Wallets_listDelegations _ _ => listDelegationsSchema
  | Wallets_createDelegation _ _ => createDelegationSchema
  | Wallets_deleteDelegation _ => deleteDelegationSchema
  | Wallets_getSignature _ _ _ => getSignatureSchema
  | ContractEvents_create _ _ => createContractEventSchema
  | ContractEvents_list _ _ => listContractEventsSchema
  | ContractEvents_get _ => getContractEventSchema
  | ContractEvents_update _ _ => updateContractEventSchema
  | ContractEvents_delete _ => deleteContractEventSchema
  | ContractEvents_searchLogs _ _ => searchContractEventLogsSchema
  end.

(** The properties of the object a method hands to that schema. *)
Definition candidate (op : Operation) : Obj :=
  match op with
  | Wallets_list b p => spread_opt [("businessId", JStr b)] p
  | Wallets_create b p => spread [("businessId", JStr b)] p
  | Wallets_get w i => [("walletId", JStr w); ("includeBalances", i)]
  | Wallets_update w p => spread [("walletId", JStr w)] p
  | Wallets_delete w => [("walletId", JStr w)]
  | Wallets_transfer w p => spread [("walletId", JStr w)] p
  | Wallets_listDelegations w p => spread_opt [("walletId", JStr w)] p
  | Wallets_createDelegation w p => spread [("walletId", JStr w)] p
  | Wallets_deleteDelegation d => [("delegationId", JStr d)]
  | Wallets_getSignature w t p =>
      spread [("walletId", JStr w); ("type", JStr t)] p
  | ContractEvents_create b p => spread [("businessId", JStr b)] p
  | ContractEvents_list b p => spread_opt [("businessId", JStr b)] p
  | ContractEvents_get c => [("contractEventId", JStr c)]
  | ContractEvents_update _ p => p
  | ContractEvents_delete c => [("contractEventId", JStr c)]
  | ContractEvents_searchLogs _ (Some p) => p
  | ContractEvents_searchLogs _ None => []
  end.

(** The fields an object schema declares. *)
Definition shapeOf (s : Schema) : list (string * Schema) :=
  match s with
  | ZodObject shape => shape
  | _ => []
  end.

(** [s] refuses [x]. *)
Definition rejects (s : Schema) (x : JsValue) : bool :=
  match parse s x with
  | OK _ => false
  | INVALID _ => true
  end.

(** The three methods that send the parsed arguments themselves as the
    body. *)
Definition sendsValidatedParams (op : Operation) : bool :=
  match op with
  | ContractEvents_create _ _ | ContractEvents_update _ _
  | ContractEvents_searchLogs _ _ => true
  | _ => false
  end.

(** The route of a method that has a body and takes its identifier from
    the merged arguments, for the identifier [id]. *)
Definition bodyRoute (op : Operation) (id : string) : string :=
  match op with
  | Wallets_create _ _ => "/business/" ++ id ++ "/wallets"
  | Wallets_update _ _ => "/wallets/" ++ id
  | Wallets_transfer _ _ => "/wallets/" ++ id ++ "/transfer"
  | Wallets_createDelegation _ _ => "/wallets/" ++ id ++ "/delegations"
  | ContractEvents_create _ _ => "/business/" ++ id ++ "/events"
  | _ => ""
  end.

(** The methods [bodyRoute] is about. *)
Definition mergesIdentifier (op : Operation) : bool :=
  match op with
  | Wallets_create _ _ | Wallets_update _ _ | Wallets_transfer _ _
  | Wallets_createDelegation _ _ | ContractEvents_create _ _ => true
  | _ => false
  end.

(** The body fields that a method's input schema declares optional but
    not nullable. *)
Definition optionalNotNullable (op : Operation) : list string :=
  match op with
  | Wallets_transfer _ _ => ["memo"]
  | ContractEvents_update _ _ => ["name"; "description"]
  | _ => []
  end.

(** The request of a method that takes an identifier and nothing else,
    [deleteDelegation] apart. *)
Definition idRequest (op : Operation) : option Request :=
  match op with
  | Wallets_delete w => Some (mkRequest DELETE ("/wallets/" ++ w) JUndefined)
  | ContractEvents_get c => Some (mkRequest GET ("/events/" ++ c) JUndefined)
  | ContractEvents_delete c =>
      Some (mkRequest DELETE ("/events/" ++ c) JUndefined)
  | _ => None
  end.

(** What the loop over [Object.entries(params)] is to append: every entry
    whose value is neither null nor undefined, in the order of the
    object, whatever its key, with the text of [value.toString()];
    [None] when one of these calls throws. *)
Fixpoint entriesQuery (params : Obj) : option URLSearchParams.t :=
  match params with
  | [] => Some []
  | (k, v) :: r =>
      if nullish v then entriesQuery r
      else match toStringMethod v, entriesQuery r with
           | Some text, Some q => Some ((k, text) :: q)
           | _, _ => None
           end
  end.

(** The route of a list operation for the identifier [id], followed by
    [suffix]. *)
Definition listRoute (op : Operation) (id suffix : string) : string :=
  match op with
  | Wallets_list _ _ => "/business/" ++ id ++ "/wallets" ++ suffix
  | Wallets_listDelegations _ _ => "/wallets/" ++ id ++ "/delegations" ++ suffix
  | ContractEvents_list _ _ => "/business/" ++ id ++ "/events" ++ suffix
  | _ => suffix
  end.

(** The route for the identifier given as first argument. *)
Definition listPath (op : Operation) (suffix : string) : string :=
  listRoute op (entityId op) suffix.

(** The query parameters a list operation is to send; [None] when
    building them throws. *)
Definition listQuery (op : Operation) : option URLSearchParams.t :=
  match op with
  | Wallets_list _ _ | Wallets_listDelegations _ _ => entriesQuery (options op)
  | ContractEvents_list _ _ =>
      Some (fieldsQuery contractEventFilters (options op))
  | _ => Some []
  end.

(** The input schema of the method accepts the object the method builds
    from its arguments. *)
Definition accepted (op : Operation) : bool :=
  negb (rejects (inputSchema op) (JObj (candidate op))).

(** The identifier as it stands in that object, after the options have
    been spread over it. *)
Definition mergedId (op : Operation) : JsValue :=
  get (candidate op) (idKey op).

(** Numbers are written in the one way [JsNumber] intends: [NumInt] for
    safe integers only. *)
Fixpoint wfNumbers (v : JsValue) : bool :=
  match v with
  | JNum (NumInt z) => safeInteger z
  | JArr l => forallb wfNumbers l
  | JObj o => forallb (fun kv => wfNumbers (snd kv)) o
  | _ => true
  end.

(** Every [value.toString()] the method is to call on the caller's own
    values can be made; only [Wallets.list] and [Wallets.listDelegations]
    call it on values that no schema has seen. *)
Definition printableEntries (op : Operation) : bool :=
  match op with
  | Wallets_list _ _ | Wallets_listDelegations _ _ =>
      match entriesQuery (options op) with
      | Some _ => true
      | None => false
      end
  | _ => true
  end.

(** * Properties *)

(** ** Objects *)

Lemma lookup_set_same (k : string) (v : JsValue) (o : Obj) :
  lookup k (set k v o) = Some v.
Proof.
  induction o as [|[k' v'] r IH]; simpl.
  - now rewrite String.eqb_refl.
  - destruct (String.eqb k k') eqn:E; simpl; rewrite E; auto.
Qed.

Lemma lookup_set_other (k k' : string) (v : JsValue) (o : Obj) :
  k <> k' -> lookup k (set k' v o) = lookup k o.
Proof.
  intros Hne. induction o as [|[k2 v2] r IH]; simpl.
  - destruct (String.eqb k k') eqn:E; auto.
    apply String.eqb_eq in E. contradiction.
  - destruct (String.eqb k' k2) eqn:E; simpl.
    + apply String.eqb_eq in E. subst k2.
      destruct (String.eqb k k') eqn:E2; auto.
      apply String.eqb_eq in E2. contradiction.
    + now rewrite IH.
Qed.

(** A key the source does not have keeps the value the target gave it. *)
Lemma lookup_spread_absent (k : string) (source target : Obj) :
  lookup k source = None ->
  lookup k (spread target source) = lookup k target.
Proof.
  unfold spread. revert target.
  induction source as [|[k' v'] r IH]; intros target H; simpl in *; auto.
  destruct (String.eqb k k') eqn:E; [discriminate|].
  rewrite IH by assumption. apply lookup_set_other.
  intro; subst. now rewrite String.eqb_refl in E.
Qed.

Lemma has_key_lookup (k : string) (o : Obj) :
  has_key k o = match lookup k o with Some _ => true | None => false end.
Proof.
  induction o as [|[k' v'] r IH]; simpl; auto.
  destruct (String.eqb k k'); auto.
Qed.

(** ** The shape of every method

    Every method either throws on its arguments before any request, or
    makes exactly one request and then rethrows the transport's
    rejection, or hands the response to its output schema when it has
    one and returns it as it is when it has none. *)
Ltac unfold_methods :=
  cbv beta iota zeta delta
    [run outcome calls bind ret parse_or_throw request fst snd
     Wallets.list Wallets.create Wallets.get Wallets.update Wallets.delete
     Wallets.transfer Wallets.listDelegations Wallets.createDelegation
     Wallets.deleteDelegation Wallets.getSignature
     ContractEvents.create ContractEvents.list ContractEvents.get
     ContractEvents.update ContractEvents.delete ContractEvents.searchLogs].

Lemma appendEntries_entriesQuery (params : Obj) :
  forall (q : URLSearchParams.t) (log : list Request),
    appendEntries params q log
    = match entriesQuery params with
      | Some q' => (Return (q ++ q')%list, log)
      | None => (ThrowTypeError, log)
      end.
Proof.
  induction params as [|[k v] r IH]; intros q log; simpl.
  - now rewrite app_nil_r.
  - destruct (nullish v); simpl; [apply IH|].
    destruct (toStringMethod v) as [text|]; [|reflexivity].
    rewrite IH. unfold URLSearchParams.append.
    destruct (entriesQuery r); [|reflexivity].
    now rewrite <- app_assoc.
Qed.

Lemma run_cases (client : IOneShotClient) (op : Operation) (log : list Request) :
  (exists es, run client op log = (ThrowZodError es, log))
  \/ run client op log = (ThrowTypeError, log)
  \/ (exists r,
        (exists e, client r = Rejected e
                   /\ run client op log = (ThrowTransport e, (log ++ [r])%list))
        \/ (exists raw, client r = Resolved raw
                        /\ run client op log
                           = (settle (outputSchema op) raw, (log ++ [r])%list))).
Proof.
  destruct op as [b [p|]|b p|w i|w p|w|w p|w [p|]|w p|d|w t p
                 |b p|b [p|]|c|c p|c|c p];
    unfold_methods;
    match goal with
    | |- context [parse ?s ?c] => destruct (parse s c) as [v|es] eqn:Ein
    end;
    try (left; eexists; reflexivity);
    try (rewrite appendEntries_entriesQuery;
         match goal with
         | |- context [entriesQuery ?p] => destruct (entriesQuery p)
         end;
         cbv beta iota; [|right; left; reflexivity]);
    right; right;
    match goal with
    | |- context [client ?r] =>
        exists r; destruct (client r) as [raw|e] eqn:Ecl
    end;
    try (left; eexists; split; reflexivity);
    right; exists raw; (split; [reflexivity|]);
    cbv beta iota delta [settle outputSchema];
    try reflexivity;
    match goal with
    | |- context [parse ?s ?x] => destruct (parse s x); reflexivity
    end.
Qed.

(** ** Identifiers are checked before a request is made *)

(** An object schema whose first field is a UUID string refuses an object
    that carries a malformed string there, and says where. *)
Lemma parse_rejects_bad_id (k id : string) (rest : list (string * Schema))
  (o : Obj) :
  lookup k o = Some (JStr id) ->
  uuidRegex id = false ->
  exists more,
    parse (ZodObject ((k, ZodString [CheckUuid]) :: rest)) (JObj o)
    = INVALID (mkIssue invalid_string [Key k] "Invalid uuid" :: more).
Proof.
  intros Hk Hid. unfold parse. cbn [_parse map fst snd]. unfold get. rewrite Hk.
  cbn [flat_map stringCheck app]. rewrite Hid. cbn [checked app mergeObjectSync].
  match goal with
  | |- context [mergeObjectSync ?ps] => destruct (mergeObjectSync ps)
  end; eexists; reflexivity.
Qed.

Ltac bad_id_case Hopt Hid :=
  unfold rejectedLocally; unfold_methods;
  match type of Hid with
  | uuidRegex ?id = false =>
      match goal with
      | |- context [parse ?s (JObj ?o)] =>
          let s' := eval cbv in s in
          match s' with
          | ZodObject ((?k, _) :: ?rest) =>
              let Hk := fresh "Hk" in
              assert (Hk : lookup k o = Some (JStr id))
                by first [ reflexivity
                         | cbn [spread_opt];
                           rewrite lookup_spread_absent by exact Hopt;
                           reflexivity ];
              let E := fresh "E" in
              let more := fresh "more" in
              destruct (parse_rejects_bad_id k id rest o Hk Hid) as [more E];
              change (parse s (JObj o))
                with (parse (ZodObject ((k, ZodString [CheckUuid]) :: rest))
                        (JObj o));
              rewrite E; exists more; split; reflexivity
          end
      end
  end.

(** C1, as amended: every operation whose input schema declares the
    entity identifier (all of them except [ContractEvents.update] and
    [ContractEvents.searchLogs]) throws a validation error naming the
    identifier, and makes no request, when the identifier it is given is
    not a UUID; the options object is assumed not to carry a property of
    the identifier's name, as its type says. *)
Theorem C1_malformed_id_fails_before_request
  (client : IOneShotClient) (op : Operation) :
  validatesId op = true ->
  lookup (idKey op) (options op) = None ->
  uuidRegex (entityId op) = false ->
  rejectedLocally client op.
Proof.
  intros Hv Hopt Hid.
  destruct op as [b [p|]|b p|w i|w p|w|w p|w [p|]|w p|d|w t p
                 |b p|b [p|]|c|c p|c|c p];
    simpl in Hv, Hopt, Hid; try discriminate Hv;
    bad_id_case Hopt Hid.
Qed.

Lemma C1_malformed_id_fails_before_request_witness :
  validatesId (Wallets_get "not-a-uuid" JUndefined) = true
  /\ lookup (idKey (Wallets_get "not-a-uuid" JUndefined))
       (options (Wallets_get "not-a-uuid" JUndefined)) = None
  /\ uuidRegex (entityId (Wallets_get "not-a-uuid" JUndefined)) = false
  /\ rejectedLocally (fun _ => Resolved JNull)
       (Wallets_get "not-a-uuid" JUndefined).
Proof.
  split; [reflexivity|]. split; [reflexivity|]. split; [reflexivity|].
  apply (C1_malformed_id_fails_before_request
           (fun _ => Resolved JNull) (Wallets_get "not-a-uuid" JUndefined));
    reflexivity.
Defined.

(** C1 as stated fails: [ContractEvents.update] is given an identifier
    that is not a UUID and still sends its PUT, with the identifier in
    the path. *)
Lemma C1_counterexample_update_sends_unchecked_id :
  entityId (ContractEvents_update "not-a-uuid" []) = "not-a-uuid"
  /\ uuidRegex "not-a-uuid" = false
  /\ calls (run (fun _ => Resolved JNull)
              (ContractEvents_update "not-a-uuid" []))
     = [mkRequest PUT "/events/not-a-uuid" (JObj [])]
  /\ ~ rejectedLocally (fun _ => Resolved JNull)
         (ContractEvents_update "not-a-uuid" []).
Proof.
  repeat split; try reflexivity.
  intros [more [_ H]]. discriminate H.
Qed.

(** [ContractEvents.searchLogs] does the same. *)
Lemma searchLogs_sends_unchecked_id :
  calls (run (fun _ => Resolved JNull)
           (ContractEvents_searchLogs "not-a-uuid" None))
  = [mkRequest POST "/events/not-a-uuid/search" (JObj [])].
Proof. reflexivity. Qed.

(** ** Responses and the output schema *)

Lemma run_from_empty (client : IOneShotClient) (op : Operation) :
  (exists es, outcome (run client op) = ThrowZodError es
              /\ calls (run client op) = [])
  \/ (outcome (run client op) = ThrowTypeError /\ calls (run client op) = [])
  \/ (exists r,
        calls (run client op) = [r]
        /\ match client r with
           | Rejected e => outcome (run client op) = ThrowTransport e
           | Resolved raw =>
               outcome (run client op) = settle (outputSchema op) raw
           end).
Proof.
  unfold outcome, calls.
  destruct (run_cases client op [])
    as [[es H]|[H|[r [[e [Hc H]]|[raw [Hc H]]]]]];
    rewrite H; simpl.
  - left. eauto.
  - right. left. auto.
  - right. right. exists r. rewrite Hc. auto.
  - right. right. exists r. rewrite Hc. auto.
Qed.

(** No method makes more than one request. *)
Lemma at_most_one_request (client : IOneShotClient) (op : Operation) :
  (length (calls (run client op)) <= 1)%nat.
Proof.
  destruct (run_from_empty client op) as [[es [_ H]]|[[_ H]|[r [H _]]]];
    rewrite H; simpl; lia.
Qed.

(** C2, as amended: every operation that has an output schema validates
    the response against it before returning, and throws a validation
    error on a response that does not conform; [Wallets.transfer] and the
    three delete operations ([Wallets.delete],
    [Wallets.deleteDelegation], [ContractEvents.delete]) have none and
    return the response as it is. *)
Theorem C2_response_validated_where_schema_exists
  (client : IOneShotClient) (op : Operation) :
  match outputSchema op with
  | Some s => validatedAgainst client op s
  | None =>
      passedThrough client op
      /\ ((exists w p, op = Wallets_transfer w p)
          \/ (exists w, op = Wallets_delete w)
          \/ (exists d, op = Wallets_deleteDelegation d)
          \/ (exists c, op = ContractEvents_delete c))
  end.
Proof.
  assert (Hshape := run_from_empty client op).
  destruct (outputSchema op) as [s|] eqn:Hs.
  - split.
    + intros v Hv.
      destruct Hshape as [[es [Ho _]]|[[Ho _]|[r [Hc Hr]]]];
        [congruence|congruence|].
      exists r. destruct (client r) as [raw|e]; [|congruence].
      exists raw. repeat split; auto.
      rewrite Hr in Hv. simpl in Hv. destruct (parse s raw); congruence.
    + intros r raw es Hc Hcl Hp.
      destruct Hshape as [[es' [_ Hc']]|[[_ Hc']|[r' [Hc' Hr]]]];
        [congruence|congruence|].
      assert (r' = r) by congruence. subst r'.
      rewrite Hcl in Hr. rewrite Hr. simpl. now rewrite Hp.
  - split.
    + intros r raw Hc Hcl.
      destruct Hshape as [[es' [_ Hc']]|[[_ Hc']|[r' [Hc' Hr]]]];
        [congruence|congruence|].
      assert (r' = r) by congruence. subst r'.
      rewrite Hcl in Hr. exact Hr.
    + destruct op; try discriminate Hs; eauto 7.
Qed.

(** C2 as stated fails: [Wallets.delete] returns whatever the transport
    resolved to, here a string where an object with a boolean [success]
    is documented, without throwing. *)
Lemma C2_counterexample_delete_returns_unvalidated :
  (exists es, parse (z.object [("success", z.boolean)]) (JStr "oops")
              = INVALID es)
  /\ outcome (run (fun _ => Resolved (JStr "oops"))
                (Wallets_delete "123e4567-e89b-12d3-a456-426614174000"))
     = Return (JStr "oops").
Proof. split; [eexists|]; reflexivity. Qed.

(** ** searchLogs without params *)

(** C7: [ContractEvents.searchLogs] called without [params] parses the
    empty object, which the input schema accepts, and makes exactly one
    request: a POST to /events/{contractEventId}/search whose body is the
    empty object, so none of startBlock, endBlock and topics is in it; the
    call then returns what the output schema makes of the response. *)
Theorem C7_searchLogs_without_params_posts_empty_body
  (client : IOneShotClient) (contractEventId : string) :
  parse searchContractEventLogsSchema (JObj []) = OK (JObj [])
  /\ calls (ContractEvents.searchLogs client contractEventId None)
     = [mkRequest POST ("/events/" ++ contractEventId ++ "/search") (JObj [])]
  /\ toJSON (JObj []) = JObj []
  /\ (forall raw v,
        client (mkRequest POST ("/events/" ++ contractEventId ++ "/search")
                  (JObj [])) = Resolved raw ->
        parse contractEventSearchResultSchema raw = OK v ->
        outcome (ContractEvents.searchLogs client contractEventId None)
        = Return v).
Proof.
  split; [reflexivity|].
  unfold_methods.
  change (parse searchContractEventLogsSchema (JObj [])) with (@OK JsValue (JObj [])).
  cbv beta iota.
  split; [destruct (client _); [|reflexivity] |].
  - match goal with
    | |- context [parse ?s ?x] => destruct (parse s x); reflexivity
    end.
  - split; [reflexivity|].
    intros raw v Hc Hp. rewrite Hc. cbv beta iota. now rewrite Hp.
Qed.

(** ** deleteDelegation *)

Lemma parse_single_id (k id : string) :
  String.eqb k "__proto__" = false ->
  uuidRegex id = true ->
  parse (ZodObject [(k, ZodString [CheckUuid])]) (JObj [(k, JStr id)])
  = OK (JObj [(k, JStr id)]).
Proof.
  intros Hk H. unfold parse. cbn [_parse map fst snd].
  cbv beta iota delta [get lookup has_key]. rewrite String.eqb_refl.
  cbn [flat_map stringCheck app]. rewrite H.
  cbn [checked app mergeObjectSync]. rewrite Hk. reflexivity.
Qed.

(** C8: for every [delegationId] that is a UUID,
    [Wallets.deleteDelegation] makes exactly one request, a DELETE
    without body to the path "/delegation/" followed by the identifier,
    which is not the plural "/delegations/" path. *)
Theorem C8_deleteDelegation_singular_path
  (client : IOneShotClient) (delegationId : string) :
  uuidRegex delegationId = true ->
  calls (Wallets.deleteDelegation client delegationId)
  = [mkRequest DELETE ("/delegation/" ++ delegationId) JUndefined]
  /\ "/delegation/" ++ delegationId <> "/delegations/" ++ delegationId.
Proof.
  intros H. split.
  - unfold_methods.
    change (parse deleteDelegationSchema (JObj [("delegationId", JStr delegationId)]))
      with (parse (ZodObject [("delegationId", ZodString [CheckUuid])])
              (JObj [("delegationId", JStr delegationId)])).
    rewrite parse_single_id by (reflexivity || assumption).
    cbv beta iota. destruct (client _); reflexivity.
  - simpl. intro E. discriminate E.
Qed.

Lemma C8_deleteDelegation_singular_path_witness :
  uuidRegex "123e4567-e89b-12d3-a456-426614174000" = true
  /\ (calls (Wallets.deleteDelegation (fun _ => Resolved JNull)
               "123e4567-e89b-12d3-a456-426614174000")
      = [mkRequest DELETE
           ("/delegation/" ++ "123e4567-e89b-12d3-a456-426614174000")
           JUndefined]
      /\ "/delegation/" ++ "123e4567-e89b-12d3-a456-426614174000"
         <> "/delegations/" ++ "123e4567-e89b-12d3-a456-426614174000").
Proof.
  split; [reflexivity|].
  apply (C8_deleteDelegation_singular_path (fun _ => Resolved JNull)
           "123e4567-e89b-12d3-a456-426614174000").
  reflexivity.
Defined.

(** ** What [parse] returns on an object *)

Lemma existsb_eqb_In (x : string) (l : list string) :
  existsb (String.eqb x) l = true <-> In x l.
Proof.
  rewrite existsb_exists. split.
  - intros [y [Hy E]]. apply String.eqb_eq in E. now subst.
  - intros H. exists x. split; auto. apply String.eqb_refl.
Qed.

Lemma nodupb_NoDup (l : list string) : nodupb l = true -> NoDup l.
Proof.
  induction l as [|x r IH]; simpl; intros H; constructor.
  - apply andb_prop in H. destruct H as [H _].
    intro Hin. apply existsb_eqb_In in Hin. rewrite Hin in H. discriminate.
  - apply IH. apply andb_prop in H. tauto.
Qed.

Lemma lookup_None_notin (k : string) (o : Obj) :
  lookup k o = None <-> ~ In k (keys o).
Proof.
  induction o as [|[k' v] r IH]; simpl.
  - tauto.
  - destruct (String.eqb k k') eqn:E.
    + apply String.eqb_eq in E. subst. split; [discriminate|tauto].
    + rewrite IH. apply String.eqb_neq in E.
      split; [intros H [H1|H1]; [congruence|tauto] | tauto].
Qed.

Lemma parse_array_same (e : Schema) (p : list PathElem) :
  (forall p x y, _parse e p x = OK y -> y = x) ->
  forall l n l',
    mergeArray (mapi (fun i x => _parse e (p ++ [Index i])%list x) n l) = OK l' ->
    l' = l.
Proof.
  intros He. induction l as [|x r IH]; intros n l' H; simpl in H.
  - now inversion H.
  - destruct (_parse e (p ++ [Index n])%list x) as [y|] eqn:Ey;
      destruct (mergeArray _) as [l1|] eqn:El; try discriminate.
    inversion H; subst. f_equal; eauto.
Qed.

(** A plain schema hands back the value it accepted. *)
Lemma parse_plain_same (s : Schema) :
  plain s = true -> forall p x y, _parse s p x = OK y -> y = x.
Proof.
  induction s as [cs|cs| |vs|e IHe|e IHe|sh IHsh|e IHe|e IHe] using Schema_ind';
    simpl; intros Hp p x y Hpar; try discriminate Hp.
  - destruct x; try discriminate Hpar.
    unfold checked in Hpar. destruct (flat_map _ _); now inversion Hpar.
  - destruct x as [| | |n| | |]; try discriminate Hpar.
    destruct n; try discriminate Hpar;
      unfold checked in Hpar; destruct (flat_map _ _); now inversion Hpar.
  - destruct x; try discriminate Hpar. now inversion Hpar.
  - destruct x; try discriminate Hpar.
    destruct (existsb _ _); now inversion Hpar.
  - destruct x as [| | | | |l|]; try discriminate Hpar.
    destruct (mergeArray _) as [l'|] eqn:El; try discriminate Hpar.
    inversion Hpar; subst. f_equal.
    eapply parse_array_same; eauto.
  - destruct x; try (now inversion Hpar); eauto.
  - destruct x; try (now inversion Hpar); eauto.
Qed.

(** The keys [mergeObjectSync] writes are among those it was given. *)
Lemma mergeObjectSync_keys (pairs : list (string * ParseReturn * bool)) :
  forall o, mergeObjectSync pairs = OK o ->
            incl (keys o) (map (fun pr => fst (fst pr)) pairs).
Proof.
  induction pairs as [|[[k r] a] rest IH]; simpl; intros o H.
  - inversion H. apply incl_refl.
  - destruct r as [v|]; destruct (mergeObjectSync rest) as [o1|];
      try discriminate H.
    specialize (IH o1 eq_refl).
    destruct (_ && _) in H; inversion H; subst; simpl.
    + apply incl_cons; [now left | now apply incl_tl].
    + now apply incl_tl.
Qed.

(** Reading a plain field of a parsed object gives what the input had
    there. *)
Lemma parsed_field_same (shape : list (string * Schema)) (p : list PathElem)
  (o : Obj) (v : JsValue) (k : string) (s : Schema) :
  _parse (ZodObject shape) p (JObj o) = OK v ->
  NoDup (map fst shape) ->
  fieldSchema k shape = Some s ->
  plain s = true ->
  String.eqb k "__proto__" = false ->
  prop v k = get o k.
Proof.
  cbn [_parse]. intros H.
  destruct (mergeObjectSync _) as [o'|] eqn:Hm; try discriminate H.
  inversion H; subst v; clear H. cbn [prop].
  revert o' Hm. induction shape as [|[k1 s1] rest IH];
    intros o' Hm Hnd Hf Hp Hk; simpl in *; try discriminate Hf.
  destruct (_parse s1 _ _) as [v1|] eqn:E1;
    destruct (mergeObjectSync _) as [o1|] eqn:E2; try discriminate Hm.
  inversion Hnd as [|? ? Hnotin Hnd']; subst.
  destruct (String.eqb k k1) eqn:Ek.
  - apply String.eqb_eq in Ek. subst k1. inversion Hf; subst s1.
    apply parse_plain_same in E1; auto. subst v1.
    assert (Hnone : lookup k o1 = None).
    { apply lookup_None_notin. intro Hin.
      apply (mergeObjectSync_keys _ _ E2) in Hin.
      rewrite map_map in Hin. simpl in Hin. contradiction. }
    rewrite Hk in Hm. simpl in Hm.
    destruct (get o k) eqn:Eg; simpl in Hm;
      try (inversion Hm; subst o'; unfold get; simpl;
           now rewrite String.eqb_refl).
    destruct (has_key k o); inversion Hm; subst o'; unfold get; simpl.
    + now rewrite String.eqb_refl.
    + now rewrite Hnone.
  - assert (get o' k = get o1 k).
    { destruct (_ && _) in Hm; inversion Hm; subst o'; auto.
      unfold get. simpl. now rewrite Ek. }
    rewrite H. eapply IH; eauto.
Qed.

Lemma lookup_spread (k : string) (source target : Obj) :
  NoDup (keys source) ->
  lookup k (spread target source)
  = match lookup k source with
    | Some v => Some v
    | None => lookup k target
    end.
Proof.
  unfold spread. revert target.
  induction source as [|[k' v'] r IH]; intros target Hnd; simpl; auto.
  inversion Hnd as [|? ? Hnotin Hnd']; subst.
  rewrite IH by assumption.
  destruct (String.eqb k k') eqn:E.
  - apply String.eqb_eq in E. subst k'.
    apply lookup_None_notin in Hnotin. rewrite Hnotin.
    apply lookup_set_same.
  - destruct (lookup k r); auto. apply lookup_set_other.
    intro; subst. now rewrite String.eqb_refl in E.
Qed.

Lemma get_spread (k : string) (source target : Obj) :
  NoDup (keys source) ->
  get (spread target source) k
  = match lookup k source with
    | Some v => v
    | None => get target k
    end.
Proof.
  intros H. unfold get. rewrite lookup_spread by assumption.
  destruct (lookup k source); reflexivity.
Qed.

(** A key the target does not have reads from the source. *)
Lemma get_spread_source (k : string) (source target : Obj) :
  NoDup (keys source) ->
  lookup k target = None ->
  get (spread target source) k = get source k.
Proof.
  intros H Ht. rewrite get_spread by assumption. unfold get.
  destruct (lookup k source); auto. now rewrite Ht.
Qed.

(** A key the source does not have reads from the target. *)
Lemma get_spread_target (k : string) (source target : Obj) :
  lookup k source = None ->
  get (spread target source) k = get target k.
Proof.
  intros H. unfold get. now rewrite lookup_spread_absent.
Qed.

Ltac unfold_methods_in H :=
  cbv beta iota zeta delta
    [run outcome calls bind ret parse_or_throw request fst snd
     Wallets.list Wallets.create Wallets.get Wallets.update Wallets.delete
     Wallets.transfer Wallets.listDelegations Wallets.createDelegation
     Wallets.deleteDelegation Wallets.getSignature
     ContractEvents.create ContractEvents.list ContractEvents.get
     ContractEvents.update ContractEvents.delete ContractEvents.searchLogs]
    in H.

(** From [H], which says what the log is once the arguments have been
    accepted, the request that was sent. *)
Ltac sent_request H :=
  match type of H with
  | context [match ?x with Resolved _ => _ | Rejected _ => _ end] =>
      destruct x;
      [ try match type of H with
            | context [parse ?s ?y] => destruct (parse s y)
            end | ];
      cbv beta iota zeta delta [app] in H; inversion H; clear H
  end.

(** From [E : parse s (JObj o) = OK v], every [prop v k] in [H] for a
    plain field [k] of [s] becomes [get o k]. *)
Ltac validated_fields E H :=
  match type of E with
  | parse ?s (JObj ?o) = OK ?v =>
      let s' := eval cbv in s in
      change (_parse s' [] (JObj o) = OK v) in E;
      repeat match type of H with
             | context [prop v ?k] =>
                 let Hk := fresh "Hk" in
                 assert (Hk : prop v k = get o k)
                   by (eapply parsed_field_same;
                       [ exact E | apply nodupb_NoDup; reflexivity
                       | reflexivity | reflexivity | reflexivity ]);
                 rewrite Hk in H; clear Hk
             end
  end.

Lemma accepted_parse (op : Operation) :
  accepted op = true ->
  exists v, parse (inputSchema op) (JObj (candidate op)) = OK v.
Proof.
  unfold accepted, rejects.
  destruct (parse (inputSchema op) (JObj (candidate op))); [eauto|discriminate].
Qed.

(** From [E : parse s (JObj o) = OK v], every [prop v k] in the goal for
    a plain field [k] of [s] becomes [get o k]. *)
Ltac validated_fields_goal E :=
  match type of E with
  | parse ?s (JObj ?o) = OK ?v =>
      let s' := eval cbv in s in
      let E' := fresh "E'" in
      assert (E' : _parse s' [] (JObj o) = OK v) by exact E;
      repeat match goal with
             | |- context [prop v ?k] =>
                 let Hk := fresh "Hk" in
                 assert (Hk : prop v k = get o k)
                   by (eapply parsed_field_same;
                       [ exact E' | apply nodupb_NoDup; reflexivity
                       | reflexivity | reflexivity | reflexivity ]);
                 rewrite Hk; clear Hk
             end;
      clear E'
  end.

(** Once the request has been built, the log is that request however
    the transport and the output schema then answer. *)
Ltac one_request :=
  match goal with
  | |- context [match ?x with Resolved _ => _ | Rejected _ => _ end] =>
      destruct x;
      [ try match goal with
            | |- context [parse ?s ?y] => destruct (parse s y)
            end | ];
      reflexivity
  end.

(** ** getSignature *)

Lemma signatureQuery_names (params : Obj) (k : string) :
  In k (map fst (signatureQuery params))
  <-> k = "contractAddress" \/ k = "destinationAddress"
      \/ (In k signatureOptionals /\ nullish (get params k) = false).
Proof.
  unfold signatureQuery, signatureOptionals. cbn [flat_map app map fst In].
  destruct (nullish (get params "amount")) eqn:E1;
    destruct (nullish (get params "validUntil")) eqn:E2;
    destruct (nullish (get params "validAfter")) eqn:E3;
    destruct (nullish (get params "fromAddress")) eqn:E4;
    cbn [flat_map app map fst In];
    (split;
     [ intros H; repeat (destruct H as [H|H]; [subst k; auto 10|]);
       try contradiction
     | intros [H|[H|[H Hn]]]; [subst; auto 10 | subst; auto 10 |];
       repeat (destruct H as [H|H]; [subst k; try congruence; auto 10|]);
       try contradiction ]).
Qed.

Lemma signature_appends (params : Obj) :
  appendIfPresent "fromAddress" (get params "fromAddress")
    (appendIfPresent "validAfter" (get params "validAfter")
       (appendIfPresent "validUntil" (get params "validUntil")
          (appendIfPresent "amount" (get params "amount")
             (URLSearchParams.append
                (URLSearchParams.append URLSearchParams.empty
                   "contractAddress" (ToString (get params "contractAddress")))
                "destinationAddress"
                (ToString (get params "destinationAddress"))))))
  = signatureQuery params.
Proof.
  unfold signatureQuery, signatureOptionals, appendIfPresent.
  cbn [flat_map app].
  destruct (nullish (get params "amount"));
    destruct (nullish (get params "validUntil"));
    destruct (nullish (get params "validAfter"));
    destruct (nullish (get params "fromAddress")); reflexivity.
Qed.

(** C5: [getSignature], once the input schema accepts its arguments,
    sends one GET whose path ends in "?" and the query string of
    [signatureQuery]: contractAddress and destinationAddress first, then
    amount, validUntil, validAfter and fromAddress, each only when
    [params] has it with a value that is neither null nor undefined;
    when the four are absent the query has the two addresses and nothing
    else.  The numbers of [params] are in their canonical writing,
    [wfNumbers], so that the text of validUntil and validAfter is the one
    JavaScript prints. *)
Theorem C5_getSignature_query
  (client : IOneShotClient) (walletId type : string) (params : Obj) :
  wf_obj params ->
  lookup "walletId" params = None ->
  lookup "type" params = None ->
  wfNumbers (JObj params) = true ->
  accepted (Wallets_getSignature walletId type params) = true ->
  calls (Wallets.getSignature client walletId type params)
  = [mkRequest GET
       ("/wallets/" ++ walletId ++ "/signature/" ++ type ++ "?"
        ++ URLSearchParams.toString (signatureQuery params))
       JUndefined]
  /\ (forall k, In k (map fst (signatureQuery params))
                <-> k = "contractAddress" \/ k = "destinationAddress"
                    \/ (In k signatureOptionals
                        /\ nullish (get params k) = false))
  /\ ((forall k, In k signatureOptionals -> lookup k params = None) ->
      signatureQuery params
      = [ ("contractAddress", ToString (get params "contractAddress"));
          ("destinationAddress", ToString (get params "destinationAddress")) ]).
Proof.
  intros Hwf Hw Ht Hnum Hacc. split; [|split].
  - destruct (accepted_parse _ Hacc) as [v E].
    cbv beta iota delta [inputSchema candidate] in E.
    unfold_methods. rewrite E. cbv beta iota.
    validated_fields_goal E.
    rewrite !(get_spread_source "contractAddress"),
      !(get_spread_source "destinationAddress"),
      !(get_spread_source "amount"), !(get_spread_source "validUntil"),
      !(get_spread_source "validAfter"), !(get_spread_source "fromAddress")
      by (exact Hwf || reflexivity).
    rewrite !(get_spread_target "walletId"), !(get_spread_target "type")
      by assumption.
    change (get [("walletId", JStr walletId); ("type", JStr type)] "walletId")
      with (JStr walletId).
    change (get [("walletId", JStr walletId); ("type", JStr type)] "type")
      with (JStr type).
    cbn [ToString]. rewrite signature_appends. one_request.
  - apply signatureQuery_names.
  - intros Habs. unfold signatureQuery, signatureOptionals, get.
    cbn [flat_map app].
    rewrite (Habs "amount"), (Habs "validUntil"), (Habs "validAfter"),
      (Habs "fromAddress") by (simpl; auto 10).
    reflexivity.
Qed.

(** With the two addresses alone the query has them and nothing else;
    with an amount and a validUntil, and a null fromAddress, the two that
    have a value follow the addresses and the other two send nothing. *)
Lemma C5_getSignature_query_witness :
  let required := [ ("contractAddress", JStr "0xA0b8");
                    ("destinationAddress", JStr "0x5FbD") ] in
  let params := [ ("contractAddress", JStr "0xA0b8");
                  ("destinationAddress", JStr "0x5FbD");
                  ("validUntil", JNum (NumInt 1700000000));
                  ("amount", JStr "1000");
                  ("fromAddress", JNull) ] in
  (wf_obj required
   /\ lookup "walletId" required = None
   /\ lookup "type" required = None
   /\ wfNumbers (JObj required) = true
   /\ accepted (Wallets_getSignature sampleUuid "erc3009" required) = true
   /\ calls (Wallets.getSignature nullClient sampleUuid "erc3009" required)
      = [mkRequest GET
           ("/wallets/123e4567-e89b-12d3-a456-426614174000/signature/erc3009"
            ++ "?contractAddress=0xA0b8&destinationAddress=0x5FbD")
           JUndefined])
  /\ (wf_obj params
      /\ lookup "walletId" params = None
      /\ lookup "type" params = None
      /\ wfNumbers (JObj params) = true
      /\ accepted (Wallets_getSignature sampleUuid "permit2" params) = true
      /\ calls (Wallets.getSignature nullClient sampleUuid "permit2" params)
         = [mkRequest GET
              ("/wallets/123e4567-e89b-12d3-a456-426614174000/signature/permit2"
               ++ "?contractAddress=0xA0b8&destinationAddress=0x5FbD"
               ++ "&amount=1000&validUntil=1700000000")
              JUndefined]).
Proof.
  intros required params.
  assert (Hwf1 : wf_obj required) by (apply nodupb_NoDup; reflexivity).
  assert (Hwf2 : wf_obj params) by (apply nodupb_NoDup; reflexivity).
  split.
  - split; [exact Hwf1|]. split; [reflexivity|]. split; [reflexivity|].
    split; [reflexivity|]. split; [reflexivity|].
    exact (proj1 (C5_getSignature_query nullClient sampleUuid "erc3009"
                    required Hwf1 eq_refl eq_refl eq_refl eq_refl)).
  - split; [exact Hwf2|]. split; [reflexivity|]. split; [reflexivity|].
    split; [reflexivity|]. split; [reflexivity|].
    exact (proj1 (C5_getSignature_query nullClient sampleUuid "permit2"
                    params Hwf2 eq_refl eq_refl eq_refl eq_refl)).
Defined.

(** ** Query strings of the list operations *)

Lemma appendIfPresent_app (k : string) (v : JsValue) (q : URLSearchParams.t) :
  appendIfPresent k v q
  = (q ++ (if nullish v then [] else [(k, ToString v)]))%list.
Proof.
  unfold appendIfPresent, URLSearchParams.append.
  destruct (nullish v); simpl; auto. now rewrite app_nil_r.
Qed.

Lemma truthy_append (a b : string) :
  truthy_string b = true -> truthy_string (a ++ b) = true.
Proof. destruct a; simpl; auto. Qed.

(** The query string is empty exactly when there is no parameter. *)
Lemma truthy_toString (q : URLSearchParams.t) :
  truthy_string (URLSearchParams.toString q)
  = match q with [] => false | _ :: _ => true end.
Proof.
  destruct q as [|[k v] r]; [reflexivity|].
  unfold URLSearchParams.toString. cbn [map fst snd join].
  destruct (map _ r); apply truthy_append; reflexivity.
Qed.

Lemma In_lookup (k : string) (v : JsValue) (o : Obj) :
  NoDup (keys o) -> In (k, v) o -> lookup k o = Some v.
Proof.
  induction o as [|[k' v'] r IH]; simpl; intros Hnd Hin; [contradiction|].
  inversion Hnd as [|? ? Hnotin Hnd']; subst.
  destruct Hin as [Heq|Hin].
  - inversion Heq; subst. now rewrite String.eqb_refl.
  - destruct (String.eqb k k') eqn:E; auto.
    apply String.eqb_eq in E. subst k'.
    exfalso. apply Hnotin. unfold keys. apply in_map_iff. now exists (k, v).
Qed.

Lemma fieldsQuery_names (ks : list string) (params : Obj) (k : string) :
  In k (map fst (fieldsQuery ks params)) ->
  In k ks /\ nullish (get params k) = false.
Proof.
  unfold fieldsQuery. induction ks as [|k' r IH]; simpl; [contradiction|].
  rewrite map_app, in_app_iff. intros [H|H].
  - destruct (nullish (get params k')) eqn:E; simpl in H; [contradiction|].
    destruct H as [H|[]]. subst. auto.
  - destruct (IH H). auto.
Qed.

Lemma fieldsQuery_all_nullish (ks : list string) (params : Obj) :
  (forall k, nullish (get params k) = true) -> fieldsQuery ks params = [].
Proof.
  intros Hall. unfold fieldsQuery.
  induction ks as [|k r IH]; simpl; auto. now rewrite Hall.
Qed.

(** An input key the schema does not declare is not in the parsed
    value. *)
Lemma parsed_undeclared_absent (shape : list (string * Schema))
  (p : list PathElem) (o : Obj) (v : JsValue) (k : string) :
  _parse (ZodObject shape) p (JObj o) = OK v ->
  fieldSchema k shape = None ->
  prop v k = JUndefined.
Proof.
  cbn [_parse]. intros H Hf.
  destruct (mergeObjectSync _) as [o'|] eqn:Hm; try discriminate H.
  inversion H; subst v. cbn [prop]. unfold get.
  assert (Hnone : lookup k o' = None); [|now rewrite Hnone].
  apply lookup_None_notin. intro Hin.
  apply (mergeObjectSync_keys _ _ Hm) in Hin.
  rewrite map_map in Hin. cbn [fst] in Hin.
  clear - Hin Hf. induction shape as [|[k' s] rest IH]; simpl in *; auto.
  destruct (String.eqb k k') eqn:E; [discriminate|].
  destruct Hin as [Hin|Hin]; auto.
  subst. now rewrite String.eqb_refl in E.
Qed.

Lemma entriesQuery_names (params : Obj) :
  forall (q : URLSearchParams.t) (k : string),
    entriesQuery params = Some q ->
    NoDup (keys params) ->
    In k (map fst q) -> nullish (get params k) = false.
Proof.
  induction params as [|[k' v] r IH]; intros q k Hq Hnd Hin; simpl in Hq.
  - inversion Hq; subst. contradiction.
  - simpl in Hnd. inversion Hnd as [|? ? Hnotin Hnd']; subst.
    assert (Hrest : forall q', entriesQuery r = Some q' -> In k (map fst q') ->
                               nullish (get ((k', v) :: r) k) = false).
    { intros q' Hq' Hin'. pose proof (IH q' k Hq' Hnd' Hin') as Hn.
      unfold get in *. simpl. destruct (String.eqb k k') eqn:E; auto.
      apply String.eqb_eq in E. subst k'.
      apply lookup_None_notin in Hnotin. rewrite Hnotin in Hn. discriminate. }
    destruct (nullish v) eqn:Ev; [eauto|].
    destruct (toStringMethod v) as [text|]; [|discriminate].
    destruct (entriesQuery r) as [q1|]; [|discriminate].
    inversion Hq; subst q. simpl in Hin. destruct Hin as [<-|Hin]; [|eauto].
    unfold get. simpl. now rewrite String.eqb_refl.
Qed.

Lemma entriesQuery_all_nullish (params : Obj) :
  (forall k, nullish (get params k) = true) ->
  NoDup (keys params) -> entriesQuery params = Some [].
Proof.
  induction params as [|[k v] r IH]; intros Hall Hnd; [reflexivity|].
  simpl in Hnd. inversion Hnd as [|? ? Hnotin Hnd']; subst. simpl.
  assert (Hv : nullish v = true).
  { specialize (Hall k). unfold get in Hall. simpl in Hall.
    now rewrite String.eqb_refl in Hall. }
  rewrite Hv. apply IH; auto.
  intros k'. specialize (Hall k'). unfold get in *. simpl in Hall.
  destruct (String.eqb k' k) eqn:E; auto.
  apply String.eqb_eq in E. subst k'.
  apply lookup_None_notin in Hnotin. now rewrite Hnotin.
Qed.

(** The parameters are the entries that have a value, in their order,
    each with the text of its [toString()]. *)
Lemma entriesQuery_entries (params : Obj) :
  forall q, entriesQuery params = Some q ->
            Forall2 (fun kv nt => fst nt = fst kv
                                  /\ toStringMethod (snd kv) = Some (snd nt))
              (filter (fun kv => negb (nullish (snd kv))) params) q.
Proof.
  induction params as [|[k v] r IH]; intros q Hq; simpl in Hq.
  - inversion Hq. constructor.
  - simpl. destruct (nullish v) eqn:Ev; simpl; [auto|].
    destruct (toStringMethod v) as [text|] eqn:Et; [|discriminate].
    destruct (entriesQuery r) as [q1|]; [|discriminate].
    inversion Hq; subst. constructor; auto.
Qed.

(** Building the parameters throws exactly when some entry that has a
    value cannot be printed. *)
Lemma entriesQuery_throws (params : Obj) :
  entriesQuery params = None ->
  exists k v, In (k, v) params /\ nullish v = false
              /\ toStringMethod v = None.
Proof.
  induction params as [|[k v] r IH]; simpl; [discriminate|]. intros H.
  destruct (nullish v) eqn:Ev.
  - destruct (IH H) as [k' [v' [Hin Hrest]]]. exists k', v'. auto.
  - destruct (toStringMethod v) as [text|] eqn:Et.
    + destruct (entriesQuery r) as [q1|] eqn:Er; [discriminate|].
      destruct (IH eq_refl) as [k' [v' [Hin Hrest]]]. exists k', v'. auto.
    + exists k, v. auto.
Qed.

Lemma fieldsQuery_ext (ks : list string) (o1 o2 : Obj) :
  (forall k, In k ks -> get o1 k = get o2 k) ->
  fieldsQuery ks o1 = fieldsQuery ks o2.
Proof.
  unfold fieldsQuery. induction ks as [|k r IH]; intros H; simpl; auto.
  rewrite (H k) by now left. rewrite IH; auto. intros k' Hk. apply H. now right.
Qed.

(** What [Wallets.list] and [Wallets.listDelegations] do once their
    arguments are accepted. *)
Lemma raw_list_calls (client : IOneShotClient) (op : Operation) :
  queriesRawEntries op = true ->
  accepted op = true ->
  match entriesQuery (options op) with
  | Some q =>
      calls (run client op)
      = [mkRequest GET
           (listRoute op (ToString (mergedId op)) (querySuffix q)) JUndefined]
  | None =>
      outcome (run client op) = ThrowTypeError /\ calls (run client op) = []
  end.
Proof.
  intros Hop Hacc. destruct (accepted_parse op Hacc) as [v E].
  destruct op as [b [p|]|b p|w i|w p|w|w p|w [p|]|w p|d|w t p
                 |b p|b [p|]|c|c p|c|c p];
    try discriminate Hop;
    cbv beta iota delta [inputSchema candidate] in E;
    cbv beta iota delta [options mergedId candidate idKey listRoute];
    unfold_methods; rewrite E; cbv beta iota;
    rewrite ?appendEntries_entriesQuery;
    cbn [entriesQuery];
    try match goal with
        | |- context [entriesQuery ?p] =>
            destruct (entriesQuery p) as [[|nt q]|]
        end;
    cbv beta iota; try (split; reflexivity);
    validated_fields_goal E;
    cbn [app URLSearchParams.empty querySuffix entriesQuery];
    rewrite ?truthy_toString; cbv beta iota;
    one_request.
Qed.

(** What [ContractEvents.list] does once its arguments are accepted. *)
Lemma declared_list_calls (client : IOneShotClient) (businessId : string)
  (params : option Obj) :
  let op := ContractEvents_list businessId params in
  wf_obj (options op) ->
  lookup "businessId" (options op) = None ->
  accepted op = true ->
  calls (run client op)
  = [mkRequest GET
       ("/business/" ++ businessId ++ "/events"
        ++ querySuffix (fieldsQuery contractEventFilters (options op)))
       JUndefined].
Proof.
  intros op Hwf Hid Hacc. destruct (accepted_parse op Hacc) as [v E].
  subst op. destruct params as [p|];
    cbv beta iota delta [inputSchema candidate] in E;
    cbn [options] in Hwf, Hid |- *;
    unfold_methods; rewrite E; cbv beta iota;
    validated_fields_goal E; cbn [spread_opt].
  - rewrite !(get_spread_target "businessId") by exact Hid.
    rewrite !(get_spread_source "pageSize"), !(get_spread_source "page"),
      !(get_spread_source "chainId"), !(get_spread_source "name"),
      !(get_spread_source "status"), !(get_spread_source "contractAddress"),
      !(get_spread_source "eventName") by (exact Hwf || reflexivity).
    change (get [("businessId", JStr businessId)] "businessId")
      with (JStr businessId).
    rewrite !appendIfPresent_app, truthy_toString.
    cbn [app URLSearchParams.empty ToString].
    rewrite <- !app_assoc.
    unfold fieldsQuery, contractEventFilters. cbn [flat_map].
    rewrite app_nil_r.
    match goal with
    | |- context [match ?q with [] => false | _ :: _ => true end] => destruct q
    end; cbv beta iota; one_request.
  - change (get [("businessId", JStr businessId)] "businessId")
      with (JStr businessId).
    cbn [ToString]. one_request.
Qed.

Lemma mergedId_argument (op : Operation) :
  lookup (idKey op) (options op) = None ->
  isListOperation op = true ->
  mergedId op = JStr (entityId op).
Proof.
  intros Hid Hop.
  destruct op as [b [p|]|b p|w i|w p|w|w p|w [p|]|w p|d|w t p
                 |b p|b [p|]|c|c p|c|c p];
    try discriminate Hop; cbn [options idKey] in Hid;
    cbv beta iota delta [mergedId candidate idKey entityId spread_opt];
    rewrite ?get_spread_target by exact Hid; reflexivity.
Qed.

(** What any list operation does once its arguments are accepted. *)
Lemma list_calls (client : IOneShotClient) (op : Operation) :
  isListOperation op = true ->
  wf_obj (options op) ->
  lookup (idKey op) (options op) = None ->
  accepted op = true ->
  match listQuery op with
  | Some q =>
      calls (run client op)
      = [mkRequest GET (listPath op (querySuffix q)) JUndefined]
  | None =>
      outcome (run client op) = ThrowTypeError /\ calls (run client op) = []
  end.
Proof.
  intros Hop Hwf Hid Hacc.
  pose proof (mergedId_argument op Hid Hop) as Hm.
  destruct op as [b p|b p|w i|w p|w|w p|w p|w p|d|w t p
                 |b p|b p|c|c p|c|c p];
    try discriminate Hop.
  - pose proof (raw_list_calls client (Wallets_list b p) eq_refl Hacc) as H.
    rewrite Hm in H. exact H.
  - pose proof (raw_list_calls client (Wallets_listDelegations w p)
                  eq_refl Hacc) as H.
    rewrite Hm in H. exact H.
  - exact (declared_list_calls client b p Hwf Hid Hacc).
Qed.

Lemma listQuery_names (op : Operation) (q : URLSearchParams.t) (k : string) :
  wf_obj (options op) ->
  listQuery op = Some q ->
  In k (map fst q) -> nullish (get (options op) k) = false.
Proof.
  intros Hwf Hq Hin.
  destruct op; cbv beta iota delta [listQuery] in Hq;
    try (inversion Hq; subst q; simpl in Hin; contradiction).
  - eapply entriesQuery_names; eauto.
  - eapply entriesQuery_names; eauto.
  - assert (Hq' : fieldsQuery contractEventFilters
                    (options (ContractEvents_list businessId params)) = q)
      by congruence.
    rewrite <- Hq' in Hin. now apply fieldsQuery_names in Hin.
Qed.

Lemma listQuery_all_nullish (op : Operation) :
  wf_obj (options op) ->
  (forall k, nullish (get (options op) k) = true) -> listQuery op = Some [].
Proof.
  intros Hwf Hall. destruct op; try reflexivity; unfold listQuery.
  - now apply entriesQuery_all_nullish.
  - now apply entriesQuery_all_nullish.
  - f_equal. now apply fieldsQuery_all_nullish.
Qed.

(** C6: a list operation ([Wallets.list], [Wallets.listDelegations],
    [ContractEvents.list]) whose arguments its input schema accepts sends
    one GET whose query has no parameter for a filter that is null,
    undefined or absent; when every filter is so, and in particular when
    no filters are given, the request goes to the bare route, without
    "?".  (The one case without a query to speak of: a filter value whose
    [toString] cannot be called makes the two Wallets methods throw before
    they send anything.)  The numbers of the options are taken in their
    canonical writing, [wfNumbers], for their text to be the one
    JavaScript prints. *)
Theorem C6_list_query_omits_nullish
  (client : IOneShotClient) (op : Operation) :
  isListOperation op = true ->
  wf_obj (options op) ->
  wfNumbers (JObj (options op)) = true ->
  lookup (idKey op) (options op) = None ->
  accepted op = true ->
  match listQuery op with
  | Some q =>
      calls (run client op)
      = [mkRequest GET (listPath op (querySuffix q)) JUndefined]
      /\ (forall k, nullish (get (options op) k) = true ->
                    ~ In k (map fst q))
  | None =>
      outcome (run client op) = ThrowTypeError /\ calls (run client op) = []
  end
  /\ ((forall k, nullish (get (options op) k) = true) ->
      calls (run client op) = [mkRequest GET (listPath op "") JUndefined]).
Proof.
  intros Hl Hwf Hnum Hid Hacc.
  pose proof (list_calls client op Hl Hwf Hid Hacc) as H.
  split.
  - destruct (listQuery op) as [q|] eqn:Hq; [|exact H].
    split; [exact H|].
    intros k Hk Hin.
    pose proof (listQuery_names op q k Hwf Hq Hin). congruence.
  - intros Hall. rewrite (listQuery_all_nullish op Hwf Hall) in H. exact H.
Qed.

(** [Wallets.list] with filters of which two are null or undefined, and
    without filters; [ContractEvents.list] with a null filter;
    [Wallets.listDelegations] without filters. *)
Lemma C6_list_query_omits_nullish_witness :
  let filtered := Wallets_list sampleUuid
                    (Some [ ("chainId", JNum (NumInt 5)); ("name", JNull);
                            ("page", JNum (NumInt 2));
                            ("pageSize", JUndefined) ]) in
  let bare := Wallets_list sampleUuid None in
  let events := ContractEvents_list sampleUuid
                  (Some [ ("name", JNull); ("chainId", JNum (NumInt 1)) ]) in
  let delegations := Wallets_listDelegations sampleUuid None in
  (isListOperation filtered = true
   /\ wf_obj (options filtered)
   /\ wfNumbers (JObj (options filtered)) = true
   /\ lookup (idKey filtered) (options filtered) = None
   /\ accepted filtered = true
   /\ calls (run nullClient filtered)
      = [mkRequest GET
           "/business/123e4567-e89b-12d3-a456-426614174000/wallets?chainId=5&page=2"
           JUndefined])
  /\ (isListOperation bare = true
      /\ wf_obj (options bare)
      /\ wfNumbers (JObj (options bare)) = true
      /\ lookup (idKey bare) (options bare) = None
      /\ accepted bare = true
      /\ calls (run nullClient bare)
         = [mkRequest GET
              "/business/123e4567-e89b-12d3-a456-426614174000/wallets"
              JUndefined])
  /\ (isListOperation events = true
      /\ wf_obj (options events)
      /\ wfNumbers (JObj (options events)) = true
      /\ lookup (idKey events) (options events) = None
      /\ accepted events = true
      /\ calls (run nullClient events)
         = [mkRequest GET
              "/business/123e4567-e89b-12d3-a456-426614174000/events?chainId=1"
              JUndefined])
  /\ (isListOperation delegations = true
      /\ wf_obj (options delegations)
      /\ wfNumbers (JObj (options delegations)) = true
      /\ lookup (idKey delegations) (options delegations) = None
      /\ accepted delegations = true
      /\ calls (run nullClient delegations)
         = [mkRequest GET
              "/wallets/123e4567-e89b-12d3-a456-426614174000/delegations"
              JUndefined]).
Proof.
  intros filtered bare events delegations.
  assert (Hwf1 : wf_obj (options filtered)) by (apply nodupb_NoDup; reflexivity).
  assert (Hwf2 : wf_obj (options bare)) by constructor.
  assert (Hwf3 : wf_obj (options events)) by (apply nodupb_NoDup; reflexivity).
  assert (Hwf4 : wf_obj (options delegations)) by constructor.
  split; [|split; [|split]].
  - split; [reflexivity|]. split; [exact Hwf1|]. split; [reflexivity|].
    split; [reflexivity|]. split; [reflexivity|].
    exact (proj1 (proj1 (C6_list_query_omits_nullish nullClient filtered
                           eq_refl Hwf1 eq_refl eq_refl eq_refl))).
  - split; [reflexivity|]. split; [exact Hwf2|]. split; [reflexivity|].
    split; [reflexivity|]. split; [reflexivity|].
    apply (proj2 (C6_list_query_omits_nullish nullClient bare
                    eq_refl Hwf2 eq_refl eq_refl eq_refl)).
    intros k. reflexivity.
  - split; [reflexivity|]. split; [exact Hwf3|]. split; [reflexivity|].
    split; [reflexivity|]. split; [reflexivity|].
    exact (proj1 (proj1 (C6_list_query_omits_nullish nullClient events
                           eq_refl Hwf3 eq_refl eq_refl eq_refl))).
  - split; [reflexivity|]. split; [exact Hwf4|]. split; [reflexivity|].
    split; [reflexivity|]. split; [reflexivity|].
    apply (proj2 (C6_list_query_omits_nullish nullClient delegations
                    eq_refl Hwf4 eq_refl eq_refl eq_refl)).
    intros k. reflexivity.
Defined.

(** Without filters, [Wallets.list] for a UUID sends the bare route. *)
Lemma Wallets_list_without_filters (client : IOneShotClient)
  (businessId : string) :
  uuidRegex businessId = true ->
  calls (Wallets.list client businessId None)
  = [mkRequest GET ("/business/" ++ businessId ++ "/wallets") JUndefined].
Proof.
  intros Hu.
  assert (Hacc : accepted (Wallets_list businessId None) = true).
  { unfold accepted, rejects, parse.
    cbv beta iota delta [inputSchema candidate spread_opt].
    change listWalletsSchema
      with (ZodObject
              [ ("businessId", ZodString [CheckUuid]);
                ("chainId",
                 ZodNullable (ZodOptional (ZodNumber [CheckInt; CheckPositive])));
                ("pageSize",
                 ZodNullable (ZodOptional (ZodNumber [CheckInt; CheckPositive])));
                ("page",
                 ZodNullable (ZodOptional (ZodNumber [CheckInt; CheckPositive])));
                ("name", ZodNullable (ZodOptional (ZodString []))) ]).
    cbn [_parse map fst snd].
    change (get [("businessId", JStr businessId)] "businessId")
      with (JStr businessId).
    cbn [flat_map stringCheck app]. rewrite Hu. reflexivity. }
  exact (list_calls client (Wallets_list businessId None) eq_refl
           (NoDup_nil _) eq_refl Hacc).
Qed.

(** ** Raw entries reach the wire *)

(** C10, as amended: [Wallets.list] and [Wallets.listDelegations] build
    the query from the entries of the caller's [params] object and not
    from the validated value.  For every [params] that the input schema
    accepts, when each value that is neither null nor undefined can be
    printed the method sends one GET whose query has exactly these
    entries, in the order of the object and whatever their key, so also
    a key the schema does not declare, which the validated value has
    lost; and when some such value cannot be printed (an object with an
    own [toString] property), the method throws a [TypeError] and sends
    nothing.  The route is that of the identifier as it stands after the
    options have been spread over it. *)
Theorem C10_raw_params_entries_reach_the_query
  (client : IOneShotClient) (op : Operation) :
  queriesRawEntries op = true ->
  wfNumbers (JObj (options op)) = true ->
  accepted op = true ->
  match entriesQuery (options op) with
  | Some q =>
      calls (run client op)
      = [mkRequest GET
           (listRoute op (ToString (mergedId op)) (querySuffix q)) JUndefined]
      /\ Forall2 (fun kv nt => fst nt = fst kv
                               /\ toStringMethod (snd kv) = Some (snd nt))
           (filter (fun kv => negb (nullish (snd kv))) (options op)) q
  | None =>
      outcome (run client op) = ThrowTypeError
      /\ calls (run client op) = []
      /\ exists k v, In (k, v) (options op) /\ nullish v = false
                     /\ toStringMethod v = None
  end
  /\ (forall v k,
        parse (inputSchema op) (JObj (candidate op)) = OK v ->
        fieldSchema k (shapeOf (inputSchema op)) = None ->
        prop v k = JUndefined).
Proof.
  intros Hop Hnum Hacc.
  pose proof (raw_list_calls client op Hop Hacc) as H.
  split.
  - destruct (entriesQuery (options op)) as [q|] eqn:Hq.
    + split; [exact H|]. now apply entriesQuery_entries.
    + destruct H as [H1 H2]. split; [exact H1|]. split; [exact H2|].
      now apply entriesQuery_throws.
  - intros v k E Hk. unfold parse in E.
    assert (Hobj : inputSchema op = ZodObject (shapeOf (inputSchema op)))
      by (destruct op; reflexivity).
    rewrite Hobj in E. eapply parsed_undeclared_absent; eauto.
Qed.

(** An undeclared key, [foo], goes out on the wire, before page as in
    the object, although the parsed value has lost it; an undeclared
    array goes out as its elements joined by commas. *)
Lemma C10_raw_params_entries_reach_the_query_witness :
  let op := Wallets_listDelegations sampleUuid
              (Some [ ("foo", JStr "bar"); ("page", JNum (NumInt 2));
                      ("pageSize", JNull) ]) in
  let op' := Wallets_list sampleUuid
               (Some [ ("name", JStr "main");
                       ("tags", JArr [JStr "a"; JNull; JNum (NumInt 3)]) ]) in
  (queriesRawEntries op = true
   /\ wfNumbers (JObj (options op)) = true
   /\ accepted op = true
   /\ entriesQuery (options op) = Some [("foo", "bar"); ("page", "2")]
   /\ parse (inputSchema op) (JObj (candidate op))
      = OK (JObj [ ("walletId", JStr sampleUuid); ("pageSize", JNull);
                   ("page", JNum (NumInt 2)) ])
   /\ calls (run nullClient op)
      = [mkRequest GET
           "/wallets/123e4567-e89b-12d3-a456-426614174000/delegations?foo=bar&page=2"
           JUndefined])
  /\ (queriesRawEntries op' = true
      /\ wfNumbers (JObj (options op')) = true
      /\ accepted op' = true
      /\ entriesQuery (options op') = Some [("name", "main"); ("tags", "a,,3")]
      /\ calls (run nullClient op')
         = [mkRequest GET
              "/business/123e4567-e89b-12d3-a456-426614174000/wallets?name=main&tags=a%2C%2C3"
              JUndefined]).
Proof.
  intros op op'. split.
  - repeat (split; [reflexivity|]).
    exact (proj1 (proj1 (C10_raw_params_entries_reach_the_query nullClient op
                           eq_refl eq_refl eq_refl))).
  - repeat (split; [reflexivity|]).
    exact (proj1 (proj1 (C10_raw_params_entries_reach_the_query nullClient op'
                           eq_refl eq_refl eq_refl))).
Defined.

(** C10 as stated fails: [page] has a value and the input schema accepts
    the object, yet nothing is appended to any query, because the call
    of [toString] on the value of [extra] throws. *)
Lemma C10_counterexample_unprintable_value_throws :
  let op := Wallets_list sampleUuid
              (Some [ ("page", JNum (NumInt 1));
                      ("extra", JObj [("toString", JNum (NumInt 1))]) ]) in
  accepted op = true
  /\ nullish (get (options op) "page") = false
  /\ outcome (run nullClient op) = ThrowTypeError
  /\ calls (run nullClient op) = [].
Proof. repeat split; reflexivity. Qed.

(** ** Validation of conforming data *)

Lemma js_equal_undefined_l (y : JsValue) : js_equal JUndefined y -> y = JUndefined.
Proof. intros H. now inversion H. Qed.

Lemma stringChecks_pass (p : list PathElem) (t : string) (cs : list StringCheck) :
  forallb (stringHolds t) cs = true -> flat_map (stringCheck p t) cs = [].
Proof.
  induction cs as [|c r IH]; simpl; auto. intros H.
  apply andb_prop in H. destruct H as [Hc Hr]. rewrite (IH Hr).
  destruct c; simpl in *. now rewrite Hc.
Qed.

Lemma numberChecks_pass (p : list PathElem) (n : JsNumber) (cs : list NumberCheck) :
  forallb (numberHolds n) cs = true -> flat_map (numberCheck p n) cs = [].
Proof.
  induction cs as [|c r IH]; simpl; auto. intros H.
  apply andb_prop in H. destruct H as [Hc Hr]. rewrite (IH Hr).
  destruct c; simpl in *; now rewrite Hc.
Qed.

Lemma parse_array_conforming (e : Schema) (p : list PathElem) (l : list JsValue) :
  Forall (fun x => forall q, exists y, _parse e q x = OK y /\ js_equal x y) l ->
  forall n, exists l',
    mergeArray (mapi (fun i x => _parse e (p ++ [Index i])%list x) n l) = OK l'
    /\ Forall2 js_equal l l'.
Proof.
  induction 1 as [|x r Hx Hr IH]; intros n; simpl.
  - exists []. auto.
  - destruct (Hx (p ++ [Index n])%list) as [y [Ey Hy]].
    destruct (IH (S n)) as [l' [El Hl]].
    rewrite Ey, El. exists (y :: l'). auto.
Qed.

Lemma has_key_true_lookup (k : string) (o : Obj) :
  has_key k o = true -> lookup k o = Some (get o k).
Proof.
  rewrite has_key_lookup. unfold get. destruct (lookup k o); auto; discriminate.
Qed.

Lemma has_key_false_lookup (k : string) (o : Obj) :
  has_key k o = false -> lookup k o = None.
Proof.
  rewrite has_key_lookup. destruct (lookup k o); auto; discriminate.
Qed.

Lemma has_key_false_get (k : string) (o : Obj) :
  has_key k o = false -> get o k = JUndefined.
Proof. intros H. unfold get. now rewrite has_key_false_lookup. Qed.

Lemma parse_fields_conforming (shape : list (string * Schema))
  (p : list PathElem) (o : Obj) :
  NoDup (map fst shape) ->
  ~ In "__proto__" (map fst shape) ->
  Forall (fun ks => exists y,
            _parse (snd ks) (p ++ [Key (fst ks)])%list (get o (fst ks)) = OK y
            /\ js_equal (get o (fst ks)) y) shape ->
  exists o',
    mergeObjectSync
      (map (fun ks => (fst ks,
                       _parse (snd ks) (p ++ [Key (fst ks)])%list
                         (get o (fst ks)),
                       has_key (fst ks) o)) shape) = OK o'
    /\ incl (keys o') (map fst shape)
    /\ NoDup (keys o')
    /\ forall k, In k (map fst shape) ->
                 opt_rel js_equal (lookup k o) (lookup k o').
Proof.
  induction shape as [|[k1 s1] rest IH]; intros Hnd Hproto Hall.
  - exists []. simpl. split; [reflexivity|]. split; [apply incl_refl|].
    split; [constructor|]. intros k [].
  - simpl in Hnd, Hproto. inversion Hnd as [|? ? Hnotin Hnd']; subst.
    inversion Hall as [|? ? [y1 [E1 J1]] Hall']; subst. simpl in E1, J1.
    destruct (IH Hnd' (fun H => Hproto (or_intror H)) Hall')
      as [o1 [Em [Hincl [Hnd1 Hlk]]]].
    assert (Hk1 : String.eqb k1 "__proto__" = false).
    { apply String.eqb_neq. intro; subst. apply Hproto. now left. }
    assert (Hnone : lookup k1 o1 = None).
    { apply lookup_None_notin. intro Hin. apply Hnotin. now apply Hincl. }
    cbn [map fst snd mergeObjectSync]. rewrite E1, Em, Hk1. cbn [negb andb].
    destruct (has_key k1 o) eqn:Hhas.
    + rewrite orb_true_r.
      exists ((k1, y1) :: o1). split; [reflexivity|]. split; [|split].
      * simpl. apply incl_cons; [now left | now apply incl_tl].
      * simpl. constructor; [now apply lookup_None_notin | assumption].
      * intros k [Hk|Hk].
        -- subst k. simpl. rewrite String.eqb_refl.
           rewrite (has_key_true_lookup _ _ Hhas). now constructor.
        -- simpl. destruct (String.eqb k k1) eqn:Ek; auto.
           apply String.eqb_eq in Ek. subst. contradiction.
    + rewrite (has_key_false_get _ _ Hhas) in J1.
      apply js_equal_undefined_l in J1. subst y1. cbn [negb orb].
      exists o1. split; [reflexivity|]. split; [|split]; auto.
      * now apply incl_tl.
      * intros k [Hk|Hk]; auto.
        subst k. rewrite Hnone, (has_key_false_lookup _ _ Hhas). constructor.
Qed.

Lemma parse_record_conforming (e : Schema) (p : list PathElem) (o : Obj) :
  NoDup (keys o) ->
  ~ In "__proto__" (keys o) ->
  Forall (fun kv => forall q, exists y,
            _parse e q (snd kv) = OK y /\ js_equal (snd kv) y) o ->
  exists o',
    mergeObjectSync
      (map (fun kv => (fst kv, _parse e (p ++ [Key (fst kv)])%list (snd kv),
                       true)) o) = OK o'
    /\ keys o' = keys o
    /\ forall k, opt_rel js_equal (lookup k o) (lookup k o').
Proof.
  induction o as [|[k1 v1] rest IH]; intros Hnd Hproto Hall.
  - exists []. simpl. split; [reflexivity|]. split; [reflexivity|].
    intros k. constructor.
  - simpl in Hnd, Hproto. inversion Hnd as [|? ? Hnotin Hnd']; subst.
    inversion Hall as [|? ? H1 Hall']; subst.
    destruct (H1 (p ++ [Key k1])%list) as [y1 [E1 J1]]. simpl in E1, J1.
    destruct (IH Hnd' (fun H => Hproto (or_intror H)) Hall')
      as [o1 [Em [Hkeys Hlk]]].
    assert (Hk1 : String.eqb k1 "__proto__" = false).
    { apply String.eqb_neq. intro; subst. apply Hproto. now left. }
    cbn [map fst snd mergeObjectSync]. rewrite E1, Em, Hk1, orb_true_r.
    cbn [negb andb].
    exists ((k1, y1) :: o1). split; [reflexivity|]. split.
    + simpl. now rewrite Hkeys.
    + intros k. simpl. destruct (String.eqb k k1); auto. now constructor.
Qed.

Lemma not_existsb_In (x : string) (l : list string) :
  existsb (String.eqb x) l = false -> ~ In x l.
Proof.
  intros H Hin. apply existsb_eqb_In in Hin. congruence.
Qed.

(** Data that conforms exactly to a schema is accepted by it, and comes
    back equal. *)
Theorem parse_conforming (s : Schema) :
  wfSchema s = true ->
  forall p x, conformsExactly s x = true ->
              exists y, _parse s p x = OK y /\ js_equal x y.
Proof.
  induction s as [cs|cs| |vs|e IHe|e IHe|sh IHsh|e IHe|e IHe] using Schema_ind';
    intros Hwf p x Hc; cbn [conformsExactly wfSchema] in Hwf, Hc.
  - destruct x; try discriminate Hc. cbn [_parse].
    rewrite stringChecks_pass by assumption. eexists; split; [reflexivity|].
    constructor.
  - destruct x as [| | |n| | |]; try discriminate Hc.
    apply andb_prop in Hc. destruct Hc as [Hn Hcs]. cbn [_parse].
    destruct n; try discriminate Hn;
      rewrite numberChecks_pass by assumption;
      (eexists; split; [reflexivity|constructor]).
  - destruct x; try discriminate Hc. eexists; split; [reflexivity|constructor].
  - destruct x; try discriminate Hc. cbn [_parse]. rewrite Hc.
    eexists; split; [reflexivity|constructor].
  - destruct x as [| | | | |l|]; try discriminate Hc. cbn [_parse].
    destruct (parse_array_conforming e p l) with (n := 0%nat) as [l' [El Hl]].
    { apply Forall_forall. intros x Hx q. apply IHe; auto.
      rewrite forallb_forall in Hc. auto. }
    rewrite El. eexists; split; [reflexivity|]. now constructor.
  - destruct x as [| | | | | |o]; try discriminate Hc. cbn [_parse].
    apply andb_prop in Hc. destruct Hc as [Hc Hvals].
    apply andb_prop in Hc. destruct Hc as [Hnd Hproto].
    apply nodupb_NoDup in Hnd.
    apply negb_true_iff, not_existsb_In in Hproto.
    destruct (parse_record_conforming e p o Hnd Hproto) as [o' [Em [Hk Hlk]]].
    { apply Forall_forall. intros kv Hkv q. apply IHe; auto.
      rewrite forallb_forall in Hvals. auto. }
    rewrite Em. eexists; split; [reflexivity|].
    constructor; auto. now rewrite Hk.
  - destruct x as [| | | | | |o]; try discriminate Hc. cbn [_parse].
    apply andb_prop in Hwf. destruct Hwf as [Hwf Hwfs].
    apply andb_prop in Hwf. destruct Hwf as [Hnds Hproto].
    apply nodupb_NoDup in Hnds.
    apply negb_true_iff, not_existsb_In in Hproto.
    apply andb_prop in Hc. destruct Hc as [Hc Hfields].
    apply andb_prop in Hc. destruct Hc as [Hnd Hsub].
    apply nodupb_NoDup in Hnd.
    destruct (parse_fields_conforming sh p o Hnds Hproto)
      as [o' [Em [Hincl [Hnd' Hlk]]]].
    { rewrite Forall_forall in IHsh. apply Forall_forall. intros ks Hks.
      apply IHsh; auto.
      - rewrite forallb_forall in Hwfs. auto.
      - rewrite forallb_forall in Hfields. auto. }
    rewrite Em. eexists; split; [reflexivity|].
    constructor; auto. intros k.
    destruct (in_dec string_dec k (map fst sh)) as [Hin|Hout]; auto.
    assert (H1 : lookup k o = None).
    { apply lookup_None_notin. intro Hk.
      rewrite forallb_forall in Hsub. apply Hsub in Hk.
      apply existsb_eqb_In in Hk. contradiction. }
    assert (H2 : lookup k o' = None).
    { apply lookup_None_notin. intro Hk. apply Hout. now apply Hincl. }
    rewrite H1, H2. constructor.
  - destruct x; cbn [_parse]; try (now apply IHe).
    eexists; split; [reflexivity|constructor].
  - destruct x; cbn [_parse]; try (now apply IHe).
    eexists; split; [reflexivity|constructor].
Qed.

(** C9: an object that conforms exactly to the Wallet schema (every
    declared field present and valid, nothing else) is accepted by
    [walletSchema.parse], and what comes back is equal to it. *)
Theorem C9_conforming_wallet_parses_to_itself (w : JsValue) :
  conformsExactly walletSchema w = true ->
  exists w', parse walletSchema w = OK w' /\ js_equal w w'.
Proof.
  intros H. apply parse_conforming; [reflexivity | exact H].
Qed.

Lemma C9_conforming_wallet_parses_to_itself_witness :
  conformsExactly walletSchema sampleWallet = true
  /\ exists w', parse walletSchema sampleWallet = OK w'
                /\ js_equal sampleWallet w'.
Proof.
  split; [reflexivity|].
  apply (C9_conforming_wallet_parses_to_itself sampleWallet). reflexivity.
Defined.

(** A wallet without [id] does not conform, and is refused. *)
Lemma wallet_without_id_is_refused :
  exists rest,
    parse walletSchema (JObj [("accountAddress", JStr "0x00")])
    = INVALID (mkIssue invalid_type [Key "id"] "Required" :: rest).
Proof. eexists. reflexivity. Qed.

(** [Wallets.get] then throws instead of returning the partial object. *)
Lemma get_refuses_wallet_without_id :
  exists rest,
    outcome (Wallets.get
               (fun _ => Resolved (JObj [("accountAddress", JStr "0x00")]))
               sampleUuid JUndefined)
    = ThrowZodError (mkIssue invalid_type [Key "id"] "Required" :: rest).
Proof. eexists. reflexivity. Qed.

(** ** Request bodies *)

Lemma jsonProps_cons (k : string) (x : JsValue) (r : Obj) :
  jsonProps (JObj ((k, x) :: r))
  = match x with
    | JUndefined => jsonProps (JObj r)
    | _ => (k, toJSON x) :: jsonProps (JObj r)
    end.
Proof. destruct x; reflexivity. Qed.

Lemma jsonProps_keys (o : Obj) : incl (keys (jsonProps (JObj o))) (keys o).
Proof.
  induction o as [|[k x] r IH].
  - apply incl_refl.
  - rewrite jsonProps_cons.
    destruct x; simpl;
      try (apply incl_cons; [now left | now apply incl_tl]);
      now apply incl_tl.
Qed.

(** A property is in the JSON text exactly when its value is not
    [undefined]. *)
Lemma jsonProps_lookup (k : string) (o : Obj) :
  NoDup (keys o) ->
  lookup k (jsonProps (JObj o))
  = match get o k with
    | JUndefined => None
    | x => Some (toJSON x)
    end.
Proof.
  induction o as [|[k' x] r IH]; intros Hnd; [reflexivity|].
  simpl in Hnd. inversion Hnd as [|? ? Hnotin Hnd']; subst.
  rewrite jsonProps_cons. unfold get in *. simpl lookup at 2.
  destruct (String.eqb k k') eqn:E.
  - apply String.eqb_eq in E. subst k'.
    assert (Hnone : lookup k (jsonProps (JObj r)) = None).
    { apply lookup_None_notin. intro Hin. apply Hnotin.
      now apply jsonProps_keys. }
    destruct x; simpl; rewrite ?String.eqb_refl; auto.
  - destruct x; simpl; rewrite ?E; auto.
Qed.

Lemma mergeObjectSync_NoDup (pairs : list (string * ParseReturn * bool)) :
  forall o, mergeObjectSync pairs = OK o ->
            NoDup (map (fun pr => fst (fst pr)) pairs) -> NoDup (keys o).
Proof.
  induction pairs as [|[[k r] a] rest IH]; simpl; intros o H Hnd.
  - inversion H. constructor.
  - inversion Hnd as [|? ? Hnotin Hnd']; subst.
    destruct r as [v|]; destruct (mergeObjectSync rest) as [o1|] eqn:Em;
      try discriminate H.
    specialize (IH o1 eq_refl Hnd').
    destruct (_ && _) in H; inversion H; subst; auto.
    simpl. constructor; auto.
    intro Hin. apply Hnotin. now apply (mergeObjectSync_keys rest o1).
Qed.

(** What an object schema returns is an object, with no key twice. *)
Lemma parsed_object_form (shape : list (string * Schema)) (p : list PathElem)
  (o : Obj) (v : JsValue) :
  _parse (ZodObject shape) p (JObj o) = OK v ->
  NoDup (map fst shape) ->
  exists o', v = JObj o' /\ NoDup (keys o').
Proof.
  cbn [_parse]. intros H Hnd.
  destruct (mergeObjectSync _) as [o'|] eqn:Hm; try discriminate H.
  inversion H; subst. exists o'. split; auto.
  apply (mergeObjectSync_NoDup _ _ Hm). now rewrite map_map.
Qed.

Ltac each_key Hk :=
  cbv beta iota delta [bodyFields] in Hk; simpl In in Hk;
  repeat (destruct Hk as [Hk|Hk]; [subst|]); try contradiction.

(** In the body an operation sends, each of those fields has the value
    the caller gave it. *)
Lemma body_field_value (client : IOneShotClient) (op : Operation)
  (r : Request) (k : string) :
  wf_obj (options op) ->
  lookup (idKey op) (options op) = None ->
  calls (run client op) = [r] ->
  In k (bodyFields op) ->
  exists o', body r = JObj o' /\ NoDup (keys o')
             /\ get o' k = get (options op) k.
Proof.
  intros Hwf Hid H Hk.
  destruct op as [b [p|]|b p|w i|w p|w|w p|w [p|]|w p|d|w t p
                 |b p|b [p|]|c|c p|c|c p];
    try (simpl in Hk; contradiction);
    simpl in Hwf, Hid;
    unfold_methods_in H;
    (destruct (parse _ _) as [v|es] eqn:E; [|discriminate H]).
  1-4: validated_fields E H; sent_request H; subst r;
       (eexists; split; [reflexivity|]);
       (split; [apply nodupb_NoDup; reflexivity|]);
       each_key Hk;
       match type of E with
       | _parse _ _ (JObj ?cand) = _ =>
           match goal with
           | |- get _ ?key = _ =>
               transitivity (get cand key);
               [ reflexivity
               | apply get_spread_source; [exact Hwf | reflexivity] ]
           end
       end.
  - match type of E with
    | parse ?s (JObj ?o) = OK _ =>
        let s' := eval cbv in s in
        change (_parse s' [] (JObj o) = OK v) in E
    end.
    destruct (parsed_object_form _ _ _ _ E) as [o' [Hv Hnd]];
      [apply nodupb_NoDup; reflexivity|].
    sent_request H; subst r; cbn [body];
      (exists o'; split; [exact Hv|]; split; [assumption|]);
      each_key Hk; cbn [options];
      match goal with
      | |- get _ ?key = _ =>
          change (get o' key) with (prop (JObj o') key);
          transitivity (get (spread [("businessId", JStr b)] p) key);
          [ eapply parsed_field_same;
            [ exact E | apply nodupb_NoDup; reflexivity
            | reflexivity | reflexivity | reflexivity ]
          | apply get_spread_source; [exact Hwf | reflexivity] ]
      end.
  - match type of E with
    | parse ?s (JObj ?o) = OK _ =>
        let s' := eval cbv in s in
        change (_parse s' [] (JObj o) = OK v) in E
    end.
    destruct (parsed_object_form _ _ _ _ E) as [o' [Hv Hnd]];
      [apply nodupb_NoDup; reflexivity|].
    sent_request H; subst r; cbn [body];
      (exists o'; split; [exact Hv|]; split; [assumption|]);
      each_key Hk; cbn [options];
      match goal with
      | |- get _ ?key = _ =>
          change (get o' key) with (prop (JObj o') key);
          eapply parsed_field_same;
          [ exact E | apply nodupb_NoDup; reflexivity
          | reflexivity | reflexivity | reflexivity ]
      end.
Qed.

(** C4, as amended: for every create or update operation (and
    [Wallets.transfer]) that reaches the transport, a body field is in the
    JSON text of the body exactly when the caller supplied it with a
    value other than [undefined], and it is there with that value; so an
    absent or undefined field is left out, while a field supplied as
    null, which the input schemas allow for their nullable fields, is
    sent as null. *)
Theorem C4_body_field_serialized_iff_defined
  (client : IOneShotClient) (op : Operation) (r : Request) (k : string) :
  wf_obj (options op) ->
  lookup (idKey op) (options op) = None ->
  calls (run client op) = [r] ->
  In k (bodyFields op) ->
  lookup k (jsonProps (body r))
  = match lookup k (options op) with
    | None | Some JUndefined => None
    | Some v => Some (toJSON v)
    end.
Proof.
  intros Hwf Hid H Hk.
  destruct (body_field_value client op r k Hwf Hid H Hk) as [o' [Hb [Hnd Hg]]].
  rewrite Hb, jsonProps_lookup by assumption. rewrite Hg.
  unfold get. destruct (lookup k (options op)) as [[]|]; reflexivity.
Qed.

Lemma C4_body_field_serialized_iff_defined_witness :
  let op := Wallets_update sampleUuid
              [("name", JStr "Ops"); ("description", JUndefined)] in
  let r := mkRequest PUT "/wallets/123e4567-e89b-12d3-a456-426614174000"
             (JObj [("name", JStr "Ops"); ("description", JUndefined)]) in
  wf_obj (options op)
  /\ lookup (idKey op) (options op) = None
  /\ calls (run nullClient op) = [r]
  /\ In "description" (bodyFields op)
  /\ lookup "description" (jsonProps (body r))
     = match lookup "description" (options op) with
       | None | Some JUndefined => None
       | Some v => Some (toJSON v)
       end.
Proof.
  intros op r.
  assert (Hwf : wf_obj (options op)) by (apply nodupb_NoDup; reflexivity).
  assert (Hin : In "description" (bodyFields op)) by (simpl; auto).
  split; [exact Hwf|]. split; [reflexivity|]. split; [reflexivity|].
  split; [exact Hin|].
  exact (C4_body_field_serialized_iff_defined nullClient op r "description"
           Hwf eq_refl eq_refl Hin).
Defined.

(** C4 as stated fails: [Wallets.update] called with [name] explicitly
    null sends a body whose JSON text has a null [name]. *)
Lemma C4_counterexample_null_name_is_sent :
  calls (Wallets.update nullClient sampleUuid [("name", JNull)])
  = [mkRequest PUT "/wallets/123e4567-e89b-12d3-a456-426614174000"
       (JObj [("name", JNull); ("description", JUndefined)])]
  /\ toJSON (JObj [("name", JNull); ("description", JUndefined)])
     = JObj [("name", JNull)]
  /\ lookup "name"
       (jsonProps (JObj [("name", JNull); ("description", JUndefined)]))
     = Some JNull.
Proof. repeat split; reflexivity. Qed.

(** ** Path identifiers and the body *)

(** The four Wallets operations with a body build it field by field from
    the validated parameters: it has exactly the fields of [bodyFields],
    each with the caller's value, and not the identifier. *)
Lemma wallets_request_body (client : IOneShotClient) (op : Operation)
  (r : Request) :
  match op with
  | Wallets_create _ _ | Wallets_update _ _ | Wallets_transfer _ _
  | Wallets_createDelegation _ _ => True
  | _ => False
  end ->
  wf_obj (options op) ->
  lookup (idKey op) (options op) = None ->
  calls (run client op) = [r] ->
  body r = JObj (map (fun k => (k, get (options op) k)) (bodyFields op))
  /\ ~ In (idKey op) (keys (map (fun k => (k, get (options op) k))
                              (bodyFields op))).
Proof.
  intros Hop Hwf Hid H.
  destruct op as [b [p|]|b p|w i|w p|w|w p|w [p|]|w p|d|w t p
                 |b p|b [p|]|c|c p|c|c p];
    try contradiction; simpl in Hwf, Hid;
    unfold_methods_in H;
    (destruct (parse _ _) as [v|es] eqn:E; [|discriminate H]);
    validated_fields E H;
    rewrite ?(get_spread_source "chainId"), ?(get_spread_source "name"),
      ?(get_spread_source "description"),
      ?(get_spread_source "destinationAccountAddress"),
      ?(get_spread_source "transferAmount"), ?(get_spread_source "memo"),
      ?(get_spread_source "startTime"), ?(get_spread_source "endTime"),
      ?(get_spread_source "contractAddresses"), ?(get_spread_source "methods"),
      ?(get_spread_source "delegationData") in H
      by (exact Hwf || reflexivity);
    sent_request H; subst r;
    (split; [reflexivity | simpl; intuition discriminate]).
Qed.

(** For every input [Wallets.create] accepts, the one request is a POST
    whose body has exactly the fields chainId, name and description. *)
Lemma Wallets_create_body (client : IOneShotClient) (businessId : string)
  (params : Obj) (r : Request) :
  wf_obj params ->
  lookup "businessId" params = None ->
  calls (Wallets.create client businessId params) = [r] ->
  r = mkRequest POST ("/business/" ++ businessId ++ "/wallets")
        (JObj [ ("chainId", get params "chainId");
                ("name", get params "name");
                ("description", get params "description") ]).
Proof.
  intros Hwf Hid H.
  unfold_methods_in H.
  destruct (parse _ _) as [v|es] eqn:E; [|discriminate H].
  validated_fields E H.
  rewrite !(get_spread_source "chainId"), !(get_spread_source "name"),
    !(get_spread_source "description") in H by (exact Hwf || reflexivity).
  rewrite !(get_spread_target "businessId") in H by exact Hid.
  change (get [("businessId", JStr businessId)] "businessId")
    with (JStr businessId) in H.
  cbn [ToString] in H.
  sent_request H; reflexivity.
Qed.

(** For every input [ContractEvents.create] accepts, the body of its
    POST is the whole validated object, and so has the businessId that
    is already in the path. *)
Lemma ContractEvents_create_body_has_businessId (client : IOneShotClient)
  (businessId : string) (params : Obj) (r : Request) :
  lookup "businessId" params = None ->
  calls (ContractEvents.create client businessId params) = [r] ->
  method r = POST
  /\ path r = "/business/" ++ businessId ++ "/events"
  /\ prop (body r) "businessId" = JStr businessId.
Proof.
  intros Hid H.
  unfold_methods_in H.
  destruct (parse _ _) as [v|es] eqn:E; [|discriminate H].
  assert (Hb : prop v "businessId" = JStr businessId).
  { match type of E with
    | parse ?s (JObj ?o) = OK _ =>
        let s' := eval cbv in s in
        change (_parse s' [] (JObj o) = OK v) in E
    end.
    erewrite parsed_field_same;
      [ | exact E | apply nodupb_NoDup; reflexivity
        | reflexivity | reflexivity | reflexivity ].
    now rewrite get_spread_target by exact Hid. }
  rewrite Hb in H. cbn [ToString] in H.
  sent_request H; cbn [method path body]; auto.
Qed.

(** C3 fails on the code: [ContractEvents.create], on a valid input,
    POSTs to /business/{businessId}/events a body that has the
    businessId as a field, and the JSON text of the body keeps it. *)
Theorem C3_ContractEvents_create_body_carries_businessId :
  let params := [ ("chainId", JNum (NumInt 1));
                  ("contractAddress",
                   JStr "0xA0b86991c6218b36c1d19D4a2e9Eb0cE3606eB48");
                  ("name", JStr "USDC transfers");
                  ("description", JStr "Transfers of USDC");
                  ("eventName", JStr "Transfer") ] in
  calls (ContractEvents.create nullClient sampleUuid params)
  = [mkRequest POST "/business/123e4567-e89b-12d3-a456-426614174000/events"
       (JObj (("businessId", JStr sampleUuid) :: params))]
  /\ lookup "businessId"
       (jsonProps (JObj (("businessId", JStr sampleUuid) :: params)))
     = Some (JStr sampleUuid).
Proof. split; reflexivity. Qed.

(** * Further properties of the schemas and of the clients *)

(** ** Parsing twice *)

Lemma stringChecks_empty (p : list PathElem) (t : string) (cs : list StringCheck) :
  flat_map (stringCheck p t) cs = [] -> forallb (stringHolds t) cs = true.
Proof.
  induction cs as [|c r IH]; simpl; auto. intros H.
  apply app_eq_nil in H. destruct H as [Hc Hr]. rewrite (IH Hr).
  destruct c; simpl in *. destruct (uuidRegex t); [reflexivity|discriminate].
Qed.

Lemma numberChecks_empty (p : list PathElem) (n : JsNumber) (cs : list NumberCheck) :
  flat_map (numberCheck p n) cs = [] -> forallb (numberHolds n) cs = true.
Proof.
  induction cs as [|c r IH]; simpl; auto. intros H.
  apply app_eq_nil in H. destruct H as [Hc Hr]. rewrite (IH Hr).
  destruct c; simpl in *;
    match type of Hc with
    | (if ?b then _ else _) = _ => destruct b; [reflexivity|discriminate]
    end.
Qed.

Lemma checked_OK (v y : JsValue) (issues : list ZodIssue) :
  checked v issues = OK y -> issues = [] /\ y = v.
Proof.
  destruct issues; simpl; intros H; [now inversion H | discriminate].
Qed.

Lemma parse_array_again (e : Schema) (p q : list PathElem) :
  (forall p q x y, _parse e p x = OK y -> _parse e q y = OK y) ->
  forall l n m l',
    mergeArray (mapi (fun i x => _parse e (p ++ [Index i])%list x) n l) = OK l' ->
    mergeArray (mapi (fun i x => _parse e (q ++ [Index i])%list x) m l') = OK l'.
Proof.
  intros He. induction l as [|x r IH]; intros n m l' H; simpl in H.
  - inversion H. reflexivity.
  - destruct (_parse e (p ++ [Index n])%list x) as [y|] eqn:Ey;
      destruct (mergeArray _) as [l1|] eqn:El; try discriminate.
    inversion H; subst. simpl.
    rewrite (He _ (q ++ [Index m])%list _ _ Ey), (IH _ (S m) _ El).
    reflexivity.
Qed.

Lemma parse_record_again (e : Schema) (p q : list PathElem) :
  (forall p q x y, _parse e p x = OK y -> _parse e q y = OK y) ->
  forall o o',
    mergeObjectSync
      (map (fun kv => (fst kv, _parse e (p ++ [Key (fst kv)])%list (snd kv),
                       true)) o) = OK o' ->
    mergeObjectSync
      (map (fun kv => (fst kv, _parse e (q ++ [Key (fst kv)])%list (snd kv),
                       true)) o') = OK o'.
Proof.
  intros He. induction o as [|[k v] r IH]; intros o' H; simpl in H.
  - inversion H. reflexivity.
  - destruct (_parse e (p ++ [Key k])%list v) as [y|] eqn:Ey;
      destruct (mergeObjectSync _) as [o1|] eqn:Em; try discriminate.
    specialize (IH o1 eq_refl).
    destruct (String.eqb k "__proto__") eqn:Ek; simpl in H.
    + inversion H; subst. exact IH.
    + rewrite orb_true_r in H. inversion H; subst.
      cbn [map fst snd mergeObjectSync].
      rewrite (He _ (q ++ [Key k])%list _ _ Ey), IH, Ek, orb_true_r.
      reflexivity.
Qed.

(** Parsing the declared fields of [O] again gives [o1] when [o1] came
    out of parsing them on [o] and [O] reads as [o1] on these fields. *)
Lemma parse_fields_again (p q : list PathElem) (o O : Obj) :
  forall (shape : list (string * Schema)) (o1 : Obj),
    Forall (fun ks => forall p q x y,
              _parse (snd ks) p x = OK y -> _parse (snd ks) q y = OK y) shape ->
    NoDup (map fst shape) ->
    ~ In "__proto__" (map fst shape) ->
    mergeObjectSync
      (map (fun ks => (fst ks,
                       _parse (snd ks) (p ++ [Key (fst ks)])%list
                         (get o (fst ks)),
                       has_key (fst ks) o)) shape) = OK o1 ->
    (forall k, In k (map fst shape) -> lookup k O = lookup k o1) ->
    mergeObjectSync
      (map (fun ks => (fst ks,
                       _parse (snd ks) (q ++ [Key (fst ks)])%list
                         (get O (fst ks)),
                       has_key (fst ks) O)) shape) = OK o1.
Proof.
  induction shape as [|[k1 s1] rest IH]; intros o1 Hall Hnd Hproto Hm Hagree.
  - exact Hm.
  - cbn [map fst snd mergeObjectSync] in Hm |- *.
    inversion Hall as [|? ? H1 Hall']; subst. simpl in H1.
    simpl in Hnd. inversion Hnd as [|? ? Hnotin Hnd']; subst.
    destruct (_parse s1 (p ++ [Key k1])%list (get o k1)) as [y1|] eqn:E1;
      destruct (mergeObjectSync _) as [o2|] eqn:E2; try discriminate Hm.
    assert (Hk1 : String.eqb k1 "__proto__" = false).
    { apply String.eqb_neq. intro; subst. apply Hproto. now left. }
    assert (Hnone : lookup k1 o2 = None).
    { apply lookup_None_notin. intro Hin.
      apply (mergeObjectSync_keys _ _ E2) in Hin.
      rewrite map_map in Hin. contradiction. }
    rewrite Hk1 in Hm. cbn [negb andb] in Hm.
    assert (Hrest : forall o1',
               (forall k, In k (map fst rest) -> lookup k o1 = lookup k o1') ->
               forall k, In k (map fst rest) -> lookup k O = lookup k o1').
    { intros o1' Ho k Hk. rewrite <- Ho by assumption.
      apply Hagree. now right. }
    pose proof (Hagree k1 (or_introl eq_refl)) as Hk1O.
    destruct (negb match y1 with JUndefined => true | _ => false end
              || has_key k1 o) eqn:Ekeep; inversion Hm; subst o1; clear Hm.
    + simpl in Hk1O. rewrite String.eqb_refl in Hk1O.
      assert (HgetO : get O k1 = y1) by (unfold get; now rewrite Hk1O).
      assert (HhasO : has_key k1 O = true)
        by (rewrite has_key_lookup; now rewrite Hk1O).
      rewrite HgetO, HhasO, (H1 _ (q ++ [Key k1])%list _ _ E1).
      rewrite (IH o2 Hall' Hnd' (fun H => Hproto (or_intror H)) eq_refl).
      * rewrite Hk1, orb_true_r. reflexivity.
      * apply Hrest. intros k Hk. simpl.
        destruct (String.eqb k k1) eqn:Ek; auto.
        apply String.eqb_eq in Ek. subst. contradiction.
    + apply orb_false_elim in Ekeep. destruct Ekeep as [Hy Hhas].
      assert (y1 = JUndefined) by (destruct y1; simpl in Hy; congruence).
      subst y1. rewrite Hnone in Hk1O.
      assert (HgetO : get O k1 = JUndefined) by (unfold get; now rewrite Hk1O).
      assert (HhasO : has_key k1 O = false)
        by (rewrite has_key_lookup; now rewrite Hk1O).
      rewrite HgetO, HhasO, (H1 _ (q ++ [Key k1])%list _ _ E1).
      rewrite (IH o2 Hall' Hnd' (fun H => Hproto (or_intror H)) eq_refl).
      * rewrite Hk1. reflexivity.
      * apply Hrest. auto.
Qed.

Lemma existsb_false_notin (x : string) (l : list string) :
  negb (existsb (String.eqb x) l) = true -> ~ In x l.
Proof.
  intros H. apply not_existsb_In. now apply negb_true_iff.
Qed.

(** Validation is idempotent: what a schema returned, it accepts and
    returns unchanged. *)
Theorem parse_idempotent (s : Schema) :
  wfSchema s = true ->
  forall p q x y, _parse s p x = OK y -> _parse s q y = OK y.
Proof.
  induction s as [cs|cs| |vs|e IHe|e IHe|sh IHsh|e IHe|e IHe] using Schema_ind';
    intros Hwf p q x y H; cbn [wfSchema] in Hwf; cbn [_parse] in H.
  - destruct x; try discriminate H.
    apply checked_OK in H. destruct H as [Hi ->]. cbn [_parse].
    rewrite (stringChecks_pass q); [reflexivity|].
    eapply stringChecks_empty; eauto.
  - destruct x as [| | |n| | |]; try discriminate H.
    destruct n; try discriminate H;
      apply checked_OK in H; destruct H as [Hi ->]; cbn [_parse];
      (rewrite (numberChecks_pass q);
       [reflexivity | eapply numberChecks_empty; eauto]).
  - destruct x; try discriminate H. inversion H; subst. reflexivity.
  - destruct x; try discriminate H.
    destruct (existsb _ _) eqn:E; inversion H; subst. cbn [_parse].
    now rewrite E.
  - destruct x as [| | | | |l|]; try discriminate H.
    destruct (mergeArray _) as [l'|] eqn:El; try discriminate H.
    inversion H; subst. cbn [_parse].
    rewrite (parse_array_again e p q (IHe Hwf) l 0%nat 0%nat l' El).
    reflexivity.
  - destruct x as [| | | | | |o]; try discriminate H.
    destruct (mergeObjectSync _) as [o'|] eqn:Em; try discriminate H.
    inversion H; subst. cbn [_parse].
    rewrite (parse_record_again e p q (IHe Hwf) o o' Em). reflexivity.
  - destruct x as [| | | | | |o]; try discriminate H.
    destruct (mergeObjectSync _) as [o'|] eqn:Em; try discriminate H.
    inversion H; subst. cbn [_parse].
    apply andb_prop in Hwf. destruct Hwf as [Hwf Hwfs].
    apply andb_prop in Hwf. destruct Hwf as [Hnds Hproto].
    apply nodupb_NoDup in Hnds. apply existsb_false_notin in Hproto.
    rewrite (parse_fields_again p q o o' sh o'); auto.
    rewrite Forall_forall in IHsh. apply Forall_forall. intros ks Hks.
    apply IHsh; auto. rewrite forallb_forall in Hwfs. auto.
  - assert (Hy : _parse e q y = OK y \/ y = JUndefined).
    { destruct x; try (left; now apply (IHe Hwf p q _ _ H)).
      right. now inversion H. }
    destruct Hy as [Hy| ->]; [|reflexivity].
    destruct y; cbn [_parse]; auto.
  - assert (Hy : _parse e q y = OK y \/ y = JNull).
    { destruct x; try (left; now apply (IHe Hwf p q _ _ H)).
      right. now inversion H. }
    destruct Hy as [Hy| ->]; [|reflexivity].
    destruct y; cbn [_parse]; auto.
Qed.

(** ** What [parse] returns conforms *)

Lemma NoDup_nodupb (l : list string) : NoDup l -> nodupb l = true.
Proof.
  induction 1 as [|x r Hx Hr IH]; simpl; auto.
  rewrite IH, andb_true_r. apply negb_true_iff.
  destruct (existsb (String.eqb x) r) eqn:E; auto.
  apply existsb_eqb_In in E. contradiction.
Qed.

Lemma wfValue_get (o : Obj) (k : string) :
  wfValue (JObj o) = true -> wfValue (get o k) = true.
Proof.
  cbn [wfValue]. intros H. apply andb_prop in H. destruct H as [_ H].
  unfold get. induction o as [|[k' v] r IH]; simpl in *; auto.
  apply andb_prop in H. destruct H as [Hv Hr].
  destruct (String.eqb k k'); auto.
Qed.

(** Each declared field of a parsed object holds what its schema made of
    the input's field. *)
Lemma parsed_fields_values (p : list PathElem) (o : Obj) :
  forall (shape : list (string * Schema)) (o' : Obj),
    mergeObjectSync
      (map (fun ks => (fst ks,
                       _parse (snd ks) (p ++ [Key (fst ks)])%list
                         (get o (fst ks)),
                       has_key (fst ks) o)) shape) = OK o' ->
    NoDup (map fst shape) ->
    ~ In "__proto__" (map fst shape) ->
    forall ks, In ks shape ->
               _parse (snd ks) (p ++ [Key (fst ks)])%list (get o (fst ks))
               = OK (get o' (fst ks)).
Proof.
  induction shape as [|[k1 s1] rest IH]; intros o' Hm Hnd Hproto ks Hin;
    [contradiction|].
  cbn [map fst snd mergeObjectSync] in Hm.
  simpl in Hnd. inversion Hnd as [|? ? Hnotin Hnd']; subst.
  destruct (_parse s1 (p ++ [Key k1])%list (get o k1)) as [y1|] eqn:E1;
    destruct (mergeObjectSync _) as [o2|] eqn:E2; try discriminate Hm.
  assert (Hk1 : String.eqb k1 "__proto__" = false).
  { apply String.eqb_neq. intro; subst. apply Hproto. now left. }
  assert (Hnone : lookup k1 o2 = None).
  { apply lookup_None_notin. intro Hin2.
    apply (mergeObjectSync_keys _ _ E2) in Hin2.
    rewrite map_map in Hin2. contradiction. }
  rewrite Hk1 in Hm. cbn [negb andb] in Hm.
  destruct Hin as [<-|Hin]; cbn [fst snd].
  - rewrite E1. f_equal.
    destruct (negb match y1 with JUndefined => true | _ => false end
              || has_key k1 o) eqn:Ekeep; inversion Hm; subst o'.
    + unfold get. simpl. now rewrite String.eqb_refl.
    + apply orb_false_elim in Ekeep. destruct Ekeep as [Hy _].
      unfold get. rewrite Hnone. destruct y1; simpl in Hy; congruence.
  - rewrite (IH o2 eq_refl Hnd' (fun H => Hproto (or_intror H)) ks Hin).
    f_equal.
    assert (Hne : String.eqb (fst ks) k1 = false).
    { apply String.eqb_neq. intro Heq. apply Hnotin. rewrite <- Heq.
      now apply in_map. }
    destruct (_ || _) in Hm; inversion Hm; subst o'; auto.
    unfold get. simpl. now rewrite Hne.
Qed.

Lemma parse_array_sound (e : Schema) (p : list PathElem) :
  forall l n l',
    Forall (fun x => forall q y, _parse e q x = OK y ->
                                 conformsExactly e y = true) l ->
    mergeArray (mapi (fun i x => _parse e (p ++ [Index i])%list x) n l) = OK l' ->
    forallb (conformsExactly e) l' = true.
Proof.
  induction l as [|x r IH]; intros n l' Hall H; simpl in H.
  - now inversion H.
  - inversion Hall as [|? ? Hx Hr]; subst.
    destruct (_parse e (p ++ [Index n])%list x) as [y|] eqn:Ey;
      destruct (mergeArray _) as [l1|] eqn:El; try discriminate.
    inversion H; subst. simpl.
    rewrite (Hx _ _ Ey), (IH _ _ Hr El). reflexivity.
Qed.

Lemma parse_record_sound (e : Schema) (p : list PathElem) :
  forall o o',
    NoDup (keys o) ->
    Forall (fun kv => forall q y, _parse e q (snd kv) = OK y ->
                                  conformsExactly e y = true) o ->
    mergeObjectSync
      (map (fun kv => (fst kv, _parse e (p ++ [Key (fst kv)])%list (snd kv),
                       true)) o) = OK o' ->
    NoDup (keys o') /\ incl (keys o') (keys o)
    /\ ~ In "__proto__" (keys o')
    /\ forallb (fun kv => conformsExactly e (snd kv)) o' = true.
Proof.
  induction o as [|[k v] r IH]; intros o' Hnd Hall H; simpl in H.
  - inversion H; subst. simpl.
    split; [constructor|]. split; [apply incl_refl|]. split; auto.
  - inversion Hall as [|? ? Hx Hr]; subst. simpl in Hx.
    simpl in Hnd. inversion Hnd as [|? ? Hnotin Hnd']; subst.
    destruct (_parse e (p ++ [Key k])%list v) as [y|] eqn:Ey;
      destruct (mergeObjectSync _) as [o1|] eqn:Em; try discriminate.
    destruct (IH o1 Hnd' Hr eq_refl) as [H1 [H2 [H3 H4]]].
    destruct (String.eqb k "__proto__") eqn:Ek; simpl in H.
    + inversion H; subst. repeat split; auto. now apply incl_tl.
    + rewrite orb_true_r in H. inversion H; subst. simpl.
      split; [|split; [|split]].
      * constructor; auto.
      * apply incl_cons; [now left | now apply incl_tl].
      * intros [Heq|Hin]; auto. subst. now rewrite String.eqb_refl in Ek.
      * now rewrite (Hx _ _ Ey), H4.
Qed.

Lemma notin_existsb (x : string) (l : list string) :
  ~ In x l -> negb (existsb (String.eqb x) l) = true.
Proof.
  intros H. apply negb_true_iff.
  destruct (existsb (String.eqb x) l) eqn:E; auto.
  apply existsb_eqb_In in E. contradiction.
Qed.

(** Whatever a schema returns conforms exactly to it: every declared
    field is valid and no other property is left. *)
Theorem parse_sound (s : Schema) :
  wfSchema s = true ->
  forall p x y, wfValue x = true -> _parse s p x = OK y ->
                conformsExactly s y = true.
Proof.
  induction s as [cs|cs| |vs|e IHe|e IHe|sh IHsh|e IHe|e IHe] using Schema_ind';
    intros Hwf p x y Hx H; cbn [wfSchema] in Hwf; cbn [_parse] in H.
  - destruct x; try discriminate H.
    apply checked_OK in H. destruct H as [Hi ->]. cbn [conformsExactly].
    eapply stringChecks_empty; eauto.
  - destruct x as [| | |n| | |]; try discriminate H.
    destruct n; try discriminate H;
      apply checked_OK in H; destruct H as [Hi ->]; cbn [conformsExactly];
      apply andb_true_intro; (split; [reflexivity|]);
      eapply numberChecks_empty; eauto.
  - destruct x; try discriminate H. inversion H; subst. reflexivity.
  - destruct x; try discriminate H.
    destruct (existsb _ _) eqn:E; inversion H; subst. exact E.
  - destruct x as [| | | | |l|]; try discriminate H.
    destruct (mergeArray _) as [l'|] eqn:El; try discriminate H.
    inversion H; subst. cbn [conformsExactly].
    eapply parse_array_sound; [|exact El].
    cbn [wfValue] in Hx. rewrite forallb_forall in Hx.
    apply Forall_forall. intros x Hin q y Hy. eapply IHe; eauto.
  - destruct x as [| | | | | |o]; try discriminate H.
    destruct (mergeObjectSync _) as [o'|] eqn:Em; try discriminate H.
    inversion H; subst. cbn [conformsExactly].
    cbn [wfValue] in Hx. apply andb_prop in Hx. destruct Hx as [Hnd Hvals].
    apply nodupb_NoDup in Hnd. rewrite forallb_forall in Hvals.
    destruct (parse_record_sound e p o o' Hnd) as [H1 [H2 [H3 H4]]]; auto.
    { apply Forall_forall. intros kv Hin q y Hy. eapply IHe; eauto. }
    now rewrite (NoDup_nodupb _ H1), (notin_existsb _ _ H3), H4.
  - destruct x as [| | | | | |o]; try discriminate H.
    destruct (mergeObjectSync _) as [o'|] eqn:Em; try discriminate H.
    inversion H; subst. cbn [conformsExactly].
    apply andb_prop in Hwf. destruct Hwf as [Hwf Hwfs].
    apply andb_prop in Hwf. destruct Hwf as [Hnds Hproto].
    apply nodupb_NoDup in Hnds. apply existsb_false_notin in Hproto.
    rewrite forallb_forall in Hwfs.
    assert (Hnd' : NoDup (keys o')).
    { apply (mergeObjectSync_NoDup _ _ Em). now rewrite map_map. }
    assert (Hincl : incl (keys o') (map fst sh)).
    { pose proof (mergeObjectSync_keys _ _ Em) as Hk.
      now rewrite map_map in Hk. }
    rewrite (NoDup_nodupb _ Hnd'). cbn [andb].
    apply andb_true_intro. split.
    + apply forallb_forall. intros k Hk. apply existsb_eqb_In. auto.
    + apply forallb_forall. intros ks Hks.
      rewrite Forall_forall in IHsh.
      eapply (IHsh ks Hks); auto.
      * apply (wfValue_get o (fst ks) Hx).
      * apply (parsed_fields_values p o sh o' Em Hnds Hproto ks Hks).
  - destruct x; cbn [conformsExactly];
      try (pose proof (IHe Hwf p _ _ Hx H) as Hy; destruct y; auto).
    now inversion H.
  - destruct x; cbn [conformsExactly];
      try (pose proof (IHe Hwf p _ _ Hx H) as Hy; destruct y; auto).
    now inversion H.
Qed.

(** ** The declared schemas *)

Lemma declaredSchemas_wf (s : Schema) :
  In s declaredSchemas -> wfSchema s = true.
Proof.
  assert (H : forallb wfSchema declaredSchemas = true) by reflexivity.
  rewrite forallb_forall in H. apply H.
Qed.

(** Validation with any exported schema is idempotent: the value a
    schema returned is accepted by the same schema and returned
    unchanged. *)
Theorem declared_schema_parse_idempotent (s : Schema) (x y : JsValue) :
  In s declaredSchemas ->
  parse s x = OK y ->
  parse s y = OK y.
Proof.
  intros Hs H. unfold parse in *.
  eapply parse_idempotent; eauto using declaredSchemas_wf.
Qed.

Lemma declared_schema_parse_idempotent_witness :
  let x := JObj [ ("extra", JBool true); ("data", JStr "0x01");
                  ("signature", JStr "0xabcd") ] in
  let y := JObj [ ("signature", JStr "0xabcd"); ("data", JStr "0x01") ] in
  In signatureResponseSchema declaredSchemas
  /\ parse signatureResponseSchema x = OK y
  /\ parse signatureResponseSchema y = OK y.
Proof.
  intros x y.
  assert (Hin : In signatureResponseSchema declaredSchemas)
    by (unfold declaredSchemas; simpl; auto 30).
  split; [exact Hin|]. split; [reflexivity|].
  exact (declared_schema_parse_idempotent signatureResponseSchema x y
           Hin eq_refl).
Defined.

(** Whatever an exported schema returns conforms exactly to it: every
    declared field is present where required and valid, and no property
    the schema does not declare is left, at any depth. *)
Theorem declared_schema_parse_returns_conforming (s : Schema) (x y : JsValue) :
  In s declaredSchemas ->
  wfValue x = true ->
  parse s x = OK y ->
  conformsExactly s y = true.
Proof.
  intros Hs Hx H. unfold parse in H.
  eapply parse_sound; eauto using declaredSchemas_wf.
Qed.

Lemma declared_schema_parse_returns_conforming_witness :
  let x := JObj [ ("extra", JBool true); ("data", JStr "0x01");
                  ("signature", JStr "0xabcd") ] in
  let y := JObj [ ("signature", JStr "0xabcd"); ("data", JStr "0x01") ] in
  In signatureResponseSchema declaredSchemas
  /\ wfValue x = true
  /\ parse signatureResponseSchema x = OK y
  /\ conformsExactly signatureResponseSchema x = false
  /\ conformsExactly signatureResponseSchema y = true.
Proof.
  intros x y.
  assert (Hin : In signatureResponseSchema declaredSchemas)
    by (unfold declaredSchemas; simpl; auto 30).
  split; [exact Hin|]. split; [reflexivity|]. split; [reflexivity|].
  split; [reflexivity|].
  exact (declared_schema_parse_returns_conforming signatureResponseSchema x y
           Hin eq_refl eq_refl).
Defined.

(** Conversely, data that conforms exactly to an exported schema is
    accepted by it and comes back equal. *)
Theorem declared_schema_accepts_conforming (s : Schema) (x : JsValue) :
  In s declaredSchemas ->
  conformsExactly s x = true ->
  exists y, parse s x = OK y /\ js_equal x y.
Proof.
  intros Hs Hx. unfold parse.
  apply parse_conforming; auto using declaredSchemas_wf.
Qed.

Lemma declared_schema_accepts_conforming_witness :
  let x := JObj [ ("removed", JBool false); ("eventName", JStr "Transfer");
                  ("blockNumber", JNum (NumInt 19000000));
                  ("transactionHash", JStr "0xfeed");
                  ("logIndex", JNum (NumInt 3));
                  ("topics", JObj [("from", JStr "0x01"); ("to", JStr "0x02")]) ] in
  In contractEventLogSchema declaredSchemas
  /\ conformsExactly contractEventLogSchema x = true
  /\ exists y, parse contractEventLogSchema x = OK y /\ js_equal x y.
Proof.
  intros x.
  assert (Hin : In contractEventLogSchema declaredSchemas)
    by (unfold declaredSchemas; simpl; auto 30).
  split; [exact Hin|]. split; [reflexivity|].
  exact (declared_schema_accepts_conforming contractEventLogSchema x
           Hin eq_refl).
Defined.

(** ** Acceptance does not depend on the issue path *)

Lemma parse_array_path (e : Schema) (p q : list PathElem) :
  (forall p q x y, _parse e p x = OK y -> _parse e q x = OK y) ->
  forall l n m l',
    mergeArray (mapi (fun i x => _parse e (p ++ [Index i])%list x) n l) = OK l' ->
    mergeArray (mapi (fun i x => _parse e (q ++ [Index i])%list x) m l) = OK l'.
Proof.
  intros He. induction l as [|x r IH]; intros n m l' H; simpl in *; auto.
  destruct (_parse e (p ++ [Index n])%list x) as [y|] eqn:Ey;
    destruct (mergeArray _) as [l1|] eqn:El; try discriminate.
  rewrite (He _ (q ++ [Index m])%list _ _ Ey), (IH _ (S m) _ El). exact H.
Qed.

Lemma parse_record_path (e : Schema) (p q : list PathElem) :
  (forall p q x y, _parse e p x = OK y -> _parse e q x = OK y) ->
  forall o o',
    mergeObjectSync
      (map (fun kv => (fst kv, _parse e (p ++ [Key (fst kv)])%list (snd kv),
                       true)) o) = OK o' ->
    mergeObjectSync
      (map (fun kv => (fst kv, _parse e (q ++ [Key (fst kv)])%list (snd kv),
                       true)) o) = OK o'.
Proof.
  intros He. induction o as [|[k v] r IH]; intros o' H; simpl in *; auto.
  destruct (_parse e (p ++ [Key k])%list v) as [y|] eqn:Ey;
    destruct (mergeObjectSync _) as [o1|] eqn:Em; try discriminate.
  rewrite (He _ (q ++ [Key k])%list _ _ Ey), (IH _ eq_refl). exact H.
Qed.

Lemma parse_fields_path (p q : list PathElem) (o : Obj) :
  forall (shape : list (string * Schema)) (o' : Obj),
    Forall (fun ks => forall p q x y,
              _parse (snd ks) p x = OK y -> _parse (snd ks) q x = OK y) shape ->
    mergeObjectSync
      (map (fun ks => (fst ks,
                       _parse (snd ks) (p ++ [Key (fst ks)])%list
                         (get o (fst ks)),
                       has_key (fst ks) o)) shape) = OK o' ->
    mergeObjectSync
      (map (fun ks => (fst ks,
                       _parse (snd ks) (q ++ [Key (fst ks)])%list
                         (get o (fst ks)),
                       has_key (fst ks) o)) shape) = OK o'.
Proof.
  induction shape as [|[k1 s1] rest IH]; intros o' Hall H; simpl in *; auto.
  inversion Hall as [|? ? H1 Hall']; subst. simpl in H1.
  destruct (_parse s1 (p ++ [Key k1])%list (get o k1)) as [y|] eqn:Ey;
    destruct (mergeObjectSync _) as [o1|] eqn:Em; try discriminate.
  rewrite (H1 _ (q ++ [Key k1])%list _ _ Ey), (IH _ Hall' eq_refl). exact H.
Qed.

(** The path only labels the issues: what a schema accepts at one path
    it accepts, with the same result, at any other. *)
Lemma parse_path_irrelevant (s : Schema) :
  forall p q x y, _parse s p x = OK y -> _parse s q x = OK y.
Proof.
  induction s as [cs|cs| |vs|e IHe|e IHe|sh IHsh|e IHe|e IHe] using Schema_ind';
    intros p q x y H; cbn [_parse] in H |- *.
  - destruct x; try discriminate H.
    apply checked_OK in H. destruct H as [Hi ->].
    rewrite (stringChecks_pass q); [reflexivity|].
    eapply stringChecks_empty; eauto.
  - destruct x as [| | |n| | |]; try discriminate H.
    destruct n; try discriminate H;
      apply checked_OK in H; destruct H as [Hi ->];
      (rewrite (numberChecks_pass q);
       [reflexivity | eapply numberChecks_empty; eauto]).
  - destruct x; try discriminate H. exact H.
  - destruct x; try discriminate H.
    destruct (existsb _ _); [exact H | discriminate H].
  - destruct x as [| | | | |l|]; try discriminate H.
    destruct (mergeArray _) as [l'|] eqn:El; try discriminate H.
    now rewrite (parse_array_path e p q IHe l 0%nat 0%nat l' El).
  - destruct x as [| | | | | |o]; try discriminate H.
    destruct (mergeObjectSync _) as [o'|] eqn:Em; try discriminate H.
    now rewrite (parse_record_path e p q IHe o o' Em).
  - destruct x as [| | | | | |o]; try discriminate H.
    destruct (mergeObjectSync _) as [o'|] eqn:Em; try discriminate H.
    now rewrite (parse_fields_path p q o sh o' IHsh Em).
  - destruct x; eauto.
  - destruct x; eauto.
Qed.

Lemma rejects_at_any_path (s : Schema) (x : JsValue) (p : list PathElem) :
  rejects s x = true -> exists es, _parse s p x = INVALID es.
Proof.
  unfold rejects, parse. intros H.
  destruct (_parse s p x) as [y|es] eqn:E; [|eauto].
  rewrite (parse_path_irrelevant s p [] x y E) in H. discriminate.
Qed.

Lemma fieldSchema_In (k : string) (s : Schema) (shape : list (string * Schema)) :
  fieldSchema k shape = Some s -> In (k, s) shape.
Proof.
  induction shape as [|[k' s'] r IH]; simpl; [discriminate|].
  destruct (String.eqb k k') eqn:E; auto.
  intros H. inversion H; subst. apply String.eqb_eq in E. subst. now left.
Qed.

(** One field that its schema refuses makes the object schema refuse the
    object, and the issues of the field are among those reported. *)
Lemma object_field_invalid (shape : list (string * Schema)) (p : list PathElem)
  (o : Obj) (ks : string * Schema) (es : list ZodIssue) :
  In ks shape ->
  _parse (snd ks) (p ++ [Key (fst ks)])%list (get o (fst ks)) = INVALID es ->
  exists es', _parse (ZodObject shape) p (JObj o) = INVALID es' /\ incl es es'.
Proof.
  intros Hin Hf. cbn [_parse].
  assert (H : exists es',
             mergeObjectSync
               (map (fun ks => (fst ks,
                                _parse (snd ks) (p ++ [Key (fst ks)])%list
                                  (get o (fst ks)),
                                has_key (fst ks) o)) shape) = INVALID es'
             /\ incl es es').
  { induction shape as [|[k1 s1] rest IH]; [contradiction|].
    cbn [map fst snd mergeObjectSync].
    destruct Hin as [<-|Hin].
    - cbn [fst snd] in Hf. rewrite Hf.
      destruct (mergeObjectSync _) as [o1|js].
      + eexists; split; [reflexivity | apply incl_refl].
      + eexists; split; [reflexivity | now apply incl_appl, incl_refl].
    - destruct (IH Hin) as [es' [Em Hincl]]. rewrite Em.
      destruct (_parse s1 _ _) as [y|es1].
      + eexists; split; [reflexivity | assumption].
      + eexists; split; [reflexivity | now apply incl_appr]. }
  destruct H as [es' [Em Hincl]]. rewrite Em. eauto.
Qed.

Lemma inputSchema_is_object (op : Operation) :
  inputSchema op = ZodObject (shapeOf (inputSchema op)).
Proof. destruct op; reflexivity. Qed.

Lemma outputSchema_is_object (op : Operation) (s : Schema) :
  outputSchema op = Some s -> s = ZodObject (shapeOf s).
Proof. destruct op; intros H; inversion H; reflexivity. Qed.

Lemma outputSchema_wf (op : Operation) (s : Schema) :
  outputSchema op = Some s -> wfSchema s = true.
Proof. destruct op; intros H; inversion H; reflexivity. Qed.

(** ** The input gate *)

Lemma run_input_gate (client : IOneShotClient) (op : Operation) :
  match parse (inputSchema op) (JObj (candidate op)) with
  | INVALID es =>
      outcome (run client op) = ThrowZodError es /\ calls (run client op) = []
  | OK _ =>
      if printableEntries op then exists r, calls (run client op) = [r]
      else outcome (run client op) = ThrowTypeError
           /\ calls (run client op) = []
  end.
Proof.
  destruct op as [b [p|]|b p|w i|w p|w|w p|w [p|]|w p|d|w t p
                 |b p|b [p|]|c|c p|c|c [p|]];
    unfold_methods;
    cbv beta iota delta [inputSchema candidate printableEntries options];
    match goal with
    | |- context [parse ?s ?c] => destruct (parse s c) as [v|es]
    end;
    try (split; reflexivity);
    rewrite ?appendEntries_entriesQuery; cbn [entriesQuery];
    try match goal with
        | |- context [entriesQuery ?p] => destruct (entriesQuery p)
        end;
    cbv beta iota; try (split; reflexivity);
    match goal with
    | |- context [client ?r] => exists r; destruct (client r)
    end;
    try reflexivity;
    match goal with
    | |- context [parse ?s ?x] => destruct (parse s x); reflexivity
    end.
Qed.

(** Every method first parses the object it builds from its arguments
    with its input schema.  When the schema refuses the object the
    method throws the schema's error and makes no request.  It makes its
    request, one, exactly when the schema accepts the object and every
    [toString] the method calls on the caller's own values can be
    called; when the schema accepts and such a call cannot be made
    ([Wallets.list] and [Wallets.listDelegations] only), the method
    throws a [TypeError] and makes no request. *)
Theorem request_made_iff_input_accepted
  (client : IOneShotClient) (op : Operation) :
  (forall es, parse (inputSchema op) (JObj (candidate op)) = INVALID es ->
              outcome (run client op) = ThrowZodError es
              /\ calls (run client op) = [])
  /\ (((exists v, parse (inputSchema op) (JObj (candidate op)) = OK v)
       /\ printableEntries op = true)
      <-> exists r, calls (run client op) = [r])
  /\ ((exists v, parse (inputSchema op) (JObj (candidate op)) = OK v) ->
      printableEntries op = false ->
      outcome (run client op) = ThrowTypeError
      /\ calls (run client op) = []).
Proof.
  pose proof (run_input_gate client op) as H.
  destruct (parse (inputSchema op) (JObj (candidate op))) as [v|es].
  - split; [discriminate|].
    destruct (printableEntries op).
    + split; [split; eauto | discriminate].
    + destruct H as [Ho Hc]. split; [|auto].
      split; [intros [_ Hp]; discriminate|].
      intros [r Hr]. rewrite Hc in Hr. discriminate.
  - destruct H as [Ho Hc]. split.
    + intros es' E. inversion E; subst. auto.
    + split; [|intros [v E]; discriminate].
      split; [intros [[v E] _]; discriminate|].
      intros [r Hr]. rewrite Hc in Hr. discriminate.
Qed.

(** A declared constraint violated on any one field of the arguments
    aborts the call before any request. *)
Theorem field_violation_aborts_before_request
  (client : IOneShotClient) (op : Operation) (k : string) (s : Schema) :
  fieldSchema k (shapeOf (inputSchema op)) = Some s ->
  rejects s (get (candidate op) k) = true ->
  exists es, outcome (run client op) = ThrowZodError es
             /\ calls (run client op) = [].
Proof.
  intros Hf Hr.
  destruct (rejects_at_any_path s (get (candidate op) k) [Key k] Hr) as [es E].
  destruct (object_field_invalid (shapeOf (inputSchema op)) [] (candidate op)
              (k, s) es (fieldSchema_In _ _ _ Hf) E) as [es' [E' _]].
  rewrite <- inputSchema_is_object in E'.
  pose proof (run_input_gate client op) as H.
  unfold parse in H. rewrite E' in H. eauto.
Qed.

Lemma field_violation_aborts_before_request_witness :
  let op := Wallets_list sampleUuid (Some [("pageSize", JNum (NumInt 0))]) in
  let s := z.number |> int |> positive |> optional |> nullable in
  fieldSchema "pageSize" (shapeOf (inputSchema op)) = Some s
  /\ rejects s (get (candidate op) "pageSize") = true
  /\ exists es, outcome (run nullClient op) = ThrowZodError es
                /\ calls (run nullClient op) = [].
Proof.
  intros op s. split; [reflexivity|]. split; [reflexivity|].
  exact (field_violation_aborts_before_request nullClient op "pageSize" s
           eq_refl eq_refl).
Defined.

(** ** Responses *)

(** A response in which one field violates the output schema makes the
    method throw, after its one request has been made. *)
Theorem response_field_violation_throws
  (client : IOneShotClient) (op : Operation) (out s : Schema) (k : string)
  (r : Request) (resp : Obj) :
  outputSchema op = Some out ->
  fieldSchema k (shapeOf out) = Some s ->
  calls (run client op) = [r] ->
  client r = Resolved (JObj resp) ->
  rejects s (get resp k) = true ->
  exists es, outcome (run client op) = ThrowZodError es.
Proof.
  intros Hout Hf Hc Hcl Hr.
  destruct (rejects_at_any_path s (get resp k) [Key k] Hr) as [es E].
  destruct (object_field_invalid (shapeOf out) [] resp (k, s) es
              (fieldSchema_In _ _ _ Hf) E) as [es' [E' _]].
  rewrite <- (outputSchema_is_object op out Hout) in E'.
  destruct (run_from_empty client op)
    as [[es0 [_ H0]]|[[_ H0]|[r' [Hc' Hr']]]];
    [congruence|congruence|].
  assert (r' = r) by congruence. subst r'.
  rewrite Hcl in Hr'. rewrite Hr', Hout. unfold settle, parse.
  rewrite E'. eauto.
Qed.

Lemma response_field_violation_throws_witness :
  let op := Wallets_list sampleUuid None in
  let resp := [ ("response", JArr []); ("page", JNum (NumInt 0));
                ("pageSize", JNum (NumInt 25));
                ("totalResults", JNum (NumInt 0)) ] in
  let client : IOneShotClient := fun _ => Resolved (JObj resp) in
  let r := mkRequest GET
             "/business/123e4567-e89b-12d3-a456-426614174000/wallets"
             JUndefined in
  outputSchema op = Some walletListSchema
  /\ fieldSchema "page" (shapeOf walletListSchema)
     = Some (z.number |> int |> positive)
  /\ calls (run client op) = [r]
  /\ client r = Resolved (JObj resp)
  /\ rejects (z.number |> int |> positive) (get resp "page") = true
  /\ exists es, outcome (run client op) = ThrowZodError es.
Proof.
  intros op resp client r.
  repeat (split; [reflexivity|]).
  exact (response_field_violation_throws client op walletListSchema
           (z.number |> int |> positive) "page" r resp
           eq_refl eq_refl eq_refl eq_refl eq_refl).
Defined.

(** What a method with an output schema returns conforms exactly to
    that schema, whatever well-formed value the transport resolved to:
    undeclared properties of the response never reach the caller. *)
Theorem returned_value_conforms_to_output_schema
  (client : IOneShotClient) (op : Operation) (s : Schema) (v : JsValue) :
  outputSchema op = Some s ->
  (forall r raw, client r = Resolved raw -> wfValue raw = true) ->
  outcome (run client op) = Return v ->
  conformsExactly s v = true.
Proof.
  intros Hs Hwf Hv.
  destruct (run_from_empty client op) as [[es [Ho _]]|[[Ho _]|[r [_ Hr]]]];
    [congruence|congruence|].
  destruct (client r) as [raw|e] eqn:Ecl; [|congruence].
  rewrite Hr, Hs in Hv. unfold settle in Hv.
  destruct (parse s raw) as [y|es] eqn:Ep; inversion Hv; subst.
  unfold parse in Ep.
  eapply (parse_sound s (outputSchema_wf op s Hs)); eauto.
Qed.

Lemma returned_value_conforms_to_output_schema_witness :
  let raw := JObj [ ("data", JStr "0x01"); ("signature", JStr "0xabcd");
                    ("debug", JStr "trace-17") ] in
  let client : IOneShotClient := fun _ => Resolved raw in
  let op := Wallets_getSignature sampleUuid "permit2"
              [ ("contractAddress", JStr "0xA0b8");
                ("destinationAddress", JStr "0x5FbD") ] in
  let v := JObj [ ("signature", JStr "0xabcd"); ("data", JStr "0x01") ] in
  outputSchema op = Some signatureResponseSchema
  /\ (forall r raw', client r = Resolved raw' -> wfValue raw' = true)
  /\ outcome (run client op) = Return v
  /\ conformsExactly signatureResponseSchema v = true.
Proof.
  intros raw client op v.
  assert (Hwf : forall r raw', client r = Resolved raw' -> wfValue raw' = true).
  { intros r raw' H. inversion H. reflexivity. }
  split; [reflexivity|]. split; [exact Hwf|]. split; [reflexivity|].
  exact (returned_value_conforms_to_output_schema client op
           signatureResponseSchema v eq_refl Hwf eq_refl).
Defined.

(** ** Requests and how a call ends *)

(** How a call ends tells what went over the wire: a transport error is
    exactly the rejection of the one request made, a returned value
    means the one request resolved, a call that made no request threw a
    validation error or a [TypeError], and a [TypeError] means that no
    request was made and that the method is one of the two that print
    the caller's own entries. *)
Theorem outcome_tells_the_calls (client : IOneShotClient) (op : Operation) :
  (forall e, outcome (run client op) = ThrowTransport e
             <-> exists r, calls (run client op) = [r] /\ client r = Rejected e)
  /\ (forall v, outcome (run client op) = Return v ->
                exists r raw, calls (run client op) = [r]
                              /\ client r = Resolved raw)
  /\ (calls (run client op) = [] ->
      (exists es, outcome (run client op) = ThrowZodError es)
      \/ outcome (run client op) = ThrowTypeError)
  /\ (outcome (run client op) = ThrowTypeError ->
      calls (run client op) = []
      /\ queriesRawEntries op = true
      /\ entriesQuery (options op) = None).
Proof.
  assert (Hsettle : forall raw, settle (outputSchema op) raw
                                <> ThrowTypeError).
  { intros raw. unfold settle.
    destruct (outputSchema op) as [s|]; [destruct (parse s raw)|];
      discriminate. }
  assert (Htype : outcome (run client op) = ThrowTypeError ->
                  queriesRawEntries op = true
                  /\ entriesQuery (options op) = None).
  { intros Ho. pose proof (run_input_gate client op) as H.
    destruct (parse (inputSchema op) (JObj (candidate op))) as [v|es].
    - destruct (printableEntries op) eqn:Ep.
      + destruct H as [r Hc].
        destruct (run_from_empty client op)
          as [[es [Ho' _]]|[[_ Hc']|[r' [_ Hr']]]]; [congruence|congruence|].
        destruct (client r') as [raw|e]; [|congruence].
        rewrite Hr' in Ho. now apply Hsettle in Ho.
      + unfold printableEntries in Ep.
        destruct op; try discriminate Ep;
          (split; [reflexivity|]);
          (destruct (entriesQuery _); [discriminate|reflexivity]).
    - destruct H as [Ho' _]. congruence. }
  destruct (run_from_empty client op)
    as [[es [Ho Hc]]|[[Ho Hc]|[r [Hc Hr]]]].
  - rewrite Ho, Hc. split; [|split; [|split]].
    + intros e. split; [discriminate|]. intros [r [H _]]. discriminate.
    + discriminate.
    + eauto.
    + discriminate.
  - split; [|split; [|split]].
    + rewrite Ho, Hc. intros e. split; [discriminate|].
      intros [r [H _]]. discriminate.
    + rewrite Ho. discriminate.
    + auto.
    + intros _. split; [exact Hc | exact (Htype Ho)].
  - rewrite Hc. destruct (client r) as [raw|e'] eqn:Ecl; rewrite Hr.
    + split; [|split; [|split]].
      * intros e. split.
        -- unfold settle. destruct (outputSchema op) as [s|];
             [destruct (parse s raw)|]; discriminate.
        -- intros [r' [H1 H2]]. inversion H1; subst. congruence.
      * intros v _. eauto.
      * discriminate.
      * intros H. now apply Hsettle in H.
    + split; [|split; [|split]].
      * intros e. split.
        -- intros H. inversion H; subst. eauto.
        -- intros [r' [H1 H2]]. inversion H1; subst. congruence.
      * discriminate.
      * discriminate.
      * discriminate.
Qed.

Lemma parse_object_is_object (shape : list (string * Schema))
  (p : list PathElem) (x v : JsValue) :
  _parse (ZodObject shape) p x = OK v -> exists o, v = JObj o.
Proof.
  cbn [_parse]. destruct x; try discriminate.
  destruct (mergeObjectSync _); intros H; inversion H. eauto.
Qed.

(** A GET or DELETE request carries no body; a POST or PUT request
    carries an object. *)
Theorem method_decides_body (client : IOneShotClient) (op : Operation)
  (r : Request) :
  calls (run client op) = [r] ->
  match method r with
  | GET | DELETE => body r = JUndefined
  | POST | PUT => exists o, body r = JObj o
  end.
Proof.
  intros H.
  destruct op as [b [p|]|b p|w i|w p|w|w p|w [p|]|w p|d|w t p
                 |b p|b [p|]|c|c p|c|c [p|]];
    unfold_methods_in H;
    (destruct (parse _ _) as [v|es] eqn:E; [|discriminate H]);
    match type of E with
    | parse ?s ?x = OK _ =>
        let s' := eval cbv in s in
        change (_parse s' [] x = OK v) in E
    end;
    apply parse_object_is_object in E; destruct E as [o ->];
    rewrite ?appendEntries_entriesQuery in H;
    try match type of H with
        | context [entriesQuery ?q] =>
            destruct (entriesQuery q); [|discriminate H]
        end;
    sent_request H; cbn [method body]; eauto.
Qed.

Lemma method_decides_body_witness :
  let op := ContractEvents_searchLogs sampleUuid
              (Some [("startBlock", JNum (NumInt 100))]) in
  let r := mkRequest POST
             "/events/123e4567-e89b-12d3-a456-426614174000/search"
             (JObj [("startBlock", JNum (NumInt 100))]) in
  calls (run nullClient op) = [r]
  /\ exists o, body r = JObj o.
Proof.
  intros op r. split; [reflexivity|].
  exact (method_decides_body nullClient op r eq_refl).
Defined.

(** No method makes a second request: there is no retry and no crawl
    through pages. *)
Theorem every_method_makes_at_most_one_request
  (client : IOneShotClient) (op : Operation) (log : list Request) :
  exists sent, snd (run client op log) = (log ++ sent)%list
               /\ (length sent <= 1)%nat.
Proof.
  destruct (run_cases client op log)
    as [[es H]|[H|[r [[e [_ H]]|[raw [_ H]]]]]];
    rewrite H; cbn [snd].
  - exists []. rewrite app_nil_r. split; [reflexivity | simpl; lia].
  - exists []. rewrite app_nil_r. split; [reflexivity | simpl; lia].
  - exists [r]. split; [reflexivity | simpl; lia].
  - exists [r]. split; [reflexivity | simpl; lia].
Qed.

(** ** Bodies made of the validated arguments *)

Lemma set_NoDup (k : string) (v : JsValue) (o : Obj) :
  NoDup (keys o) -> NoDup (keys (set k v o)).
Proof.
  induction o as [|[k' v'] r IH]; simpl; intros H.
  - constructor; [intros []|constructor].
  - inversion H as [|? ? Hnotin Hnd]; subst.
    destruct (String.eqb k k') eqn:E; simpl; [now constructor|].
    constructor; auto.
    intro Hin. apply Hnotin. clear - Hin E.
    induction r as [|[k2 v2] r IH]; simpl in *.
    + destruct Hin as [->|[]]. now rewrite String.eqb_refl in E.
    + destruct (String.eqb k k2) eqn:E2; simpl in Hin; auto.
      destruct Hin as [->|Hin]; auto.
Qed.

Lemma set_values_wf (k : string) (v : JsValue) (o : Obj) :
  wfValue v = true ->
  forallb (fun kv => wfValue (snd kv)) o = true ->
  forallb (fun kv => wfValue (snd kv)) (set k v o) = true.
Proof.
  intros Hv. induction o as [|[k' v'] r IH]; simpl; intros H.
  - now rewrite Hv.
  - apply andb_prop in H. destruct H as [H1 H2].
    destruct (String.eqb k k'); simpl.
    + now rewrite Hv, H2.
    + now rewrite H1, IH.
Qed.

Lemma set_wfValue (k : string) (v : JsValue) (o : Obj) :
  wfValue v = true -> wfValue (JObj o) = true ->
  wfValue (JObj (set k v o)) = true.
Proof.
  cbn [wfValue]. intros Hv H. apply andb_prop in H. destruct H as [H1 H2].
  apply nodupb_NoDup in H1.
  rewrite (NoDup_nodupb _ (set_NoDup k v o H1)).
  now rewrite set_values_wf.
Qed.

Lemma spread_wfValue (source target : Obj) :
  wfValue (JObj target) = true -> wfValue (JObj source) = true ->
  wfValue (JObj (spread target source)) = true.
Proof.
  unfold spread. revert target.
  induction source as [|[k v] r IH]; intros target Ht Hs; simpl; auto.
  cbn [wfValue] in Hs. apply andb_prop in Hs. destruct Hs as [Hnd Hvals].
  simpl in Hnd, Hvals.
  apply andb_prop in Hnd. destruct Hnd as [_ Hnd].
  apply andb_prop in Hvals. destruct Hvals as [Hv Hvals].
  apply IH.
  - now apply set_wfValue.
  - cbn [wfValue]. now rewrite Hnd, Hvals.
Qed.

(** [ContractEvents.create], [update] and [searchLogs] send as body what
    their input schema returned for the arguments: the body conforms
    exactly to that schema, and a property of [params] that the schema
    does not declare is not in it. *)
Theorem contract_events_body_is_the_validated_params
  (client : IOneShotClient) (op : Operation) (r : Request) :
  sendsValidatedParams op = true ->
  wfValue (JObj (options op)) = true ->
  calls (run client op) = [r] ->
  parse (inputSchema op) (JObj (candidate op)) = OK (body r)
  /\ conformsExactly (inputSchema op) (body r) = true
  /\ (forall k, fieldSchema k (shapeOf (inputSchema op)) = None ->
                prop (body r) k = JUndefined).
Proof.
  intros Hop Hwf H.
  assert (Hcand : wfValue (JObj (candidate op)) = true).
  { destruct op as [b [p|]|b p|w i|w p|w|w p|w [p|]|w p|d|w t p
                   |b p|b [p|]|c|c p|c|c [p|]];
      try discriminate Hop; cbn [candidate options] in *; auto.
    apply spread_wfValue; auto. }
  assert (Hbody : parse (inputSchema op) (JObj (candidate op)) = OK (body r)).
  { destruct op as [b [p|]|b p|w i|w p|w|w p|w [p|]|w p|d|w t p
                   |b p|b [p|]|c|c p|c|c [p|]];
      try discriminate Hop; cbn [candidate inputSchema];
      unfold_methods_in H;
      (destruct (parse _ _) as [v|es] eqn:E; [|discriminate H]);
      sent_request H; reflexivity. }
  split; [exact Hbody|]. split.
  - eapply (parse_sound (inputSchema op)); [| exact Hcand | exact Hbody].
    destruct op; reflexivity.
  - intros k Hk. unfold parse in Hbody.
    rewrite inputSchema_is_object in Hbody.
    eapply parsed_undeclared_absent; eauto.
Qed.

Lemma contract_events_body_is_the_validated_params_witness :
  let op := ContractEvents_update sampleUuid
              [ ("note", JStr "internal"); ("name", JStr "Renamed") ] in
  let r := mkRequest PUT "/events/123e4567-e89b-12d3-a456-426614174000"
             (JObj [("name", JStr "Renamed")]) in
  sendsValidatedParams op = true
  /\ wfValue (JObj (options op)) = true
  /\ calls (run nullClient op) = [r]
  /\ fieldSchema "note" (shapeOf (inputSchema op)) = None
  /\ conformsExactly (inputSchema op) (body r) = true
  /\ prop (body r) "note" = JUndefined.
Proof.
  intros op r.
  destruct (contract_events_body_is_the_validated_params nullClient op r
              eq_refl eq_refl eq_refl) as [_ [H1 H2]].
  split; [reflexivity|]. split; [reflexivity|]. split; [reflexivity|].
  split; [reflexivity|]. split; [exact H1|].
  apply H2. reflexivity.
Defined.

Lemma wallets_request_body_witness :
  let op := Wallets_transfer sampleUuid
              [ ("memo", JStr "rent"); ("transferAmount", JNull);
                ("destinationAccountAddress", JStr "0x5FbD");
                ("priority", JStr "high") ] in
  let r := mkRequest POST
             "/wallets/123e4567-e89b-12d3-a456-426614174000/transfer"
             (JObj [ ("destinationAccountAddress", JStr "0x5FbD");
                     ("transferAmount", JNull); ("memo", JStr "rent") ]) in
  wf_obj (options op)
  /\ lookup (idKey op) (options op) = None
  /\ calls (run nullClient op) = [r]
  /\ body r = JObj (map (fun k => (k, get (options op) k)) (bodyFields op))
  /\ ~ In (idKey op) (keys (map (fun k => (k, get (options op) k))
                              (bodyFields op))).
Proof.
  intros op r.
  assert (Hwf : wf_obj (options op)) by (apply nodupb_NoDup; reflexivity).
  split; [exact Hwf|]. split; [reflexivity|]. split; [reflexivity|].
  exact (wallets_request_body nullClient op r I Hwf eq_refl eq_refl).
Defined.

(** ** The query of ContractEvents.list *)

Lemma fieldsQuery_keys (ks : list string) (params : Obj) :
  map fst (fieldsQuery ks params)
  = filter (fun k => negb (nullish (get params k))) ks.
Proof.
  unfold fieldsQuery. induction ks as [|k r IH]; simpl; auto.
  rewrite map_app, IH. destruct (nullish (get params k)); reflexivity.
Qed.

(** [ContractEvents.list], once its arguments are accepted, sends one
    GET whose query is built from the validated fields: the parameters
    are the declared filters that have a value, in the order pageSize,
    page, chainId, name, status, contractAddress, eventName whatever the
    order of the caller's object, and a key that is not a declared filter
    is never sent.  The numbers of the options are in their canonical
    writing, [wfNumbers], so that their text is the one JavaScript
    prints. *)
Theorem contract_events_list_query_is_the_declared_filters
  (client : IOneShotClient) (businessId : string) (params : option Obj) :
  let op := ContractEvents_list businessId params in
  let p := options op in
  wf_obj p ->
  wfNumbers (JObj p) = true ->
  lookup "businessId" p = None ->
  accepted op = true ->
  calls (ContractEvents.list client businessId params)
  = [mkRequest GET
       ("/business/" ++ businessId ++ "/events"
        ++ querySuffix (fieldsQuery contractEventFilters p))
       JUndefined]
  /\ map fst (fieldsQuery contractEventFilters p)
     = filter (fun k => negb (nullish (get p k))) contractEventFilters
  /\ (forall k, ~ In k contractEventFilters ->
                ~ In k (map fst (fieldsQuery contractEventFilters p))).
Proof.
  intros op p Hwf Hnum Hid Hacc. split; [|split].
  - exact (declared_list_calls client businessId params Hwf Hid Hacc).
  - apply fieldsQuery_keys.
  - intros k Hk Hin. apply fieldsQuery_names in Hin. tauto.
Qed.

Lemma contract_events_list_query_is_the_declared_filters_witness :
  let params := Some [ ("eventName", JStr "Transfer"); ("sort", JStr "desc");
                       ("chainId", JNum (NumInt 1));
                       ("pageSize", JNum (NumInt 10)) ] in
  let op := ContractEvents_list sampleUuid params in
  let p := options op in
  wf_obj p
  /\ wfNumbers (JObj p) = true
  /\ lookup "businessId" p = None
  /\ accepted op = true
  /\ calls (ContractEvents.list nullClient sampleUuid params)
     = [mkRequest GET
          ("/business/123e4567-e89b-12d3-a456-426614174000/events"
           ++ "?pageSize=10&chainId=1&eventName=Transfer")
          JUndefined]
  /\ ~ In "sort" (map fst (fieldsQuery contractEventFilters p)).
Proof.
  intros params op p.
  assert (Hwf : wf_obj p) by (apply nodupb_NoDup; reflexivity).
  destruct (contract_events_list_query_is_the_declared_filters
              nullClient sampleUuid params Hwf eq_refl eq_refl eq_refl)
    as [H1 [_ H3]].
  split; [exact Hwf|]. split; [reflexivity|]. split; [reflexivity|].
  split; [reflexivity|].
  split; [exact H1|]. apply H3.
  unfold contractEventFilters. simpl. intuition discriminate.
Defined.

(** ** Wallets.get *)

Lemma parse_getWalletSchema (w : string) (i : JsValue) :
  uuidRegex w = true ->
  parse getWalletSchema (JObj [("walletId", JStr w); ("includeBalances", i)])
  = match i with
    | JUndefined | JNull | JBool _ =>
        OK (JObj [("walletId", JStr w); ("includeBalances", i)])
    | _ =>
        INVALID [typeIssue "boolean" [Key "includeBalances"] i]
    end.
Proof.
  intros Hu. unfold parse.
  change getWalletSchema
    with (ZodObject
            [ ("walletId", ZodString [CheckUuid]);
              ("includeBalances", ZodNullable (ZodOptional ZodBoolean)) ]).
  cbn [_parse map fst snd].
  change (get [("walletId", JStr w); ("includeBalances", i)] "walletId")
    with (JStr w).
  change (get [("walletId", JStr w); ("includeBalances", i)] "includeBalances")
    with i.
  change (has_key "walletId" [("walletId", JStr w); ("includeBalances", i)])
    with true.
  change (has_key "includeBalances"
            [("walletId", JStr w); ("includeBalances", i)]) with true.
  cbn [flat_map stringCheck app]. rewrite Hu. cbn [checked].
  destruct i; reflexivity.
Qed.

(** For a wallet identifier that is a UUID, [Wallets.get] sends
    includeBalances in the query when it is given a boolean, sends the
    bare path when it is given null or nothing, and makes no request
    when it is given anything else, an object included. *)
Theorem Wallets_get_include_balances
  (client : IOneShotClient) (walletId : string) (includeBalances : JsValue) :
  uuidRegex walletId = true ->
  calls (Wallets.get client walletId includeBalances)
  = match includeBalances with
    | JBool b =>
        [mkRequest GET
           ("/wallets/" ++ walletId ++ "?includeBalances="
            ++ (if b then "true" else "false")) JUndefined]
    | JUndefined | JNull =>
        [mkRequest GET ("/wallets/" ++ walletId) JUndefined]
    | _ => []
    end.
Proof.
  intros Hu. unfold_methods.
  rewrite (parse_getWalletSchema walletId includeBalances Hu).
  destruct includeBalances as [| |b|n|s|l|o]; cbv beta iota;
    try reflexivity;
    try destruct b;
    match goal with
    | |- context [client ?r] =>
        destruct (client r) as [raw|e];
        [destruct (parse walletSchema raw)|]; reflexivity
    end.
Qed.

Lemma Wallets_get_include_balances_witness :
  uuidRegex sampleUuid = true
  /\ calls (Wallets.get nullClient sampleUuid
              (JObj [("includeBalances", JBool true)])) = []
  /\ calls (Wallets.get nullClient sampleUuid (JBool true))
     = [mkRequest GET
          ("/wallets/" ++ sampleUuid ++ "?includeBalances=" ++ "true")
          JUndefined].
Proof.
  split; [reflexivity|]. split.
  - exact (Wallets_get_include_balances nullClient sampleUuid
             (JObj [("includeBalances", JBool true)]) eq_refl).
  - exact (Wallets_get_include_balances nullClient sampleUuid
             (JBool true) eq_refl).
Defined.

(** ** The identifier in the options object *)

Lemma uuid_accepted (p : list PathElem) (x y : JsValue) :
  _parse (ZodString [CheckUuid]) p x = OK y ->
  exists u, x = JStr u /\ uuidRegex u = true.
Proof.
  cbn [_parse]. destruct x as [| | | |u| |]; try discriminate.
  cbn [flat_map stringCheck app]. intros H. exists u. split; auto.
  destruct (uuidRegex u); [reflexivity | discriminate H].
Qed.

(** The identifier field of the arguments, once they are accepted, is a
    UUID string. *)
Lemma accepted_identifier (k : string) (rest : list (string * Schema))
  (o : Obj) (v : JsValue) :
  _parse (ZodObject ((k, ZodString [CheckUuid]) :: rest)) [] (JObj o) = OK v ->
  exists u, get o k = JStr u /\ uuidRegex u = true.
Proof.
  intros H.
  destruct (_parse (ZodString [CheckUuid]) ([] ++ [Key k])%list (get o k))
    as [y|es] eqn:E.
  - eapply uuid_accepted; eauto.
  - destruct (object_field_invalid ((k, ZodString [CheckUuid]) :: rest) [] o
                (k, ZodString [CheckUuid]) es (or_introl eq_refl) E)
      as [es' [E' _]].
    congruence.
Qed.

(** A property of the options object named like the identifier
    replaces the identifier given as first argument: it is the one that
    is validated, and the one the request goes to. *)
Theorem options_identifier_overrides_argument
  (client : IOneShotClient) (op : Operation) (r : Request) (v : JsValue) :
  mergesIdentifier op = true ->
  wf_obj (options op) ->
  lookup (idKey op) (options op) = Some v ->
  calls (run client op) = [r] ->
  exists u, v = JStr u /\ uuidRegex u = true /\ path r = bodyRoute op u.
Proof.
  intros Hop Hwf Hid H.
  destruct op as [b [p|]|b p|w i|w p|w|w p|w [p|]|w p|d|w t p
                 |b p|b [p|]|c|c p|c|c [p|]];
    try discriminate Hop; cbn [options idKey] in Hwf, Hid;
    unfold_methods_in H;
    (destruct (parse _ _) as [v'|es] eqn:E; [|discriminate H]);
    match type of E with
    | parse ?s (JObj ?o) = OK _ =>
        let s' := eval cbv in s in
        change (_parse s' [] (JObj o) = OK v') in E;
        match s' with
        | ZodObject ((?k, _) :: _) =>
            let Hk := fresh "Hk" in
            assert (Hk : prop v' k = get o k)
              by (eapply parsed_field_same;
                  [ exact E | apply nodupb_NoDup; reflexivity
                  | reflexivity | reflexivity | reflexivity ]);
            rewrite Hk in H;
            destruct (accepted_identifier _ _ _ _ E) as [u [Hu1 Hu2]];
            rewrite Hu1 in H;
            rewrite get_spread, Hid in Hu1 by exact Hwf
        end
    end;
    exists u; (split; [exact Hu1|]); (split; [exact Hu2|]);
    cbn [ToString] in H; sent_request H; reflexivity.
Qed.

Lemma options_identifier_overrides_argument_witness :
  let other := "00000000-0000-4000-8000-0000000000ff" in
  let op := Wallets_update "not-a-uuid"
              [("walletId", JStr other); ("name", JStr "Ops")] in
  let r := mkRequest PUT "/wallets/00000000-0000-4000-8000-0000000000ff"
             (JObj [("name", JStr "Ops"); ("description", JUndefined)]) in
  mergesIdentifier op = true
  /\ wf_obj (options op)
  /\ lookup (idKey op) (options op) = Some (JStr other)
  /\ calls (run nullClient op) = [r]
  /\ exists u, JStr other = JStr u /\ uuidRegex u = true
               /\ path r = bodyRoute op u.
Proof.
  intros other op r.
  assert (Hwf : wf_obj (options op)) by (apply nodupb_NoDup; reflexivity).
  split; [reflexivity|]. split; [exact Hwf|]. split; [reflexivity|].
  split; [reflexivity|].
  exact (options_identifier_overrides_argument nullClient op r (JStr other)
           eq_refl Hwf eq_refl eq_refl).
Defined.

(** ** The chain technology of a balance snapshot *)

Lemma balance_type_issue (p : list PathElem) (n : JsNumber) :
  n <> NumInt 0 -> n <> NumNaN ->
  exists es,
    _parse (z.number |> int
            |> refine (fun val => match val with
                                  | NumInt 0 => true
                                  | _ => false
                                  end) "Type must be 0 (EVM)") p (JNum n)
    = INVALID es
    /\ In (mkIssue custom p "Type must be 0 (EVM)") es.
Proof.
  intros H0 Hnan.
  destruct n as [[|q|q]|t|b| |t]; try congruence;
    (eexists; split; [reflexivity | simpl; auto]).
Qed.

(** A wallet whose balance snapshot has a [type] other than 0 is
    refused, and the error carries the message "Type must be 0 (EVM)"
    at the path accountBalanceDetails.type. *)
Theorem wallet_with_other_chain_technology_is_refused
  (o b : Obj) (n : JsNumber) :
  get o "accountBalanceDetails" = JObj b ->
  get b "type" = JNum n ->
  n <> NumInt 0 ->
  n <> NumNaN ->
  exists es,
    parse walletSchema (JObj o) = INVALID es
    /\ In (mkIssue custom [Key "accountBalanceDetails"; Key "type"]
             "Type must be 0 (EVM)") es.
Proof.
  intros Ho Hb H0 Hnan.
  destruct (balance_type_issue [Key "accountBalanceDetails"; Key "type"] n
              H0 Hnan) as [es0 [E0 Hin0]].
  destruct (object_field_invalid (shapeOf accountBalanceDetailsSchema)
              [Key "accountBalanceDetails"] b
              ("type", z.number |> int
                       |> refine (fun val => match val with
                                             | NumInt 0 => true
                                             | _ => false
                                             end) "Type must be 0 (EVM)")
              es0)
    as [es1 [E1 Hincl1]].
  { now left. }
  { cbn [fst snd]. rewrite Hb. exact E0. }
  destruct (object_field_invalid (shapeOf walletSchema) [] o
              ("accountBalanceDetails", accountBalanceDetailsSchema |> nullable)
              es1)
    as [es2 [E2 Hincl2]].
  { unfold walletSchema, z.object, shapeOf. simpl. auto 12. }
  { cbn [fst snd]. rewrite Ho. exact E1. }
  exists es2. split; [exact E2 | auto].
Qed.

Lemma wallet_with_other_chain_technology_is_refused_witness :
  let b := [ ("type", JNum (NumInt 1)); ("ticker", JStr "SOL");
             ("chainId", JNum (NumInt 101)); ("tokenAddress", JStr "");
             ("accountAddress", JStr "0x00"); ("balance", JStr "0");
             ("decimals", JNum (NumInt 9)) ] in
  let o := match sampleWallet with
           | JObj fields => set "accountBalanceDetails" (JObj b) fields
           | _ => []
           end in
  get o "accountBalanceDetails" = JObj b
  /\ get b "type" = JNum (NumInt 1)
  /\ NumInt 1 <> NumInt 0
  /\ NumInt 1 <> NumNaN
  /\ exists es,
       parse walletSchema (JObj o) = INVALID es
       /\ In (mkIssue custom [Key "accountBalanceDetails"; Key "type"]
                "Type must be 0 (EVM)") es.
Proof.
  intros b o.
  assert (H0 : NumInt 1 <> NumInt 0) by discriminate.
  assert (H1 : NumInt 1 <> NumNaN) by discriminate.
  split; [reflexivity|]. split; [reflexivity|].
  split; [exact H0|]. split; [exact H1|].
  exact (wallet_with_other_chain_technology_is_refused o b (NumInt 1)
           eq_refl eq_refl H0 H1).
Defined.

(** ** Optional is not nullable *)

(** [Wallets.transfer] refuses a null memo, and [ContractEvents.update]
    a null name or description, before any request: their schemas
    declare these fields optional but not nullable. *)
Theorem null_is_refused_where_not_nullable
  (client : IOneShotClient) (op : Operation) (k : string) :
  In k (optionalNotNullable op) ->
  wf_obj (options op) ->
  lookup k (options op) = Some JNull ->
  exists es, outcome (run client op) = ThrowZodError es
             /\ calls (run client op) = [].
Proof.
  intros Hk Hwf Hnull.
  assert (Hget : get (candidate op) k = JNull
                 /\ fieldSchema k (shapeOf (inputSchema op))
                    = Some (ZodOptional (ZodString []))).
  { destruct op as [b [p|]|b p|w i|w p|w|w p|w [p|]|w p|d|w t p
                   |b p|b [p|]|c|c p|c|c [p|]];
      try contradiction; cbn [options candidate] in *;
      simpl in Hk;
      repeat (destruct Hk as [<-|Hk]); try contradiction;
      (split; [|reflexivity]).
    - rewrite get_spread_source by (exact Hwf || reflexivity).
      unfold get. now rewrite Hnull.
    - unfold get. now rewrite Hnull.
    - unfold get. now rewrite Hnull. }
  destruct Hget as [Hg Hf].
  destruct (object_field_invalid (shapeOf (inputSchema op)) [] (candidate op)
              (k, ZodOptional (ZodString []))
              [typeIssue "string" [Key k] JNull]
              (fieldSchema_In _ _ _ Hf)) as [es' [E' _]].
  { cbn [fst snd]. rewrite Hg. reflexivity. }
  rewrite <- inputSchema_is_object in E'.
  pose proof (run_input_gate client op) as H.
  unfold parse in H. rewrite E' in H. eauto.
Qed.

Lemma null_is_refused_where_not_nullable_witness :
  let op := Wallets_transfer sampleUuid
              [ ("destinationAccountAddress", JStr "0x5FbD");
                ("memo", JNull) ] in
  In "memo" (optionalNotNullable op)
  /\ wf_obj (options op)
  /\ lookup "memo" (options op) = Some JNull
  /\ exists es, outcome (run nullClient op) = ThrowZodError es
                /\ calls (run nullClient op) = [].
Proof.
  intros op.
  assert (Hin : In "memo" (optionalNotNullable op)) by (simpl; auto).
  assert (Hwf : wf_obj (options op)) by (apply nodupb_NoDup; reflexivity).
  split; [exact Hin|]. split; [exact Hwf|]. split; [reflexivity|].
  exact (null_is_refused_where_not_nullable nullClient op "memo"
           Hin Hwf eq_refl).
Defined.

(** ** Methods that take an identifier alone *)

(** [Wallets.delete], [ContractEvents.get] and [ContractEvents.delete],
    given a UUID, make exactly one request, without body, to the route
    ending in the identifier as it was given. *)
Theorem identifier_only_methods_request
  (client : IOneShotClient) (op : Operation) (r : Request) :
  idRequest op = Some r ->
  uuidRegex (entityId op) = true ->
  calls (run client op) = [r].
Proof.
  intros Hr Hu.
  destruct op as [b [p|]|b p|w i|w p|w|w p|w [p|]|w p|d|w t p
                 |b p|b [p|]|c|c p|c|c [p|]];
    try discriminate Hr; cbn [idRequest entityId] in Hr, Hu;
    inversion Hr; subst r; clear Hr; unfold_methods;
    match goal with
    | |- context [parse ?s (JObj [(?k, JStr ?id)])] =>
        change (parse s (JObj [(k, JStr id)]))
          with (parse (ZodObject [(k, ZodString [CheckUuid])])
                  (JObj [(k, JStr id)]));
        rewrite (parse_single_id k id eq_refl Hu)
    end;
    cbv beta iota;
    match goal with
    | |- context [client ?r0] => destruct (client r0) as [raw|e]
    end;
    try reflexivity;
    match goal with
    | |- context [parse ?s ?x] => destruct (parse s x); reflexivity
    end.
Qed.

Lemma identifier_only_methods_request_witness :
  let op := ContractEvents_get sampleUuid in
  let r := mkRequest GET ("/events/" ++ sampleUuid) JUndefined in
  idRequest op = Some r
  /\ uuidRegex (entityId op) = true
  /\ calls (run nullClient op) = [r].
Proof.
  intros op r. split; [reflexivity|]. split; [reflexivity|].
  exact (identifier_only_methods_request nullClient op r eq_refl eq_refl).
Defined.
